(** * Cache coordination engine of [useCachedPhotos]

    A shallow embedding of
    [src/providers/CachedPhotosProvider/useCachedPhotos.ts]: the resolver
    [generateCachedPhoto], the limiter-gated render [calculateNewCachePhoto],
    the batch loop [calculateCachedPhotos], the guard of
    [recalculateCachedPhotos] and the two effects of the hook.

    Asynchronous code is modelled by its suspension points.  One call of
    [generateCachedPhoto] is a small machine whose states are the [await]s
    of the function; a batch ([Promise.all] over [map]) is a pool of such
    machines sharing the store and the limiter, advanced one resumption at a
    time by a schedule.  Statements about "every run" quantify over all
    schedules. *)

From Stdlib Require Import ZArith Lia.
From stdpp Require Import base option list gmap strings numbers.

(** ** Constants and enumerations of the source *)

Definition PROCESSING_BATCH_SIZE_LIMIT : nat := 25.

Definition CACHE_CALCULATION_PARALLELISM_LIMIT : nat := 30.

Inductive CachedPhotosLoadingState :=
| IDLE
| RESTORING_FROM_CACHE
| RESTORED_FROM_CACHE
| CALCULATING
| COMPLETED.

#[global] Instance CachedPhotosLoadingState_eq_dec : EqDecision CachedPhotosLoadingState.
Proof. solve_decision. Defined.

(** Modelled from the spec: the type of [stateRestorationStatus] is declared
    by the two upstream providers, which are not part of the source file; the
    hook only compares it with ["RESTORING"]. *)
Inductive StateRestorationStatus :=
| RESTORING
| SETTLED.

#[global] Instance StateRestorationStatus_eq_dec : EqDecision StateRestorationStatus.
Proof. solve_decision. Defined.

(** Modelled from the spec: [mediaLibraryLoadingState] is declared by the
    media library provider; the hook only compares it with ["COMPLETED"]. *)
Inductive MediaLibraryLoadingState :=
| ML_LOADING
| ML_COMPLETED.

#[global] Instance MediaLibraryLoadingState_eq_dec : EqDecision MediaLibraryLoadingState.
Proof. solve_decision. Defined.

(** An item of [mediaLibraryPhotos]; the hook reads its [uri] only. *)
Record MediaLibraryPhoto := { uri : string }.

(** [Array.prototype.slice(from, to)] for [0 <= from <= to]. *)
Definition slice {A} (l : list A) (from to : nat) : list A :=
  take (to - from) (drop from l).

(** The settlement of a promise. *)
Inductive Settled (A : Type) :=
| Fulfilled (a : A)
| RejectedP
| PendingP.

Arguments Fulfilled {A} a.
Arguments RejectedP {A}.
Arguments PendingP {A}.

Inductive PassOutcome :=
| PassReturned
| PassThrew
| PassPending.

Section Engine.
(** [Measure] is the type of [singleImageSize] / [mipmapWidth], a layout
    size in density-independent units.  The engine only compares it for
    equality (inside the cache key) and hands it to the density
    conversion. *)
Context {Measure : Type} `{Countable Measure}.

Local Abbreviation CacheKey := (string * Measure)%type.
Local Abbreviation Store := (gmap (string * Measure) string).

(** The argument object [{ originalPhotoUri, mipmapWidth }] that
    [generateCachedPhoto] passes to [getPhotoFromCache] and
    [setPhotoInCache]. *)
Definition cacheKey (photoUri : string) (mipmapWidth : Measure) : CacheKey :=
  (photoUri, mipmapWidth).

(** Modelled from the spec: [CachedPhotoType] is declared in
    [./cache-service]; the spec gives a cache entry as its key and an
    opaque handle of the stored rendition. *)
Record CachedPhotoType := {
  originalPhotoUri : string;
  mipmapWidth : Measure;
  cachedPhotoUri : string
}.

Definition entryOf (k : CacheKey) (handle : string) : CachedPhotoType :=
  {| originalPhotoUri := k.1; mipmapWidth := k.2; cachedPhotoUri := handle |}.

Definition entryKey (e : CachedPhotoType) : CacheKey :=
  (originalPhotoUri e, mipmapWidth e).

(** *** The persistent store ([./cache-service]) *)

(** Modelled from the spec: [getPhotoFromCache] of [./cache-service],
    the store's [get(key)]: the entry stored under the key, or absent. *)
Definition getPhotoFromCache (s : Store) (k : CacheKey) : option CachedPhotoType :=
  entryOf k <$> s !! k.

(** Modelled from the spec: [setPhotoInCache] of [./cache-service], the
    store's [put(key, bytes)]: at most one entry per key, overwritten, and
    the new entry is returned. *)
Definition setPhotoInCache (s : Store) (k : CacheKey) (handle : string)
  : Store * CachedPhotoType :=
  (<[k := handle]> s, entryOf k handle).

(** Modelled from the spec: [loadAllPhotosFromCache] of [./cache-service],
    the restoration path: a read-only scan of the store for every
    (source, width) key, returning only the entries found. *)
Definition loadAllPhotosFromCache (s : Store)
    (mediaLibraryPhotos : list MediaLibraryPhoto) (mipmapWidth : Measure)
  : list CachedPhotoType :=
  omap (λ photo, getPhotoFromCache s (cacheKey (uri photo) mipmapWidth))
       mediaLibraryPhotos.

(** Modelled from the spec: [clearCache] of [./cache-service], the store's
    [clearAll()]. *)
Definition clearCache (s : Store) : Store := ∅.

(** *** The device: pixel density and render primitive *)

(** [getPixelSizeForLayoutSize] is [PixelRatio.getPixelSizeForLayoutSize];
    [render photoUri width] is the chain
    [ImageManipulator.manipulate(photoUri)], [resize({width})],
    [renderAsync()], [saveAsync({JPEG, 0.8})]: the [uri] of the saved
    result, or [None] when one of the awaited calls rejects.  As in the
    spec, the primitive is a function of its two arguments. *)
Record Device := {
  getPixelSizeForLayoutSize : Measure → Z;
  render : string → Z → option string
}.

(** *** One call of [generateCachedPhoto] *)

(** The suspension points of [generateCachedPhoto(photoUri, mipmapWidth)]. *)
Inductive Phase :=
| AwaitLookup                      (* await getPhotoFromCache(...) *)
| AwaitSlot                        (* queued inside cacheCalculationLimiter *)
| Rendering                        (* limiter callback running *)
| AwaitStore (resultUri : string)  (* await setPhotoInCache(..., result.uri) *)
| Resolved (cachedPhoto : CachedPhotoType)
| Rejected.

(** What a resumption does to the outside world. *)
Inductive Event :=
| EvLookup (k : CacheKey) (hit : bool)
| EvAcquire
| EvRender (photoUri : string) (width : Z)
| EvRelease
| EvWrite (k : CacheKey) (handle : string).

(** *** The limiter *)

(** Modelled from the spec: a limiter made by [pLimit] of the package
    [p-limit]: a counting admission gate with a fixed maximum, whose
    callers beyond the maximum wait in first-requested, first-admitted
    order.  It is kept as its maximum, its count of running callbacks and
    its queue of waiting callers. *)
Record Limiter := {
  concurrency : nat;
  activeCount : nat;
  queue : list nat
}.

(** Modelled from the spec: [pLimit(concurrency)], an idle limiter. *)
Definition pLimit (concurrency : nat) : Limiter :=
  {| concurrency := concurrency; activeCount := 0; queue := [] |}.

(** Modelled from the spec: calling the limiter puts the caller at the
    back of the queue. *)
Definition enqueue (i : nat) (l : Limiter) : Limiter :=
  {| concurrency := concurrency l;
     activeCount := activeCount l;
     queue := queue l ++ [i] |}.

(** Modelled from the spec: the caller at the front of the queue is
    admitted when a slot is free. *)
Definition canStart (l : Limiter) (i : nat) : bool :=
  bool_decide (head (queue l) = Some i)
  && bool_decide (activeCount l < concurrency l).

(** Modelled from the spec: admission takes the front caller off the queue
    and occupies a slot. *)
Definition dequeue (l : Limiter) : Limiter :=
  {| concurrency := concurrency l;
     activeCount := S (activeCount l);
     queue := tail (queue l) |}.

(** Modelled from the spec: a callback that settles, either way, frees its
    slot. *)
Definition release (l : Limiter) : Limiter :=
  {| concurrency := concurrency l;
     activeCount := pred (activeCount l);
     queue := queue l |}.

Definition cacheCalculationLimiter : Limiter :=
  pLimit CACHE_CALCULATION_PARALLELISM_LIMIT.

(** *** A batch of calls *)

(** The calls of one batch, with the store and the limiter they share, and
    the events so far, each tagged with the index of its call. *)
Record World := {
  store : Store;
  limiter : Limiter;
  phases : list Phase;
  trace : list (nat * Event)
}.

(** Resume call [i] of the batch at its current suspension point.  [None]
    when the call cannot be resumed: it has settled, or it waits for a
    limiter slot that is not free or not its turn.

    [AwaitLookup]: the lookup returns; a hit is returned as it is, a miss
    goes on to [calculateNewCachePhoto], which calls the limiter.
    [AwaitSlot]: the limiter starts the callback, which issues the render
    at the pixel width of the device.  [Rendering]: the callback settles
    and frees the slot.  [AwaitStore]: [setPhotoInCache] returns the new
    entry. *)
Definition step (d : Device) (batch : list MediaLibraryPhoto)
    (mipmapWidth : Measure) (i : nat) (σ : World) : option World :=
  photo ← batch !! i;
  ph ← phases σ !! i;
  let k := cacheKey (uri photo) mipmapWidth in
  match ph with
  | AwaitLookup =>
      match getPhotoFromCache (store σ) k with
      | Some cached =>
          Some {| store := store σ;
                  limiter := limiter σ;
                  phases := <[i := Resolved cached]> (phases σ);
                  trace := trace σ ++ [(i, EvLookup k true)] |}
      | None =>
          Some {| store := store σ;
                  limiter := enqueue i (limiter σ);
                  phases := <[i := AwaitSlot]> (phases σ);
                  trace := trace σ ++ [(i, EvLookup k false)] |}
      end
  | AwaitSlot =>
      if canStart (limiter σ) i then
        Some {| store := store σ;
                limiter := dequeue (limiter σ);
                phases := <[i := Rendering]> (phases σ);
                trace := trace σ ++
                  [(i, EvAcquire);
                   (i, EvRender (uri photo)
                         (getPixelSizeForLayoutSize d mipmapWidth))] |}
      else None
  | Rendering =>
      let next :=
        match render d (uri photo) (getPixelSizeForLayoutSize d mipmapWidth) with
        | Some resultUri => AwaitStore resultUri
        | None => Rejected
        end in
      Some {| store := store σ;
              limiter := release (limiter σ);
              phases := <[i := next]> (phases σ);
              trace := trace σ ++ [(i, EvRelease)] |}
  | AwaitStore resultUri =>
      let '(s', cachedPhoto) := setPhotoInCache (store σ) k resultUri in
      Some {| store := s';
              limiter := limiter σ;
              phases := <[i := Resolved cachedPhoto]> (phases σ);
              trace := trace σ ++ [(i, EvWrite k resultUri)] |}
  | Resolved _ | Rejected => None
  end.

(** The same resumptions as a relation: call [i], for item [photo], goes
    from one phase to the next, emits events, and turns the store and the
    limiter into new ones. *)
Inductive Resumption (d : Device) (mipmapWidth : Measure)
    (photo : MediaLibraryPhoto) (i : nat) (s : Store) (l : Limiter)
  : Phase → Phase → list Event → Store → Limiter → Prop :=
| ResumeHit cached :
    getPhotoFromCache s (cacheKey (uri photo) mipmapWidth) = Some cached →
    Resumption d mipmapWidth photo i s l
      AwaitLookup (Resolved cached)
      [EvLookup (cacheKey (uri photo) mipmapWidth) true] s l
| ResumeMiss :
    getPhotoFromCache s (cacheKey (uri photo) mipmapWidth) = None →
    Resumption d mipmapWidth photo i s l
      AwaitLookup AwaitSlot
      [EvLookup (cacheKey (uri photo) mipmapWidth) false] s (enqueue i l)
| ResumeStart :
    canStart l i = true →
    Resumption d mipmapWidth photo i s l
      AwaitSlot Rendering
      [EvAcquire;
       EvRender (uri photo) (getPixelSizeForLayoutSize d mipmapWidth)]
      s (dequeue l)
| ResumeRendered resultUri :
    render d (uri photo) (getPixelSizeForLayoutSize d mipmapWidth)
    = Some resultUri →
    Resumption d mipmapWidth photo i s l
      Rendering (AwaitStore resultUri) [EvRelease] s (release l)
| ResumeFailed :
    render d (uri photo) (getPixelSizeForLayoutSize d mipmapWidth) = None →
    Resumption d mipmapWidth photo i s l
      Rendering Rejected [EvRelease] s (release l)
| ResumeStored resultUri :
    Resumption d mipmapWidth photo i s l
      (AwaitStore resultUri)
      (Resolved (entryOf (cacheKey (uri photo) mipmapWidth) resultUri))
      [EvWrite (cacheKey (uri photo) mipmapWidth) resultUri]
      (<[cacheKey (uri photo) mipmapWidth := resultUri]> s) l.

(** Follow a schedule; a pick that cannot be resumed is skipped. *)
Fixpoint run (d : Device) (batch : list MediaLibraryPhoto)
    (mipmapWidth : Measure) (sched : list nat) (σ : World) : World :=
  match sched with
  | [] => σ
  | i :: sched' =>
      run d batch mipmapWidth sched'
          (default σ (step d batch mipmapWidth i σ))
  end.

(** [nextPhotosBatch.map(photo => generateCachedPhoto(...))]: one call per
    item, each about to look its key up.  The limiter is idle: a batch
    starts either first or after a batch all of whose calls resolved
    ([fulfilled_limiter_idle]). *)
Definition spawn (s : Store) (batch : list MediaLibraryPhoto) : World :=
  {| store := s;
     limiter := cacheCalculationLimiter;
     phases := replicate (length batch) AwaitLookup;
     trace := [] |}.

Definition isRejected (ph : Phase) : bool :=
  match ph with Rejected => true | _ => false end.

Definition resolvedValue (ph : Phase) : option CachedPhotoType :=
  match ph with Resolved e => Some e | _ => None end.

Definition isSettled (ph : Phase) : bool :=
  match ph with Resolved _ | Rejected => true | _ => false end.

Definition isRendering (ph : Phase) : bool :=
  match ph with Rendering => true | _ => false end.

Definition allSettled (σ : World) : bool := forallb isSettled (phases σ).

(** The resumptions a call still has ahead of it, at most. *)
Definition remaining (ph : Phase) : nat :=
  match ph with
  | AwaitLookup => 4
  | AwaitSlot => 3
  | Rendering => 2
  | AwaitStore _ => 1
  | Resolved _ | Rejected => 0
  end.

Definition workLeft (σ : World) : nat := sum_list (remaining <$> phases σ).

(** [Promise.all]: rejected as soon as one call has rejected, fulfilled
    with the values in index order once every call has resolved. *)
Definition promiseAll (phs : list Phase) : Settled (list CachedPhotoType) :=
  if existsb isRejected phs then RejectedP
  else match mapM resolvedValue phs with
       | Some values => Fulfilled values
       | None => PendingP
       end.

(** The number of render invocations in flight. *)
Definition inFlight (σ : World) : nat :=
  length (filter (λ ph, isRendering ph = true) (phases σ)).

(** The events of call [i], in order. *)
Definition eventsOf (i : nat) (tr : list (nat * Event)) : list Event :=
  snd <$> filter (λ ie, ie.1 = i) tr.

Definition isRender (ev : Event) : bool :=
  match ev with EvRender _ _ => true | _ => false end.

Definition isWrite (ev : Event) : bool :=
  match ev with EvWrite _ _ => true | _ => false end.

Definition isAcquire (ev : Event) : bool :=
  match ev with EvAcquire => true | _ => false end.

Definition eventKey (ev : Event) : option CacheKey :=
  match ev with
  | EvLookup k _ | EvWrite k _ => Some k
  | _ => None
  end.

(** The schedule that runs the calls one after the other, each through its
    four resumptions. *)
Definition sequentialSchedule (n : nat) : list nat :=
  flat_map (λ i, replicate 4 i) (seq 0 n).

(** *** The hook state and [calculateCachedPhotos] *)

Record State := {
  cachedPhotos : list CachedPhotoType;
  cachedPhotosLoadingState : CachedPhotosLoadingState
}.

(** The updater passed to [setState] at the end of each batch. *)
Definition publish (mediaLibraryPhotos : list MediaLibraryPhoto)
    (newCachedPhotosBatch : list CachedPhotoType) (prev : State) : State :=
  let cachedPhotos' := cachedPhotos prev ++ newCachedPhotosBatch in
  {| cachedPhotos := cachedPhotos';
     cachedPhotosLoadingState :=
       if decide (length cachedPhotos' = length mediaLibraryPhotos)
       then COMPLETED else CALCULATING |}.

(** What a calculation pass has done so far: the store, the hook state,
    the number of [setState] calls and the events, tagged with the index of
    the item in [mediaLibraryPhotos]. *)
Record PassState := {
  ps_store : Store;
  ps_state : State;
  ps_updates : nat;
  ps_trace : list (nat * Event)
}.

(** The [while] loop of [calculateCachedPhotos].  [scheds] gives the
    schedule of each batch in turn.  [PassThrew]: the awaited
    [Promise.all] rejected, which ends the function with that exception.
    [PassPending]: the batch never settles under its schedule. *)
Fixpoint calculateCachedPhotos_loop (fuel : nat) (d : Device)
    (mediaLibraryPhotos : list MediaLibraryPhoto) (singleImageSize : Measure)
    (scheds : list (list nat)) (processedPhotosCount : nat) (st : PassState)
  : option (PassOutcome * PassState) :=
  match fuel with
  | 0 => None
  | S fuel' =>
      if bool_decide (processedPhotosCount < length mediaLibraryPhotos) then
        let nextPhotosBatch :=
          slice mediaLibraryPhotos processedPhotosCount
                (processedPhotosCount + PROCESSING_BATCH_SIZE_LIMIT) in
        let σ := run d nextPhotosBatch singleImageSize (hd [] scheds)
                     (spawn (ps_store st) nextPhotosBatch) in
        let tr := ps_trace st ++
                  ((λ ie : nat * Event, (processedPhotosCount + ie.1, ie.2)) <$> trace σ) in
        match promiseAll (phases σ) with
        | Fulfilled newCachedPhotosBatch =>
            calculateCachedPhotos_loop fuel' d mediaLibraryPhotos
              singleImageSize (tl scheds)
              (processedPhotosCount + length nextPhotosBatch)
              {| ps_store := store σ;
                 ps_state := publish mediaLibraryPhotos newCachedPhotosBatch
                                     (ps_state st);
                 ps_updates := S (ps_updates st);
                 ps_trace := tr |}
        | RejectedP =>
            Some (PassThrew,
                  {| ps_store := store σ; ps_state := ps_state st;
                     ps_updates := ps_updates st; ps_trace := tr |})
        | PendingP =>
            Some (PassPending,
                  {| ps_store := store σ; ps_state := ps_state st;
                     ps_updates := ps_updates st; ps_trace := tr |})
        end
      else Some (PassReturned, st)
  end.

Definition calculateCachedPhotos (d : Device)
    (mediaLibraryPhotos : list MediaLibraryPhoto) (singleImageSize : Measure)
    (scheds : list (list nat)) (s : Store) (st : State)
  : option (PassOutcome * PassState) :=
  calculateCachedPhotos_loop (S (length mediaLibraryPhotos)) d
    mediaLibraryPhotos singleImageSize scheds 0
    {| ps_store := s; ps_state := st; ps_updates := 0; ps_trace := [] |}.

(** Every batch run call after call. *)
Definition sequentialSchedules (mediaLibraryPhotos : list MediaLibraryPhoto)
  : list (list nat) :=
  replicate (length mediaLibraryPhotos)
            (sequentialSchedule PROCESSING_BATCH_SIZE_LIMIT).

(** *** The hook *)

(** What the hook reads from [useGalleryUISettings] and
    [useMediaLibraryPhotos]. *)
Record Upstream := {
  singleImageSize : Measure;
  galleryUISettingsStateRestorationStatus : StateRestorationStatus;
  mediaLibraryPhotos : list MediaLibraryPhoto;
  mediaLibraryLoadingState : MediaLibraryLoadingState;
  mediaLibraryStateRestorationStatus : StateRestorationStatus
}.

Definition initialState : State :=
  {| cachedPhotos := []; cachedPhotosLoadingState := IDLE |}.

(** What an effect or a callback of the hook does, in program order.  Of
    the logger calls only the warning is kept; the others have no part in
    any state. *)
Inductive Effect :=
| Warn (msg : string)      (* logger.cachedPhotos.warn(msg) *)
| ClearCache               (* await clearCache() *)
| SetState (st : State)    (* setState(st) *)
| Calculate.               (* calculateCachedPhotos() *)

(** The restoration effect. *)
Definition restorationEffect (up : Upstream) (s : Store) (st : State)
  : list Effect :=
  if bool_decide (galleryUISettingsStateRestorationStatus up = RESTORING)
     || bool_decide (mediaLibraryStateRestorationStatus up = RESTORING)
     || bool_decide (mediaLibraryLoadingState up ≠ ML_COMPLETED)
  then []
  else if bool_decide (cachedPhotosLoadingState st ≠ IDLE) then []
  else
    let cached :=
      loadAllPhotosFromCache s (mediaLibraryPhotos up) (singleImageSize up) in
    SetState {| cachedPhotos := [];
                cachedPhotosLoadingState := RESTORING_FROM_CACHE |}
    :: (if bool_decide (length cached = 0) then
          [SetState {| cachedPhotos := [];
                       cachedPhotosLoadingState := RESTORED_FROM_CACHE |}]
        else
          [SetState
             {| cachedPhotos := cached;
                cachedPhotosLoadingState :=
                  if bool_decide (length cached = length (mediaLibraryPhotos up))
                  then COMPLETED else RESTORED_FROM_CACHE |}]).

(** The calculation effect. *)
Definition calculationEffect (st : State) : list Effect :=
  if bool_decide (cachedPhotosLoadingState st ≠ RESTORED_FROM_CACHE) then []
  else [Calculate].

(** [recalculateCachedPhotos]. *)
Definition recalculateCachedPhotos (st : State) : list Effect :=
  if bool_decide (cachedPhotosLoadingState st = CALCULATING)
     || bool_decide (cachedPhotosLoadingState st = RESTORING_FROM_CACHE)
  then
    [Warn "❌ Recalculate cached photos is already in progress, skipping"%string]
  else
    [ClearCache;
     SetState {| cachedPhotos := []; cachedPhotosLoadingState := CALCULATING |};
     Calculate].

(** The store, the hook state, the warnings so far, and the calculation
    passes started so far with what became of them. *)
Record Hook := {
  hk_store : Store;
  hk_state : State;
  hk_warnings : list string;
  hk_passes : list (option (PassOutcome * PassState))
}.

(** Carry out one effect.  A calculation pass works on the store and on
    the hook state as they are when it starts and leaves them as it ends. *)
Definition perform (d : Device) (scheds : list (list nat)) (up : Upstream)
    (hk : Hook) (eff : Effect) : Hook :=
  match eff with
  | Warn msg =>
      {| hk_store := hk_store hk; hk_state := hk_state hk;
         hk_warnings := hk_warnings hk ++ [msg]; hk_passes := hk_passes hk |}
  | ClearCache =>
      {| hk_store := clearCache (hk_store hk); hk_state := hk_state hk;
         hk_warnings := hk_warnings hk; hk_passes := hk_passes hk |}
  | SetState st =>
      {| hk_store := hk_store hk; hk_state := st;
         hk_warnings := hk_warnings hk; hk_passes := hk_passes hk |}
  | Calculate =>
      let pass :=
        calculateCachedPhotos d (mediaLibraryPhotos up) (singleImageSize up)
          scheds (hk_store hk) (hk_state hk) in
      {| hk_store := from_option (λ r, ps_store r.2) (hk_store hk) pass;
         hk_state := from_option (λ r, ps_state r.2) (hk_state hk) pass;
         hk_warnings := hk_warnings hk;
         hk_passes := hk_passes hk ++ [pass] |}
  end.

Definition performAll (d : Device) (scheds : list (list nat)) (up : Upstream)
    (hk : Hook) (effs : list Effect) : Hook :=
  foldl (perform d scheds up) hk effs.

Definition mount (s : Store) : Hook :=
  {| hk_store := s; hk_state := initialState;
     hk_warnings := []; hk_passes := [] |}.

(** Mount to rest: the restoration effect, then the calculation effect on
    the state it left. *)
Definition restoreThenCalculate (d : Device) (scheds : list (list nat))
    (up : Upstream) (s : Store) : Hook :=
  let restored :=
    performAll d scheds up (mount s)
      (restorationEffect up s initialState) in
  performAll d scheds up restored (calculationEffect (hk_state restored)).

(** *** What a batch amounts to, whatever the schedule *)

(** The handle a key ends up with when the batch started from store [s0]:
    the stored one, else what the render primitive gives (nothing if it
    fails). *)
Definition settledHandle (s0 : Store) (d : Device) (k : CacheKey)
  : option string :=
  match s0 !! k with
  | Some handle => Some handle
  | None => render d k.1 (getPixelSizeForLayoutSize d k.2)
  end.

Definition expectedEntry (s0 : Store) (d : Device) (mipmapWidth : Measure)
    (photo : MediaLibraryPhoto) : option CachedPhotoType :=
  let k := cacheKey (uri photo) mipmapWidth in
  entryOf k <$> settledHandle s0 d k.

(** The store once every call of the batch has settled. *)
Definition settle (s0 : Store) (d : Device) (mipmapWidth : Measure)
    (batch : list MediaLibraryPhoto) : Store :=
  foldr (λ photo s,
           let k := cacheKey (uri photo) mipmapWidth in
           match settledHandle s0 d k with
           | Some handle => <[k := handle]> s
           | None => s
           end) s0 batch.

(** The events of a call that missed, up to the render it issued. *)
Definition missPrefix (d : Device) (mipmapWidth : Measure)
    (photo : MediaLibraryPhoto) : list Event :=
  [EvLookup (cacheKey (uri photo) mipmapWidth) false;
   EvAcquire;
   EvRender (uri photo) (getPixelSizeForLayoutSize d mipmapWidth)].

(** How the phase of a call determines its history. *)
Definition callOk (s0 : Store) (d : Device) (mipmapWidth : Measure)
    (s : Store) (photo : MediaLibraryPhoto) (ph : Phase) (evs : list Event)
  : Prop :=
  let k := cacheKey (uri photo) mipmapWidth in
  let px := getPixelSizeForLayoutSize d mipmapWidth in
  match ph with
  | AwaitLookup => evs = []
  | AwaitSlot => evs = [EvLookup k false] ∧ s0 !! k = None
  | Rendering => evs = missPrefix d mipmapWidth photo ∧ s0 !! k = None
  | AwaitStore resultUri =>
      evs = missPrefix d mipmapWidth photo ++ [EvRelease]
      ∧ s0 !! k = None ∧ render d (uri photo) px = Some resultUri
  | Rejected =>
      evs = missPrefix d mipmapWidth photo ++ [EvRelease]
      ∧ s0 !! k = None ∧ render d (uri photo) px = None
  | Resolved e =>
      s !! k = Some (cachedPhotoUri e) ∧ e = entryOf k (cachedPhotoUri e)
      ∧ (evs = [EvLookup k true]
         ∨ (evs = missPrefix d mipmapWidth photo
                  ++ [EvRelease; EvWrite k (cachedPhotoUri e)]
            ∧ s0 !! k = None
            ∧ render d (uri photo) px = Some (cachedPhotoUri e)))
  end.

(** The invariant of a batch started from store [s0]. *)
Record Consistent (s0 : Store) (d : Device)
    (batch : list MediaLibraryPhoto) (mipmapWidth : Measure) (σ : World)
  : Prop := {
  cons_length : length (phases σ) = length batch;
  cons_concurrency :
    concurrency (limiter σ) = CACHE_CALCULATION_PARALLELISM_LIMIT;
  cons_active : activeCount (limiter σ) = inFlight σ;
  cons_bound : activeCount (limiter σ) ≤ concurrency (limiter σ);
  cons_queue_nodup : NoDup (queue (limiter σ));
  cons_queue :
    ∀ i, i ∈ queue (limiter σ) ↔ phases σ !! i = Some AwaitSlot;
  cons_kept : ∀ k handle, s0 !! k = Some handle → store σ !! k = Some handle;
  cons_values :
    ∀ k handle, store σ !! k = Some handle → settledHandle s0 d k = Some handle;
  cons_frame :
    ∀ k, (∀ photo, photo ∈ batch → k ≠ cacheKey (uri photo) mipmapWidth) →
         store σ !! k = s0 !! k;
  cons_written :
    ∀ k, store σ !! k ≠ s0 !! k →
         ∃ i photo e, batch !! i = Some photo
                      ∧ k = cacheKey (uri photo) mipmapWidth
                      ∧ phases σ !! i = Some (Resolved e);
  cons_calls :
    ∀ i photo ph, batch !! i = Some photo → phases σ !! i = Some ph →
      callOk s0 d mipmapWidth (store σ) photo ph (eventsOf i (trace σ));
  cons_trace : ∀ i ev, (i, ev) ∈ trace σ → i < length batch
}.

(** Every world the limiter can be in over the life of the program.  Calls
    are started at any time, in batches of any size and by any number of
    passes; any call is resumed, for whatever item and width it was
    started; and the store may change under them ([clearCache]). *)
Inductive Reachable (d : Device) : World → Prop :=
| ReachIdle s :
    Reachable d {| store := s; limiter := cacheCalculationLimiter;
                   phases := []; trace := [] |}
| ReachSpawn σ n :
    Reachable d σ →
    Reachable d {| store := store σ; limiter := limiter σ;
                   phases := phases σ ++ replicate n AwaitLookup;
                   trace := trace σ |}
| ReachStore σ s :
    Reachable d σ →
    Reachable d {| store := s; limiter := limiter σ;
                   phases := phases σ; trace := trace σ |}
| ReachStep σ batch mipmapWidth i σ' :
    Reachable d σ →
    step d batch mipmapWidth i σ = Some σ' →
    Reachable d σ'.

(** *** Whole histories, and the hook over time *)

(** Everything a call that missed does when it is run to its end: the
    lookup, the slot, the render, the release, and the write when the
    render gave a result. *)
Definition missHistory (d : Device) (mipmapWidth : Measure)
    (photo : MediaLibraryPhoto) : list Event :=
  missPrefix d mipmapWidth photo
  ++ EvRelease
     :: match render d (uri photo)
                (getPixelSizeForLayoutSize d mipmapWidth) with
        | Some resultUri =>
            [EvWrite (cacheKey (uri photo) mipmapWidth) resultUri]
        | None => []
        end.

(** What can happen to the mounted hook: one of its two effects runs, or
    its consumer calls [recalculateCachedPhotos]; each time with the
    upstream values of that render, and with the schedules of the pass it
    may start. *)
Inductive HookEvent :=
| RestorationRuns (up : Upstream)
| CalculationRuns (up : Upstream) (scheds : list (list nat))
| RecalculateCalled (up : Upstream) (scheds : list (list nat)).

Definition eventUpstream (ev : HookEvent) : Upstream :=
  match ev with
  | RestorationRuns up | CalculationRuns up _ | RecalculateCalled up _ => up
  end.

(** One event, handled to its end before the next one arrives: a pass
    that the event starts has returned, thrown or come to a halt under its
    schedules by then.  Events that arrive while a pass is in flight are
    not represented. *)
Definition handle (d : Device) (hk : Hook) (ev : HookEvent) : Hook :=
  match ev with
  | RestorationRuns up =>
      performAll d [] up hk
        (restorationEffect up (hk_store hk) (hk_state hk))
  | CalculationRuns up scheds =>
      performAll d scheds up hk (calculationEffect (hk_state hk))
  | RecalculateCalled up scheds =>
      performAll d scheds up hk (recalculateCachedPhotos (hk_state hk))
  end.

Definition handleAll (d : Device) (hk : Hook) (evs : list HookEvent) : Hook :=
  foldl (handle d) hk evs.

(** Nothing is in flight: every pass started so far has returned, hence
    every call it made has resolved. *)
Definition atRest (hk : Hook) : bool :=
  forallb (λ pass, match pass with
                   | Some (PassReturned, _) => true
                   | _ => false
                   end)
          (hk_passes hk).

End Engine.

(** ** Sample data

    A device of pixel ratio 3 whose render primitive fails on the uri
    ["broken"], three photos, and stores keyed at widths 100 and 200. *)

Definition sampleDevice : @Device Z :=
  {| getPixelSizeForLayoutSize := λ width, (3 * width)%Z;
     render := λ photoUri _,
       if bool_decide (photoUri = "broken"%string) then None
       else Some (String.append "file:///cache/" photoUri) |}.

Definition denseDevice : @Device Z :=
  {| getPixelSizeForLayoutSize := λ width, (2 * width)%Z;
     render := λ photoUri _, Some (String.append "file:///tmp/" photoUri) |}.

Definition photoA : MediaLibraryPhoto := {| uri := "A" |}.

Definition photoB : MediaLibraryPhoto := {| uri := "B" |}.

Definition photoC : MediaLibraryPhoto := {| uri := "C" |}.

Definition photoBroken : MediaLibraryPhoto := {| uri := "broken" |}.

Definition settledUpstream (photos : list MediaLibraryPhoto) (width : Z)
  : @Upstream Z :=
  {| singleImageSize := width;
     galleryUISettingsStateRestorationStatus := SETTLED;
     mediaLibraryPhotos := photos;
     mediaLibraryLoadingState := ML_COMPLETED;
     mediaLibraryStateRestorationStatus := SETTLED |}.

Definition storeAB : gmap (string * Z) string :=
  {[ ("A"%string, 100%Z) := "a.jpg"%string;
     ("B"%string, 100%Z) := "b.jpg"%string ]}.

Definition storeTwoWidths : gmap (string * Z) string :=
  {[ ("A"%string, 100%Z) := "a100.jpg"%string;
     ("A"%string, 200%Z) := "a200.jpg"%string ]}.

(** Twenty-six photos, two batches, the first of which holds the broken
    one. *)
Definition brokenFirst : list MediaLibraryPhoto :=
  photoBroken
  :: ((λ n, {| uri := String (Ascii.ascii_of_nat (97 + n)) EmptyString |})
        <$> seq 0 25).

Definition hookIn (s : gmap (string * Z) string)
    (cached : list (@CachedPhotoType Z)) (ls : CachedPhotosLoadingState)
  : @Hook Z _ _ :=
  {| hk_store := s;
     hk_state := {| cachedPhotos := cached; cachedPhotosLoadingState := ls |};
     hk_warnings := [];
     hk_passes := [] |}.

(** Thirty-one photos in one batch, one more than the limiter lets in, and
    the schedule that lets each look its key up and then ask for a slot. *)
Definition crowd : list MediaLibraryPhoto :=
  (λ n, {| uri := String (Ascii.ascii_of_nat (48 + n)) EmptyString |})
    <$> seq 0 31.

Definition crowdSchedule : list nat := seq 0 31 ++ seq 0 31.

(** * Proofs *)

(** ** Lists, events, counters *)

Lemma filter_length_insert {A} (P : A → Prop) `{∀ x, Decision (P x)}
    (l : list A) (i : nat) (x y : A) :
  l !! i = Some x →
  length (filter P (<[i:=y]> l)) + (if decide (P x) then 1 else 0)
  = length (filter P l) + (if decide (P y) then 1 else 0).
Proof.
  revert i. induction l as [|a l IH]; intros [|i] Hi; simplify_eq/=.
  - rewrite !filter_cons. repeat case_decide; simpl; lia.
  - specialize (IH i Hi). rewrite !filter_cons.
    destruct (decide (P a)); simpl; lia.
Qed.

Lemma slice_length {A} (l : list A) (from n : nat) :
  length (slice l from (from + n)) = n `min` (length l - from).
Proof.
  unfold slice. rewrite length_take, length_drop.
  replace (from + n - from) with n by lia. done.
Qed.

Lemma slice_drop {A} (l : list A) (from n : nat) :
  drop from l = slice l from (from + n) ++ drop (from + length (slice l from (from + n))) l.
Proof.
  unfold slice. replace (from + n - from) with n by lia.
  rewrite <- (take_drop n (drop from l)) at 1. f_equal.
  rewrite drop_drop, length_take, length_drop.
  destruct (decide (n ≤ length l - from)).
  - by rewrite Nat.min_l by lia.
  - rewrite Nat.min_r by lia. rewrite !drop_ge; [done|lia|lia].
Qed.

Section Theory.
Context {Measure : Type} `{Countable Measure}.

Local Abbreviation CacheKey := (string * Measure)%type.
Local Abbreviation Store := (gmap (string * Measure) string).

Lemma eventsOf_app (i : nat) (t1 t2 : list (nat * @Event Measure)) :
  eventsOf i (t1 ++ t2) = eventsOf i t1 ++ eventsOf i t2.
Proof. unfold eventsOf. by rewrite list.filter_app, fmap_app. Qed.

Lemma eventsOf_here (i : nat) (evs : list (@Event Measure)) :
  eventsOf i ((λ ev, (i, ev)) <$> evs) = evs.
Proof.
  unfold eventsOf. induction evs as [|ev evs IH]; [done|].
  rewrite fmap_cons, filter_cons_True by done.
  rewrite fmap_cons. by f_equal.
Qed.

Lemma eventsOf_other (i j : nat) (evs : list (@Event Measure)) :
  j ≠ i → eventsOf i ((λ ev, (j, ev)) <$> evs) = [].
Proof.
  intros Hne. unfold eventsOf. induction evs as [|ev evs IH]; [done|].
  rewrite fmap_cons. by rewrite filter_cons_False.
Qed.

Lemma eventsOf_snoc (i j : nat) (tr : list (nat * @Event Measure))
    (evs : list (@Event Measure)) :
  eventsOf i (tr ++ ((λ ev, (j, ev)) <$> evs))
  = eventsOf i tr ++ (if decide (j = i) then evs else []).
Proof.
  rewrite eventsOf_app. case_decide; subst.
  - by rewrite eventsOf_here.
  - by rewrite eventsOf_other.
Qed.

Lemma inFlight_insert (σ : @World Measure _ _) (i : nat) (ph ph' : Phase)
    (s : Store) (l : Limiter) (tr : list (nat * Event)) :
  phases σ !! i = Some ph →
  inFlight {| store := s; limiter := l; phases := <[i:=ph']> (phases σ);
              trace := tr |}
  + (if isRendering ph then 1 else 0)
  = inFlight σ + (if isRendering ph' then 1 else 0).
Proof.
  intros Hi. unfold inFlight. simpl.
  pose proof (filter_length_insert (λ ph, isRendering ph = true)
                (phases σ) i ph ph' Hi) as Hc.
  destruct (isRendering ph) eqn:E1, (isRendering ph') eqn:E2;
    repeat case_decide; try congruence; lia.
Qed.

End Theory.

Section Batch.
Context {Measure : Type} `{Countable Measure}.

Local Abbreviation CacheKey := (string * Measure)%type.
Local Abbreviation Store := (gmap (string * Measure) string).

Implicit Types (d : @Device Measure) (batch : list MediaLibraryPhoto)
  (w : Measure) (photo : MediaLibraryPhoto) (i j : nat).

(** [step] and [Resumption] describe the same moves. *)
Lemma step_resumption d batch w i (σ σ' : @World Measure _ _) :
  step d batch w i σ = Some σ' →
  ∃ photo ph ph' evs,
    batch !! i = Some photo ∧ phases σ !! i = Some ph
    ∧ Resumption d w photo i (store σ) (limiter σ) ph ph' evs
                 (store σ') (limiter σ')
    ∧ phases σ' = <[i:=ph']> (phases σ)
    ∧ trace σ' = trace σ ++ ((λ ev, (i, ev)) <$> evs).
Proof.
  unfold step. intros Hstep.
  destruct (batch !! i) as [photo|] eqn:Hphoto; [|done].
  destruct (phases σ !! i) as [ph|] eqn:Hph; [|done].
  simpl in Hstep. exists photo, ph.
  destruct ph as [| | |resultUri|e|]; try done.
  - destruct (getPhotoFromCache _ _) as [cached|] eqn:Hget; simplify_eq.
    + eexists _, _. repeat split; simpl; [by constructor|done..].
    + eexists _, _. repeat split; simpl; [by constructor|done..].
  - destruct (canStart _ _) eqn:Hadm; simplify_eq.
    eexists _, _. repeat split; simpl; [by constructor|done..].
  - simplify_eq.
    destruct (render d _ _) as [resultUri|] eqn:Hr.
    + eexists _, _. repeat split; simpl; [by constructor|done..].
    + eexists _, _. repeat split; simpl; [by constructor|done..].
  - simplify_eq.
    eexists _, _. repeat split; simpl; [by constructor|done..].
Qed.

Lemma resumption_step d batch w i (σ : @World Measure _ _) photo ph ph' evs s' l' :
  batch !! i = Some photo → phases σ !! i = Some ph →
  Resumption d w photo i (store σ) (limiter σ) ph ph' evs s' l' →
  step d batch w i σ
  = Some {| store := s'; limiter := l'; phases := <[i:=ph']> (phases σ);
            trace := trace σ ++ ((λ ev, (i, ev)) <$> evs) |}.
Proof.
  intros Hphoto Hph Hres. unfold step. rewrite Hphoto, Hph. simpl.
  destruct Hres as [cached Hget|Hget|Hadm|r Hr|Hr|r].
  - by rewrite Hget.
  - by rewrite Hget.
  - by rewrite Hadm.
  - by rewrite Hr.
  - by rewrite Hr.
  - done.
Qed.

Lemma getPhotoFromCache_Some (s : Store) (k : CacheKey) e :
  getPhotoFromCache s k = Some e ↔
  s !! k = Some (cachedPhotoUri e) ∧ e = entryOf k (cachedPhotoUri e).
Proof.
  unfold getPhotoFromCache. split.
  - intros Hg. destruct (s !! k) as [h|]; simplify_eq/=. done.
  - intros [-> ->]. done.
Qed.

Lemma getPhotoFromCache_None (s : Store) (k : CacheKey) :
  getPhotoFromCache s k = None ↔ s !! k = None.
Proof. unfold getPhotoFromCache. by rewrite fmap_None. Qed.

Lemma settledHandle_key (s0 : Store) d w photo :
  s0 !! cacheKey (uri photo) w = None →
  settledHandle s0 d (cacheKey (uri photo) w)
  = render d (uri photo) (getPixelSizeForLayoutSize d w).
Proof. intros Hs0. unfold settledHandle. by rewrite Hs0. Qed.

(** A history stays right when the store only grows. *)
Lemma callOk_mono (s0 s s' : Store) d w photo ph evs :
  (∀ k h, s !! k = Some h → s' !! k = Some h) →
  callOk s0 d w s photo ph evs → callOk s0 d w s' photo ph evs.
Proof.
  intros Hmono. destruct ph; simpl; try done.
  intros (Hs & He & Hevs). auto.
Qed.

(** The store of a consistent batch only grows by a resumption. *)
Lemma resumption_store_mono (s0 : Store) d batch w (σ : @World Measure _ _)
    i photo ph ph' evs s' l' :
  Consistent s0 d batch w σ →
  batch !! i = Some photo → phases σ !! i = Some ph →
  Resumption d w photo i (store σ) (limiter σ) ph ph' evs s' l' →
  ∀ k h, store σ !! k = Some h → s' !! k = Some h.
Proof.
  intros Hc Hphoto Hph Hres k h Hk.
  destruct Hres as [cached Hget|Hget|Hadm|r Hr|Hr|r]; try done.
  destruct (decide (k = cacheKey (uri photo) w)) as [->|Hne].
  - pose proof (cons_calls _ _ _ _ _ Hc i photo _ Hphoto Hph) as Hcall.
    simpl in Hcall. destruct Hcall as (_ & Hs0 & Hr).
    pose proof (cons_values _ _ _ _ _ Hc _ _ Hk) as Hv.
    rewrite settledHandle_key in Hv by done.
    rewrite lookup_insert_eq. congruence.
  - by rewrite lookup_insert_ne.
Qed.

Lemma spawn_consistent (s0 : Store) d batch w :
  Consistent s0 d batch w (spawn s0 batch).
Proof.
  split; simpl.
  - by rewrite length_replicate.
  - done.
  - unfold inFlight. simpl. generalize (length batch) as n.
    induction n as [|n IH]; [done|]. simpl. by rewrite filter_cons_False.
  - lia.
  - constructor.
  - intros i. split; [by intros ?%elem_of_nil|].
    intros [? _]%lookup_replicate. done.
  - done.
  - intros k h Hk. unfold settledHandle. by rewrite Hk.
  - done.
  - done.
  - intros i photo ph _ [-> _]%lookup_replicate. done.
  - by intros i ev ?%elem_of_nil.
Qed.

(** Every resumption keeps the batch consistent. *)
Lemma step_consistent (s0 : Store) d batch w i (σ σ' : @World Measure _ _) :
  Consistent s0 d batch w σ →
  step d batch w i σ = Some σ' →
  Consistent s0 d batch w σ'.
Proof.
  intros Hc Hstep.
  destruct (step_resumption _ _ _ _ _ _ Hstep)
    as (photo & ph & ph' & evs & Hphoto & Hph & Hres & Hphs & Htr).
  pose proof (resumption_store_mono _ _ _ _ _ _ _ _ _ _ _ _
                Hc Hphoto Hph Hres) as Hmono.
  pose proof (cons_calls _ _ _ _ _ Hc i photo ph Hphoto Hph) as Hcall.
  assert (Hi : i < length (phases σ)) by (by eapply lookup_lt_Some).
  assert (Hfl : inFlight σ' + (if isRendering ph then 1 else 0)
                = inFlight σ + (if isRendering ph' then 1 else 0)).
  { destruct σ' as [s' l' phs' tr']. simpl in *. subst phs'.
    by apply inFlight_insert. }
  destruct Hc as [Hlen Hconc Hact Hbound Hnd Hq Hkept Hvals Hframe Hwritten
                  Hcalls Htrace].
  assert (Hcalls' : ∀ j photo' phj, j ≠ i →
            batch !! j = Some photo' → phases σ' !! j = Some phj →
            callOk s0 d w (store σ') photo' phj (eventsOf j (trace σ'))).
  { intros j photo' phj Hne Hb Hp. rewrite Hphs in Hp.
    rewrite list_lookup_insert_ne in Hp by done.
    rewrite Htr, eventsOf_snoc, decide_False, app_nil_r by done.
    eapply callOk_mono; [exact Hmono|]. by apply Hcalls. }
  assert (Hqne : ∀ j, j ≠ i →
            (phases σ' !! j = Some AwaitSlot ↔ phases σ !! j = Some AwaitSlot)).
  { intros j Hne. by rewrite Hphs, list_lookup_insert_ne. }
  assert (Hpi : phases σ' !! i = Some ph').
  { rewrite Hphs. by apply list_lookup_insert_eq. }
  assert (Hevi : eventsOf i (trace σ') = eventsOf i (trace σ) ++ evs).
  { by rewrite Htr, eventsOf_snoc, decide_True. }
  split.
  - by rewrite Hphs, length_insert.
  - destruct Hres; simpl; done.
  - destruct Hres; simpl in *; lia.
  - destruct Hres as [cached Hget|Hget|Hadm|r Hr|Hr|r]; simpl in *; try lia.
    unfold canStart in Hadm. apply andb_prop in Hadm as [_ Hlt].
    apply bool_decide_eq_true in Hlt. lia.
  - destruct Hres as [cached Hget|Hget|Hadm|r Hr|Hr|r]; simpl; try done.
    + apply list.NoDup_app. split_and!; [done| |apply list.NoDup_singleton].
      intros j Hj ->%list_elem_of_singleton.
      apply Hq in Hj. congruence.
    + unfold canStart in Hadm. apply andb_prop in Hadm as [Hhd _].
      apply bool_decide_eq_true in Hhd.
      destruct (queue (limiter σ)) as [|q0 q]; simplify_eq/=.
      by apply list.NoDup_cons in Hnd as [_ ?].
  - intros j. destruct (decide (j = i)) as [->|Hne].
    + rewrite Hpi.
      destruct Hres as [cached Hget|Hget|Hadm|r Hr|Hr|r]; simpl.
      * rewrite Hq, Hph. naive_solver.
      * rewrite elem_of_app, list_elem_of_singleton. naive_solver.
      * unfold canStart in Hadm. apply andb_prop in Hadm as [Hhd _].
        apply bool_decide_eq_true in Hhd.
        destruct (queue (limiter σ)) as [|q0 q]; simplify_eq/=.
        apply list.NoDup_cons in Hnd as [Hni _]. naive_solver.
      * rewrite Hq, Hph. naive_solver.
      * rewrite Hq, Hph. naive_solver.
      * rewrite Hq, Hph. naive_solver.
    + rewrite (Hqne j Hne), <- Hq.
      destruct Hres as [cached Hget|Hget|Hadm|r Hr|Hr|r]; simpl; try done.
      * rewrite elem_of_app, list_elem_of_singleton. naive_solver.
      * unfold canStart in Hadm. apply andb_prop in Hadm as [Hhd _].
        apply bool_decide_eq_true in Hhd.
        destruct (queue (limiter σ)) as [|q0 q]; simplify_eq/=.
        rewrite elem_of_cons. naive_solver.
  - intros k h Hk. apply Hmono. by apply Hkept.
  - intros k h Hk.
    destruct Hres as [cached Hget|Hget|Hadm|r Hr|Hr|r]; try by apply Hvals.
    simpl in Hcall. destruct Hcall as (_ & Hs0 & Hr).
    destruct (decide (k = cacheKey (uri photo) w)) as [->|Hne].
    * rewrite lookup_insert_eq in Hk. simplify_eq.
      rewrite settledHandle_key by done. done.
    * rewrite lookup_insert_ne in Hk by done. by apply Hvals.
  - intros k Hk.
    destruct Hres as [cached Hget|Hget|Hadm|r Hr|Hr|r]; try by apply Hframe.
    rewrite lookup_insert_ne; [by apply Hframe|].
    intros <-. eapply Hk; [|done]. by eapply list_elem_of_lookup_2.
  - assert (Hold : ∀ k, store σ !! k ≠ s0 !! k →
              ∃ j photo' e, batch !! j = Some photo'
                            ∧ k = cacheKey (uri photo') w
                            ∧ phases σ' !! j = Some (Resolved e)).
    { intros k Hk.
      destruct (Hwritten k Hk) as (j & photo' & e & Hb & -> & Hpj).
      exists j, photo', e. split_and!; [done..|].
      rewrite Hphs, list_lookup_insert_ne; [done|].
      intros ->. rewrite Hph in Hpj. simplify_eq. inversion Hres. }
    intros k Hk.
    destruct Hres as [cached Hget|Hget|Hadm|r Hr|Hr|r]; try by apply Hold.
    destruct (decide (k = cacheKey (uri photo) w)) as [->|Hne].
    + exists i, photo, (entryOf (cacheKey (uri photo) w) r). done.
    + rewrite lookup_insert_ne in Hk by done. by apply Hold.
  - intros j photo' phj Hb Hp.
    destruct (decide (j = i)) as [->|Hne]; [|by apply Hcalls'].
    rewrite Hpi in Hp. simplify_eq. rewrite Hevi.
    destruct Hres as [cached Hget|Hget|Hadm|r Hr|Hr|r]; simpl in *.
    + apply getPhotoFromCache_Some in Hget as [Hs He].
      rewrite Hcall. simpl. auto.
    + apply getPhotoFromCache_None in Hget. rewrite Hcall. simpl.
      split; [done|].
      destruct (s0 !! cacheKey (uri photo) w) as [h|] eqn:Hs0; [|done].
      apply Hkept in Hs0. congruence.
    + destruct Hcall as [-> Hs0]. done.
    + destruct Hcall as [-> Hs0]. done.
    + destruct Hcall as [-> Hs0]. done.
    + destruct Hcall as (-> & Hs0 & Hr). simpl.
      rewrite lookup_insert_eq. split_and!; [done|done|].
      right. done.
  - intros j ev Hin. rewrite Htr in Hin.
    apply elem_of_app in Hin as [Hin|Hin]; [by eapply Htrace|].
    apply list_elem_of_fmap in Hin as (ev' & [= -> ->] & _).
    by rewrite <- Hlen.
Qed.

Lemma run_consistent (s0 : Store) d batch w sched (σ : @World Measure _ _) :
  Consistent s0 d batch w σ →
  Consistent s0 d batch w (run d batch w sched σ).
Proof.
  revert σ. induction sched as [|i sched IH]; intros σ Hc; [done|].
  simpl. apply IH.
  destruct (step d batch w i σ) as [σ'|] eqn:Hstep; [|done].
  by eapply step_consistent.
Qed.

Lemma batch_consistent (s0 : Store) d batch w sched :
  Consistent s0 d batch w (run d batch w sched (spawn s0 batch)).
Proof. apply run_consistent, spawn_consistent. Qed.

End Batch.

Section LimiterBound.
Context {Measure : Type} `{Countable Measure}.

Local Abbreviation Store := (gmap (string * Measure) string).

Implicit Types (d : @Device Measure) (batch : list MediaLibraryPhoto)
  (w : Measure) (i : nat) (σ : @World Measure _ _).

(** The limiter counts the renders in flight and keeps them within its
    maximum, along every resumption, for whatever item. *)
Lemma step_limiter d batch w i σ σ' :
  step d batch w i σ = Some σ' →
  concurrency (limiter σ) = CACHE_CALCULATION_PARALLELISM_LIMIT
  ∧ activeCount (limiter σ) = inFlight σ
  ∧ inFlight σ ≤ CACHE_CALCULATION_PARALLELISM_LIMIT →
  concurrency (limiter σ') = CACHE_CALCULATION_PARALLELISM_LIMIT
  ∧ activeCount (limiter σ') = inFlight σ'
  ∧ inFlight σ' ≤ CACHE_CALCULATION_PARALLELISM_LIMIT.
Proof.
  intros Hstep (Hconc & Hact & Hbound).
  destruct (step_resumption _ _ _ _ _ _ Hstep)
    as (photo & ph & ph' & evs & Hphoto & Hph & Hres & Hphs & Htr).
  assert (Hfl : inFlight σ' + (if isRendering ph then 1 else 0)
                = inFlight σ + (if isRendering ph' then 1 else 0)).
  { destruct σ' as [s' l' phs' tr']. simpl in *. subst phs'.
    by apply inFlight_insert. }
  destruct Hres as [cached Hget|Hget|Hadm|r Hr|Hr|r]; simpl in *;
    try (split_and!; [done|lia|lia]).
  unfold canStart in Hadm. apply andb_prop in Hadm as [_ Hlt].
  apply bool_decide_eq_true in Hlt. split_and!; [done|lia|lia].
Qed.

Lemma reachable_limiter d σ :
  Reachable d σ →
  concurrency (limiter σ) = CACHE_CALCULATION_PARALLELISM_LIMIT
  ∧ activeCount (limiter σ) = inFlight σ
  ∧ inFlight σ ≤ CACHE_CALCULATION_PARALLELISM_LIMIT.
Proof.
  induction 1 as [s|σ n _ IH|σ s _ IH|σ batch w i σ' _ IH Hstep].
  - split_and!; [done|done|]. unfold inFlight. simpl. lia.
  - assert (Hsame : inFlight {| store := store σ; limiter := limiter σ;
                                phases := phases σ ++ replicate n AwaitLookup;
                                trace := trace σ |} = inFlight σ).
    { unfold inFlight. simpl. rewrite list.filter_app, length_app.
      replace (filter (λ ph, isRendering ph = true)
                 (replicate n (@AwaitLookup Measure))) with (@nil (@Phase Measure));
        [simpl; lia|].
      induction n as [|n IHn]; [done|]. simpl.
      by rewrite filter_cons_False. }
    rewrite Hsame. exact IH.
  - exact IH.
  - by eapply step_limiter.
Qed.

Lemma run_reachable d batch w sched σ :
  Reachable d σ → Reachable d (run d batch w sched σ).
Proof.
  revert σ. induction sched as [|i sched IH]; intros σ Hr; [done|].
  simpl. apply IH.
  destruct (step d batch w i σ) as [σ'|] eqn:Hstep; [|done].
  by eapply ReachStep.
Qed.

Lemma batch_reachable (s0 : Store) d batch w sched :
  Reachable d (run d batch w sched (spawn s0 batch)).
Proof.
  apply run_reachable.
  apply (ReachSpawn d {| store := s0; limiter := cacheCalculationLimiter;
                         phases := []; trace := [] |} (length batch)).
  apply ReachIdle.
Qed.

End LimiterBound.

Lemma sum_list_fmap_insert {A} (f : A → nat) (l : list A) (i : nat) (x y : A) :
  l !! i = Some x →
  sum_list (f <$> <[i:=y]> l) + f x = sum_list (f <$> l) + f y.
Proof.
  revert i. induction l as [|a l IH]; intros [|i] Hi; simplify_eq/=.
  - lia.
  - specialize (IH i Hi). lia.
Qed.

Section Settling.
Context {Measure : Type} `{Countable Measure}.

Local Abbreviation CacheKey := (string * Measure)%type.
Local Abbreviation Store := (gmap (string * Measure) string).

Implicit Types (d : @Device Measure) (batch : list MediaLibraryPhoto)
  (w : Measure) (photo : MediaLibraryPhoto) (i j : nat).

(** *** The limiter bound *)

Lemma consistent_inFlight (s0 : Store) d batch w (σ : @World Measure _ _) :
  Consistent s0 d batch w σ →
  inFlight σ ≤ CACHE_CALCULATION_PARALLELISM_LIMIT.
Proof.
  intros Hc. rewrite <- (cons_active _ _ _ _ _ Hc),
    <- (cons_concurrency _ _ _ _ _ Hc). apply (cons_bound _ _ _ _ _ Hc).
Qed.

Lemma full_limiter_blocks (s0 : Store) d batch w i (σ : @World Measure _ _) :
  Consistent s0 d batch w σ →
  phases σ !! i = Some AwaitSlot →
  inFlight σ = CACHE_CALCULATION_PARALLELISM_LIMIT →
  step d batch w i σ = None.
Proof.
  intros Hc Hph Hfull. unfold step.
  destruct (batch !! i) as [photo|]; [|done]. rewrite Hph. simpl.
  unfold canStart.
  rewrite (bool_decide_eq_false_2 (activeCount (limiter σ) < _)).
  - by rewrite andb_false_r.
  - rewrite (cons_active _ _ _ _ _ Hc), (cons_concurrency _ _ _ _ _ Hc). lia.
Qed.

(** *** Progress *)

Lemma inFlight_pos_rendering (σ : @World Measure _ _) :
  0 < inFlight σ → ∃ i, phases σ !! i = Some Rendering.
Proof.
  unfold inFlight. intros Hpos.
  destruct (filter _ (phases σ)) as [|ph l] eqn:Hf; [simpl in Hpos; lia|].
  assert (Hin : ph ∈ filter (λ ph, isRendering ph = true) (phases σ)).
  { rewrite Hf. left. }
  apply list_elem_of_filter in Hin as [Hr Hin].
  apply list_elem_of_lookup_1 in Hin as [i Hi]. exists i.
  destruct ph; simplify_eq/=. done.
Qed.

Lemma allSettled_false (σ : @World Measure _ _) :
  allSettled σ = false →
  ∃ i ph, phases σ !! i = Some ph ∧ isSettled ph = false.
Proof.
  unfold allSettled. intros Hf.
  induction (phases σ) as [|ph l IH]; [done|]. simpl in Hf.
  destruct (isSettled ph) eqn:Hs.
  - destruct (IH Hf) as (i & ph' & Hi & Hs'). by exists (S i), ph'.
  - by exists 0, ph.
Qed.

Lemma allSettled_true (σ : @World Measure _ _) i ph :
  allSettled σ = true → phases σ !! i = Some ph → isSettled ph = true.
Proof.
  unfold allSettled. rewrite forallb_forall. intros Hall Hi.
  apply Hall, list_elem_of_In. by eapply list_elem_of_lookup_2.
Qed.

(** As long as a call is unsettled, some call can be resumed: a rejected
    call, a full limiter or a long queue never stops the others. *)
Lemma progress (s0 : Store) d batch w (σ : @World Measure _ _) :
  Consistent s0 d batch w σ →
  allSettled σ = false →
  ∃ i σ', step d batch w i σ = Some σ'.
Proof.
  intros Hc Hf.
  assert (Hphoto : ∀ i ph, phases σ !! i = Some ph →
                           ∃ photo, batch !! i = Some photo).
  { intros i ph Hi. apply lookup_lt_is_Some.
    rewrite <- (cons_length _ _ _ _ _ Hc). by eapply lookup_lt_Some. }
  assert (Hrend : ∀ i, phases σ !! i = Some Rendering →
                       ∃ i σ', step d batch w i σ = Some σ').
  { intros i Hi. destruct (Hphoto _ _ Hi) as [photo Hp]. exists i.
    destruct (render d (uri photo) (getPixelSizeForLayoutSize d w))
      as [r|] eqn:Hr; eexists; eapply resumption_step; eauto;
      by constructor. }
  destruct (allSettled_false _ Hf) as (i & ph & Hi & Hs).
  destruct (Hphoto _ _ Hi) as [photo Hp].
  destruct ph as [| | |r|e|]; try done.
  - exists i.
    destruct (getPhotoFromCache (store σ) (cacheKey (uri photo) w))
      as [cached|] eqn:Hget; eexists; eapply resumption_step; eauto;
      by constructor.
  - apply (cons_queue _ _ _ _ _ Hc) in Hi.
    destruct (queue (limiter σ)) as [|q0 q] eqn:Hq;
      [by apply elem_of_nil in Hi|].
    destruct (decide (activeCount (limiter σ) < concurrency (limiter σ)))
      as [Hlt|Hge].
    + assert (Hq0 : phases σ !! q0 = Some AwaitSlot).
      { apply (cons_queue _ _ _ _ _ Hc). rewrite Hq. left. }
      destruct (Hphoto _ _ Hq0) as [photo0 Hp0]. exists q0.
      eexists. eapply resumption_step; eauto. constructor.
      unfold canStart. rewrite Hq. simpl.
      rewrite !bool_decide_eq_true_2; done.
    + destruct (inFlight_pos_rendering σ) as [r Hr]; [|by eapply Hrend].
      rewrite <- (cons_active _ _ _ _ _ Hc).
      pose proof (cons_concurrency _ _ _ _ _ Hc) as Hconc.
      unfold CACHE_CALCULATION_PARALLELISM_LIMIT in Hconc. lia.
  - by eapply Hrend.
  - exists i. eexists. eapply resumption_step; eauto. constructor.
Qed.

Lemma resumption_remaining d w photo i (s s' : Store) l l' ph ph' evs :
  Resumption d w photo i s l ph ph' evs s' l' →
  remaining ph' < remaining ph.
Proof. destruct 1; simpl; lia. Qed.

Lemma step_workLeft d batch w i (σ σ' : @World Measure _ _) :
  step d batch w i σ = Some σ' → workLeft σ' < workLeft σ.
Proof.
  intros Hstep.
  destruct (step_resumption _ _ _ _ _ _ Hstep)
    as (photo & ph & ph' & evs & Hphoto & Hph & Hres & Hphs & Htr).
  apply resumption_remaining in Hres. unfold workLeft. rewrite Hphs.
  pose proof (sum_list_fmap_insert remaining (phases σ) i ph ph' Hph). lia.
Qed.

Lemma workLeft_bound (σ : @World Measure _ _) :
  workLeft σ ≤ 4 * length (phases σ).
Proof.
  unfold workLeft. induction (phases σ) as [|ph l IH]; [simpl; lia|].
  change (remaining ph + sum_list (remaining <$> l) ≤ 4 * S (length l)).
  destruct ph; simpl remaining; lia.
Qed.

(** Every consistent batch can be run until all its calls have settled. *)
Lemma settles (s0 : Store) d batch w (σ : @World Measure _ _) :
  Consistent s0 d batch w σ →
  ∃ sched, allSettled (run d batch w sched σ) = true.
Proof.
  remember (workLeft σ) as n eqn:Hn. revert σ Hn.
  induction (lt_wf n) as [n _ IH]. intros σ -> Hc.
  destruct (allSettled σ) eqn:Hall; [by exists []|].
  destruct (progress _ _ _ _ _ Hc Hall) as (i & σ' & Hstep).
  destruct (IH (workLeft σ') (step_workLeft _ _ _ _ _ _ Hstep) σ' eq_refl)
    as [sched Hsched]; [by eapply step_consistent|].
  exists (i :: sched). simpl. by rewrite Hstep.
Qed.

(** *** What a settled batch holds *)

Lemma resolved_expected (s0 : Store) d batch w (σ : @World Measure _ _)
    i photo e :
  Consistent s0 d batch w σ →
  batch !! i = Some photo → phases σ !! i = Some (Resolved e) →
  expectedEntry s0 d w photo = Some e
  ∧ store σ !! cacheKey (uri photo) w = Some (cachedPhotoUri e).
Proof.
  intros Hc Hp Hi.
  pose proof (cons_calls _ _ _ _ _ Hc i photo _ Hp Hi) as Hcall.
  simpl in Hcall. destruct Hcall as (Hs & He & _). split; [|done].
  unfold expectedEntry. rewrite (cons_values _ _ _ _ _ Hc _ _ Hs).
  simpl. by rewrite <- He.
Qed.

Lemma rejected_expected (s0 : Store) d batch w (σ : @World Measure _ _)
    i photo :
  Consistent s0 d batch w σ →
  batch !! i = Some photo → phases σ !! i = Some Rejected →
  expectedEntry s0 d w photo = None.
Proof.
  intros Hc Hp Hi.
  pose proof (cons_calls _ _ _ _ _ Hc i photo _ Hp Hi) as Hcall.
  simpl in Hcall. destruct Hcall as (_ & Hs0 & Hr).
  unfold expectedEntry. rewrite settledHandle_key by done. by rewrite Hr.
Qed.

(** A key whose render fails never gets an entry. *)
Lemma failed_key_absent (s0 : Store) d batch w (σ : @World Measure _ _) photo :
  Consistent s0 d batch w σ →
  expectedEntry s0 d w photo = None →
  store σ !! cacheKey (uri photo) w = None.
Proof.
  intros Hc He. destruct (store σ !! _) as [h|] eqn:Hs; [|done].
  apply (cons_values _ _ _ _ _ Hc) in Hs.
  unfold expectedEntry in He. by rewrite Hs in He.
Qed.

Lemma promiseAll_Fulfilled (phs : list (@Phase Measure)) vs :
  promiseAll phs = Fulfilled vs ↔ phs = Resolved <$> vs.
Proof.
  unfold promiseAll. split.
  - destruct (existsb isRejected phs); [done|].
    destruct (mapM resolvedValue phs) as [vs'|] eqn:Hm; [|done].
    intros [= ->]. apply mapM_Some in Hm.
    induction Hm as [|ph v phs' vs' Hv Hm IH]; [done|].
    destruct ph; simplify_eq/=. by f_equal.
  - intros ->. replace (existsb isRejected (Resolved <$> vs)) with false.
    + replace (mapM resolvedValue (Resolved <$> vs)) with (Some vs); [done|].
      symmetry. apply mapM_Some. induction vs; constructor; done.
    + induction vs; simpl; done.
Qed.

Lemma promiseAll_rejected (phs : list (@Phase Measure)) i :
  phs !! i = Some Rejected → promiseAll phs = RejectedP.
Proof.
  intros Hi. unfold promiseAll.
  replace (existsb isRejected phs) with true; [done|].
  symmetry. apply existsb_exists. exists Rejected. split; [|done].
  apply list_elem_of_In. by eapply list_elem_of_lookup_2.
Qed.

Lemma promiseAll_settled (phs : list (@Phase Measure)) :
  forallb isSettled phs = true →
  promiseAll phs = RejectedP
  ∨ ∃ vs, promiseAll phs = Fulfilled vs.
Proof.
  intros Hall. unfold promiseAll.
  destruct (existsb isRejected phs) eqn:Hex; [by left|]. right.
  induction phs as [|ph phs IH]; [by exists []|].
  simpl in *. apply andb_prop in Hall as [Hs Hall].
  apply orb_false_elim in Hex as [Hr Hex].
  destruct (IH Hall Hex) as [vs Hvs].
  destruct ph; simplify_eq/=. 
  destruct (mapM resolvedValue phs); simplify_eq/=. eauto.
Qed.

(** The value of a fulfilled [Promise.all] does not depend on the
    schedule: it is the expected entry of each item, in item order. *)
Lemma fulfilled_expected (s0 : Store) d batch w (σ : @World Measure _ _) vs :
  Consistent s0 d batch w σ →
  promiseAll (phases σ) = Fulfilled vs →
  mapM (expectedEntry s0 d w) batch = Some vs.
Proof.
  intros Hc Hall. apply promiseAll_Fulfilled in Hall.
  apply mapM_Some. apply Forall2_same_length_lookup. split.
  - rewrite <- (cons_length _ _ _ _ _ Hc), Hall. by rewrite length_fmap.
  - intros i photo v Hp Hv.
    eapply (resolved_expected s0 d batch w σ i photo v); [done..|].
    rewrite Hall, list_lookup_fmap, Hv. done.
Qed.

Lemma failing_item_not_fulfilled (s0 : Store) d batch w
    (σ : @World Measure _ _) i photo vs :
  Consistent s0 d batch w σ →
  batch !! i = Some photo → expectedEntry s0 d w photo = None →
  promiseAll (phases σ) ≠ Fulfilled vs.
Proof.
  intros Hc Hp He Hall.
  apply (fulfilled_expected _ _ _ _ _ _ Hc) in Hall.
  apply mapM_Some in Hall.
  destruct (Forall2_lookup_l _ _ _ _ _ Hall Hp) as (v & _ & Hv). congruence.
Qed.

Lemma settledHandle_None (s0 : Store) d (k : CacheKey) :
  settledHandle s0 d k = None → s0 !! k = None.
Proof. unfold settledHandle. by destruct (s0 !! k). Qed.

Lemma settle_lookup (s0 : Store) d w batch (k : CacheKey) :
  settle s0 d w batch !! k
  = if decide (k ∈ (λ photo, cacheKey (uri photo) w) <$> batch)
    then settledHandle s0 d k else s0 !! k.
Proof.
  induction batch as [|photo batch IH]; [done|].
  rewrite fmap_cons.
  change (settle s0 d w (photo :: batch))
    with (match settledHandle s0 d (cacheKey (uri photo) w) with
          | Some handle =>
              <[cacheKey (uri photo) w := handle]> (settle s0 d w batch)
          | None => settle s0 d w batch
          end).
  destruct (settledHandle s0 d (cacheKey (uri photo) w)) as [h|] eqn:Hh.
  - destruct (decide (k = cacheKey (uri photo) w)) as [->|Hne].
    + rewrite lookup_insert_eq, decide_True by left. done.
    + rewrite lookup_insert_ne, IH by done.
      repeat case_decide; try done; set_solver.
  - rewrite IH.
    destruct (decide (k = cacheKey (uri photo) w)) as [->|Hne].
    + rewrite (decide_True (P := _ ∈ _ :: _)) by left.
      case_decide; [done|]. rewrite Hh. by eapply settledHandle_None.
    + repeat case_decide; try done; set_solver.
Qed.

(** The store of a settled batch does not depend on the schedule. *)
Lemma settled_store (s0 : Store) d batch w (σ : @World Measure _ _) :
  Consistent s0 d batch w σ →
  allSettled σ = true →
  store σ = settle s0 d w batch.
Proof.
  intros Hc Hall. apply map_eq. intros k. rewrite settle_lookup.
  case_decide as Hin.
  - apply list_elem_of_fmap in Hin as (photo & -> & Hin).
    apply list_elem_of_lookup_1 in Hin as [i Hp].
    destruct (lookup_lt_is_Some_2 (phases σ) i) as [ph Hi].
    { rewrite (cons_length _ _ _ _ _ Hc). by eapply lookup_lt_Some. }
    pose proof (allSettled_true _ _ _ Hall Hi) as Hs.
    destruct ph as [| | |r|e|]; try done.
    + destruct (resolved_expected _ _ _ _ _ _ _ _ Hc Hp Hi) as [He Hst].
      rewrite Hst. unfold expectedEntry in He.
      destruct (settledHandle s0 d _) as [h|]; simplify_eq/=. done.
    + pose proof (rejected_expected _ _ _ _ _ _ _ Hc Hp Hi) as He.
      rewrite (failed_key_absent _ _ _ _ _ _ Hc He).
      unfold expectedEntry in He.
      by destruct (settledHandle s0 d _).
  - apply (cons_frame _ _ _ _ _ Hc). intros photo Hp ->.
    apply Hin, list_elem_of_fmap. eauto.
Qed.

(** A fulfilled batch leaves the limiter idle, as the next batch finds
    it. *)
Lemma fulfilled_limiter_idle (s0 : Store) d batch w (σ : @World Measure _ _) :
  Consistent s0 d batch w σ →
  allSettled σ = true →
  limiter σ = cacheCalculationLimiter.
Proof.
  intros Hc Hall.
  assert (Hq : queue (limiter σ) = []).
  { destruct (queue (limiter σ)) as [|q0 q] eqn:Hq; [done|].
    assert (Hq0 : phases σ !! q0 = Some AwaitSlot).
    { apply (cons_queue _ _ _ _ _ Hc). rewrite Hq. left. }
    by apply (allSettled_true _ _ _ Hall) in Hq0. }
  assert (Ha : activeCount (limiter σ) = 0).
  { rewrite (cons_active _ _ _ _ _ Hc).
    destruct (decide (0 < inFlight σ)) as [Hpos|]; [|lia].
    apply inFlight_pos_rendering in Hpos as [i Hi].
    by apply (allSettled_true _ _ _ Hall) in Hi. }
  pose proof (cons_concurrency _ _ _ _ _ Hc) as Hconc.
  destruct (limiter σ). simpl in *. unfold cacheCalculationLimiter, pLimit.
  by subst.
Qed.

End Settling.

Section Calls.
Context {Measure : Type} `{Countable Measure}.

Local Abbreviation CacheKey := (string * Measure)%type.
Local Abbreviation Store := (gmap (string * Measure) string).

Implicit Types (d : @Device Measure) (batch : list MediaLibraryPhoto)
  (w : Measure) (photo : MediaLibraryPhoto) (i j : nat).

Lemma trace_eventsOf i (ev : @Event Measure) (tr : list (nat * Event)) :
  (i, ev) ∈ tr ↔ ev ∈ eventsOf i tr.
Proof.
  unfold eventsOf. rewrite list_elem_of_fmap. split.
  - intros Hin. exists (i, ev). split; [done|].
    by apply list_elem_of_filter.
  - intros ([j ev'] & -> & [Hj Hin]%list_elem_of_filter).
    simpl in *. by subst.
Qed.

(** Every call of a batch has a phase, and the phase tells its history. *)
Lemma call_history (s0 : Store) d batch w (σ : @World Measure _ _) i photo :
  Consistent s0 d batch w σ →
  batch !! i = Some photo →
  ∃ ph, phases σ !! i = Some ph
        ∧ callOk s0 d w (store σ) photo ph (eventsOf i (trace σ)).
Proof.
  intros Hc Hp.
  destruct (lookup_lt_is_Some_2 (phases σ) i) as [ph Hi].
  { rewrite (cons_length _ _ _ _ _ Hc). by eapply lookup_lt_Some. }
  exists ph. split; [done|]. by apply (cons_calls _ _ _ _ _ Hc).
Qed.

(** The shapes a history can have. *)
Lemma callOk_shapes (s0 s : Store) d w photo ph evs :
  callOk s0 d w s photo ph evs →
  let k := cacheKey (uri photo) w in
  let miss := missPrefix d w photo in
  evs = []
  ∨ (evs = [EvLookup k true] ∧ ∃ e, ph = Resolved e)
  ∨ (s0 !! k = None
     ∧ (evs = [EvLookup k false]
        ∨ evs = miss
        ∨ (evs = miss ++ [EvRelease] ∧ ∀ e, ph ≠ Resolved e)
        ∨ ∃ e, ph = Resolved e
               ∧ evs = miss ++ [EvRelease; EvWrite k (cachedPhotoUri e)])).
Proof.
  destruct ph as [| | |r|e|]; simpl; naive_solver.
Qed.

Lemma callOk_events (s0 s : Store) d w photo ph evs ev :
  callOk s0 d w s photo ph evs → ev ∈ evs →
  (∀ k, eventKey ev = Some k → k = cacheKey (uri photo) w)
  ∧ (∀ u px, ev = EvRender u px →
       u = uri photo ∧ px = getPixelSizeForLayoutSize d w).
Proof.
  intros Hok Hin. apply callOk_shapes in Hok. unfold missPrefix in Hok.
  destruct Hok as [->|[[-> _]|[_ [->|[->|[[-> _]|(e & _ & ->)]]]]]];
    simpl in Hin; set_unfold; destruct_or?; simplify_eq/=;
    split; intros; simplify_eq/=; done.
Qed.


End Calls.

Section Pass.
Context {Measure : Type} `{Countable Measure}.

Local Abbreviation CacheKey := (string * Measure)%type.
Local Abbreviation Store := (gmap (string * Measure) string).

Implicit Types (d : @Device Measure) (batch photos : list MediaLibraryPhoto)
  (w : Measure) (photo : MediaLibraryPhoto) (i j m n : nat).

(** *** Settling composes *)

Lemma settledHandle_settle (s0 : Store) d w batch (k : CacheKey) :
  settledHandle (settle s0 d w batch) d k = settledHandle s0 d k.
Proof.
  unfold settledHandle at 1. rewrite settle_lookup.
  case_decide; [|done]. unfold settledHandle.
  destruct (s0 !! k); [done|]. by destruct (render d _ _).
Qed.

Lemma expectedEntry_settle (s0 : Store) d w batch photo :
  expectedEntry (settle s0 d w batch) d w photo = expectedEntry s0 d w photo.
Proof. unfold expectedEntry. by rewrite settledHandle_settle. Qed.

Lemma settle_app (s0 : Store) d w batch1 batch2 :
  settle (settle s0 d w batch1) d w batch2 = settle s0 d w (batch1 ++ batch2).
Proof.
  apply map_eq. intros k.
  rewrite !settle_lookup, settledHandle_settle, fmap_app.
  repeat case_decide; try done; set_solver.
Qed.

Lemma mapM_expected_settle (s0 : Store) d w batch photos :
  mapM (expectedEntry (settle s0 d w batch) d w) photos
  = mapM (expectedEntry s0 d w) photos.
Proof.
  induction photos as [|photo photos IH]; [done|].
  simpl. by rewrite expectedEntry_settle, IH.
Qed.

Lemma mapM_app_Some {A B} (f : A → option B) (l1 l2 : list A) k1 k2 :
  mapM f l1 = Some k1 → mapM f l2 = Some k2 →
  mapM f (l1 ++ l2) = Some (k1 ++ k2).
Proof.
  rewrite !mapM_Some. apply Forall2_app.
Qed.

(** *** One batch of the loop *)

Lemma fulfilled_batch (s : Store) d batch w sched vs :
  let σ := run d batch w sched (spawn s batch) in
  promiseAll (phases σ) = Fulfilled vs →
  mapM (expectedEntry s d w) batch = Some vs
  ∧ store σ = settle s d w batch
  ∧ length vs = length batch.
Proof.
  intros σ Hall.
  pose proof (batch_consistent s d batch w sched) as Hc. fold σ in Hc.
  pose proof (fulfilled_expected _ _ _ _ _ _ Hc Hall) as Hm.
  split_and!; [done| |].
  - apply (settled_store _ _ _ _ _ Hc).
    apply promiseAll_Fulfilled in Hall. unfold allSettled. rewrite Hall.
    clear. induction vs; simpl; done.
  - symmetry. by eapply length_mapM.
Qed.

(** *** The loop, by cases *)

Lemma loop_cases d photos w
    (P : nat → @PassState Measure _ _ → PassOutcome → PassState → Prop) :
  (∀ m st, length photos ≤ m → P m st PassReturned st) →
  (∀ m st sched vs out st',
     m < length photos →
     let batch := slice photos m (m + PROCESSING_BATCH_SIZE_LIMIT) in
     let σ := run d batch w sched (spawn (ps_store st) batch) in
     promiseAll (phases σ) = Fulfilled vs →
     P (m + length batch)
       {| ps_store := store σ;
          ps_state := publish photos vs (ps_state st);
          ps_updates := S (ps_updates st);
          ps_trace := ps_trace st ++
            ((λ ie : nat * Event, (m + ie.1, ie.2)) <$> trace σ) |}
       out st' →
     P m st out st') →
  (∀ m st sched out,
     m < length photos →
     let batch := slice photos m (m + PROCESSING_BATCH_SIZE_LIMIT) in
     let σ := run d batch w sched (spawn (ps_store st) batch) in
     (promiseAll (phases σ) = RejectedP ∧ out = PassThrew)
     ∨ (promiseAll (phases σ) = PendingP ∧ out = PassPending) →
     P m st out
       {| ps_store := store σ;
          ps_state := ps_state st;
          ps_updates := ps_updates st;
          ps_trace := ps_trace st ++
            ((λ ie : nat * Event, (m + ie.1, ie.2)) <$> trace σ) |}) →
  ∀ fuel scheds m st out st',
    calculateCachedPhotos_loop fuel d photos w scheds m st = Some (out, st') →
    P m st out st'.
Proof.
  intros Hret Hful Hstop fuel.
  induction fuel as [|fuel IH]; intros scheds m st out st' Hloop; [done|].
  simpl in Hloop. case_bool_decide as Hm.
  - destruct (promiseAll _) as [vs| |] eqn:Hall.
    + eapply Hful; [done|exact Hall|]. eapply IH. exact Hloop.
    + simplify_eq. eapply Hstop; [done|]. left. done.
    + simplify_eq. eapply Hstop; [done|]. right. done.
  - simplify_eq. apply Hret. lia.
Qed.

Lemma loop_total d photos w fuel scheds m (st : @PassState Measure _ _) :
  length photos - m < fuel →
  is_Some (calculateCachedPhotos_loop fuel d photos w scheds m st).
Proof.
  revert scheds m st. induction fuel as [|fuel IH]; intros scheds m st Hf;
    [lia|].
  simpl. case_bool_decide as Hm; [|by eexists].
  destruct (promiseAll _) as [vs| |] eqn:Hall; [|by eexists..].
  apply IH. rewrite slice_length.
  unfold PROCESSING_BATCH_SIZE_LIMIT. lia.
Qed.

(** [calculateCachedPhotos] always comes to an outcome. *)
Lemma calculateCachedPhotos_total d photos w (scheds : list (list nat))
    (s : Store) (st : @State Measure) :
  is_Some (calculateCachedPhotos d photos w scheds s st).
Proof. apply loop_total. lia. Qed.

(** *** A pass that returns *)

Lemma loop_returned d photos w fuel scheds m (st st' : @PassState Measure _ _) :
  calculateCachedPhotos_loop fuel d photos w scheds m st
  = Some (PassReturned, st') →
  ∃ es,
    mapM (expectedEntry (ps_store st) d w) (drop m photos) = Some es
    ∧ cachedPhotos (ps_state st') = cachedPhotos (ps_state st) ++ es
    ∧ ps_store st' = settle (ps_store st) d w (drop m photos)
    ∧ cachedPhotosLoadingState (ps_state st')
      = if decide (m < length photos)
        then if decide (length (cachedPhotos (ps_state st) ++ es)
                        = length photos)
             then COMPLETED else CALCULATING
        else cachedPhotosLoadingState (ps_state st).
Proof.
  intros Hloop.
  refine (loop_cases d photos w
    (λ m st out st', out = PassReturned →
       ∃ es,
         mapM (expectedEntry (ps_store st) d w) (drop m photos) = Some es
         ∧ cachedPhotos (ps_state st') = cachedPhotos (ps_state st) ++ es
         ∧ ps_store st' = settle (ps_store st) d w (drop m photos)
         ∧ cachedPhotosLoadingState (ps_state st')
           = if decide (m < length photos)
             then if decide (length (cachedPhotos (ps_state st) ++ es)
                             = length photos)
                  then COMPLETED else CALCULATING
             else cachedPhotosLoadingState (ps_state st))
    _ _ _ fuel scheds m st PassReturned st' Hloop eq_refl).
  - clear. intros m st Hm _. exists []. rewrite drop_ge by done.
    rewrite app_nil_r, decide_False by lia. done.
  - clear. intros m st sched vs out st' Hm batch σ Hall IH ->.
    destruct (IH eq_refl) as (es & Hes & Hcp & Hst & Hls). simpl in *.
    destruct (fulfilled_batch _ _ _ _ _ _ Hall) as (Hvs & Hstore & Hlen).
    fold σ in Hstore. rewrite Hstore in Hes, Hst.
    rewrite mapM_expected_settle in Hes. rewrite settle_app in Hst.
    rewrite (slice_drop photos m PROCESSING_BATCH_SIZE_LIMIT). fold batch.
    exists (vs ++ es). split_and!.
    + by apply mapM_app_Some.
    + by rewrite Hcp, app_assoc.
    + done.
    + rewrite Hls, (decide_True (P := m < length photos)) by done.
      rewrite <- app_assoc in Hls |- *.
      case_decide as Hm'; [done|].
      assert (es = []) as ->.
      { rewrite drop_ge in Hes by lia.
        by apply mapM_Some, Forall2_nil_inv_l in Hes. }
      rewrite !app_nil_r. done.
  - clear. intros m st sched out Hm batch σ [[_ ->]|[_ ->]]; done.
Qed.

(** *** A pass over an item whose render fails *)

Lemma loop_failing d photos w fuel scheds m (st st' : @PassState Measure _ _)
    out n photo :
  calculateCachedPhotos_loop fuel d photos w scheds m st = Some (out, st') →
  m ≤ n → photos !! n = Some photo →
  expectedEntry (ps_store st) d w photo = None →
  out ≠ PassReturned
  ∧ ps_store st' !! cacheKey (uri photo) w = None
  ∧ ∃ j, ps_updates st' = ps_updates st + j
         ∧ m + PROCESSING_BATCH_SIZE_LIMIT * j ≤ n
         ∧ length (cachedPhotos (ps_state st'))
           = length (cachedPhotos (ps_state st))
             + PROCESSING_BATCH_SIZE_LIMIT * j
         ∧ (j = 0 → ps_state st' = ps_state st)
         ∧ (0 < j → cachedPhotosLoadingState (ps_state st')
                    = if decide (length (cachedPhotos (ps_state st'))
                                 = length photos)
                      then COMPLETED else CALCULATING).
Proof.
  intros Hloop. revert n photo.
  refine (loop_cases d photos w
    (λ m st out st', ∀ n photo,
       m ≤ n → photos !! n = Some photo →
       expectedEntry (ps_store st) d w photo = None →
       out ≠ PassReturned
       ∧ ps_store st' !! cacheKey (uri photo) w = None
       ∧ ∃ j, ps_updates st' = ps_updates st + j
              ∧ m + PROCESSING_BATCH_SIZE_LIMIT * j ≤ n
              ∧ length (cachedPhotos (ps_state st'))
                = length (cachedPhotos (ps_state st))
                  + PROCESSING_BATCH_SIZE_LIMIT * j
              ∧ (j = 0 → ps_state st' = ps_state st)
              ∧ (0 < j → cachedPhotosLoadingState (ps_state st')
                         = if decide (length (cachedPhotos (ps_state st'))
                                      = length photos)
                           then COMPLETED else CALCULATING))
    _ _ _ fuel scheds m st out st' Hloop).
  - clear. intros m st Hm n photo Hmn Hn _.
    apply lookup_lt_Some in Hn. lia.
  - clear. intros m st sched vs out st' Hm batch σ Hall IH n photo Hmn Hn He.
    destruct (fulfilled_batch _ _ _ _ _ _ Hall) as (Hvs & Hstore & Hlen).
    fold σ in Hstore.
    assert (Hn' : m + length batch ≤ n).
    { destruct (decide (m + length batch ≤ n)) as [|Hlt]; [done|].
      exfalso. apply (failing_item_not_fulfilled (ps_store st) d batch w σ
                        (n - m) photo vs); [apply batch_consistent| |done..].
      unfold batch, slice. rewrite lookup_take_lt, lookup_drop.
      - by replace (m + (n - m)) with n by lia.
      - unfold batch in Hlt. rewrite slice_length in Hlt. lia. }
    assert (Hfull : length batch = PROCESSING_BATCH_SIZE_LIMIT).
    { unfold batch. rewrite slice_length.
      apply lookup_lt_Some in Hn. unfold batch in Hn'.
      rewrite slice_length in Hn'. lia. }
    destruct (IH n photo Hn' Hn) as (Hout & Hst & j & Hu & Hj & Hl & Hj0 & Hjp).
    { simpl. by rewrite Hstore, expectedEntry_settle. }
    simpl in *. split_and!; [done..|].
    exists (S j). split_and!.
    + lia.
    + unfold PROCESSING_BATCH_SIZE_LIMIT in *. lia.
    + rewrite Hl, length_app, Hlen, Hfull.
      unfold PROCESSING_BATCH_SIZE_LIMIT. lia.
    + lia.
    + intros _. destruct (decide (j = 0)) as [->|Hpos].
      * by rewrite Hj0.
      * apply Hjp. lia.
  - clear. intros m st sched out Hm batch σ Hout n photo Hmn Hn He. simpl.
    split_and!.
    + by destruct Hout as [[_ ->]|[_ ->]].
    + eapply failed_key_absent; [apply batch_consistent|done].
    + exists 0. split_and!; [lia|lia|lia|done|lia].
Qed.

(** *** Schedules that let a pass return *)

Lemma loop_can_return d photos w fuel m (st : @PassState Measure _ _) :
  length photos - m < fuel →
  (∀ photo, photo ∈ photos → is_Some (expectedEntry (ps_store st) d w photo)) →
  ∃ scheds st',
    calculateCachedPhotos_loop fuel d photos w scheds m st
    = Some (PassReturned, st').
Proof.
  revert m st. induction fuel as [|fuel IH]; intros m st Hf Hex; [lia|].
  destruct (decide (m < length photos)) as [Hm|Hm].
  - set (batch := slice photos m (m + PROCESSING_BATCH_SIZE_LIMIT)).
    destruct (settles (ps_store st) d batch w (spawn (ps_store st) batch))
      as [sched Hsched]; [apply spawn_consistent|].
    pose proof (batch_consistent (ps_store st) d batch w sched) as Hc.
    destruct (promiseAll_settled _ Hsched) as [Hrej|[vs Hvs]].
    + exfalso. unfold promiseAll in Hrej.
      destruct (existsb isRejected _) eqn:Hexb;
        [|by destruct (mapM _ _)].
      apply existsb_exists in Hexb as (ph & Hin & Hr).
      apply list_elem_of_In, list_elem_of_lookup_1 in Hin as [i Hi].
      destruct ph; try done.
      destruct (lookup_lt_is_Some_2 batch i) as [photo Hp].
      { rewrite <- (cons_length _ _ _ _ _ Hc). by eapply lookup_lt_Some. }
      pose proof (rejected_expected _ _ _ _ _ _ _ Hc Hp Hi) as Hnone.
      destruct (Hex photo) as [e He]; [|congruence].
      apply list_elem_of_lookup_2 in Hp. unfold batch, slice in Hp.
      by apply subseteq_take, subseteq_drop in Hp.
    + destruct (fulfilled_batch _ _ _ _ _ _ Hvs) as (_ & Hstore & _).
      destruct (IH (m + length batch)
                  {| ps_store := store (run d batch w sched
                                          (spawn (ps_store st) batch));
                     ps_state := publish photos vs (ps_state st);
                     ps_updates := S (ps_updates st);
                     ps_trace := ps_trace st ++
                       ((λ ie : nat * Event, (m + ie.1, ie.2)) <$>
                          trace (run d batch w sched
                                   (spawn (ps_store st) batch))) |})
        as (scheds & st' & Hloop).
      * unfold batch. rewrite slice_length.
        unfold PROCESSING_BATCH_SIZE_LIMIT. lia.
      * intros photo Hin. simpl. rewrite Hstore, expectedEntry_settle. auto.
      * exists (sched :: scheds), st'. simpl.
        rewrite bool_decide_eq_true_2 by done. fold batch.
        by rewrite Hvs.
  - exists [], st. simpl. by rewrite bool_decide_eq_false_2.
Qed.

End Pass.

Section PassMore.
Context {Measure : Type} `{Countable Measure}.

Local Abbreviation CacheKey := (string * Measure)%type.
Local Abbreviation Store := (gmap (string * Measure) string).

Implicit Types (d : @Device Measure) (batch photos : list MediaLibraryPhoto)
  (w : Measure) (photo : MediaLibraryPhoto) (i j m n : nat).

Lemma slice_lookup {A} (l : list A) (m k i : nat) (x : A) :
  slice l m (m + k) !! i = Some x → l !! (m + i) = Some x.
Proof.
  unfold slice. replace (m + k - m) with k by lia.
  intros Hi. destruct (decide (i < k)) as [Hlt|Hge].
  - by rewrite lookup_take_lt, lookup_drop in Hi.
  - apply lookup_lt_Some in Hi. rewrite length_take in Hi. lia.
Qed.

(** *** What a pass has published when it stops, however it stops *)

Lemma loop_published d photos w fuel scheds m (st st' : @PassState Measure _ _)
    out :
  calculateCachedPhotos_loop fuel d photos w scheds m st = Some (out, st') →
  ∃ j es,
    ps_updates st' = ps_updates st + j
    ∧ cachedPhotos (ps_state st') = cachedPhotos (ps_state st) ++ es
    ∧ mapM (expectedEntry (ps_store st) d w)
           (take (length es) (drop m photos)) = Some es
    ∧ length es = (PROCESSING_BATCH_SIZE_LIMIT * j) `min` (length photos - m)
    ∧ (j = 0 → ps_state st' = ps_state st)
    ∧ (0 < j → cachedPhotosLoadingState (ps_state st')
               = if decide (length (cachedPhotos (ps_state st'))
                            = length photos)
                 then COMPLETED else CALCULATING).
Proof.
  intros Hloop.
  refine (loop_cases d photos w
    (λ m st out st',
       ∃ j es,
         ps_updates st' = ps_updates st + j
         ∧ cachedPhotos (ps_state st') = cachedPhotos (ps_state st) ++ es
         ∧ mapM (expectedEntry (ps_store st) d w)
                (take (length es) (drop m photos)) = Some es
         ∧ length es
           = (PROCESSING_BATCH_SIZE_LIMIT * j) `min` (length photos - m)
         ∧ (j = 0 → ps_state st' = ps_state st)
         ∧ (0 < j → cachedPhotosLoadingState (ps_state st')
                    = if decide (length (cachedPhotos (ps_state st'))
                                 = length photos)
                      then COMPLETED else CALCULATING))
    _ _ _ fuel scheds m st out st' Hloop).
  - intros m' st0 Hm. exists 0, []. rewrite app_nil_r.
    split_and!; [lia|done|done|simpl; lia|done|lia].
  - intros m' st0 sched vs out' st'' Hm batch σ Hall
      (j & es & Hu & Hcp & Hes & Hlen' & Hj0 & Hjp).
    simpl in *.
    destruct (fulfilled_batch _ _ _ _ _ _ Hall) as (Hvs & Hstore & Hlen).
    fold σ in Hstore. rewrite Hstore, mapM_expected_settle in Hes.
    assert (Hb : length batch
                 = PROCESSING_BATCH_SIZE_LIMIT `min` (length photos - m'))
      by apply slice_length.
    exists (S j), (vs ++ es). split_and!.
    + lia.
    + by rewrite Hcp, app_assoc.
    + rewrite (slice_drop photos m' PROCESSING_BATCH_SIZE_LIMIT). fold batch.
      rewrite length_app, Hlen, take_app_add'; [|done].
      by apply mapM_app_Some.
    + rewrite length_app, Hlen, Hlen', Hb.
      unfold PROCESSING_BATCH_SIZE_LIMIT. lia.
    + lia.
    + intros _. destruct (decide (j = 0)) as [->|Hpos].
      * by rewrite Hj0.
      * apply Hjp. lia.
  - intros m' st0 sched out' Hm batch σ _. exists 0, []. simpl.
    rewrite app_nil_r. split_and!; [lia|done|done|lia|done|lia].
Qed.

(** *** Which items a pass renders *)

Lemma batch_renders (s0 : Store) d batch w sched i u px :
  (i, EvRender u px) ∈ trace (run d batch w sched (spawn s0 batch)) →
  ∃ photo, batch !! i = Some photo ∧ u = uri photo
           ∧ px = getPixelSizeForLayoutSize d w
           ∧ s0 !! cacheKey (uri photo) w = None.
Proof.
  intros Hin.
  pose proof (batch_consistent s0 d batch w sched) as Hc.
  destruct (lookup_lt_is_Some_2 batch i) as [photo Hp].
  { by eapply (cons_trace _ _ _ _ _ Hc). }
  destruct (call_history _ _ _ _ _ _ _ Hc Hp) as (ph & Hi & Hok).
  apply trace_eventsOf in Hin.
  destruct (callOk_events _ _ _ _ _ _ _ _ Hok Hin) as [_ Hr].
  destruct (Hr u px eq_refl) as [-> ->].
  exists photo. split_and!; [done..|].
  apply callOk_shapes in Hok.
  destruct Hok as [Hev|[[Hev _]|[Hs0 _]]]; [| |done];
    rewrite Hev in Hin; set_unfold; destruct_or?; simplify_eq/=.
Qed.

Lemma loop_renders d photos w fuel scheds m (st st' : @PassState Measure _ _)
    out n u px :
  calculateCachedPhotos_loop fuel d photos w scheds m st = Some (out, st') →
  (n, EvRender u px) ∈ ps_trace st' →
  (n, EvRender u px) ∈ ps_trace st
  ∨ ∃ photo, photos !! n = Some photo ∧ u = uri photo
             ∧ px = getPixelSizeForLayoutSize d w
             ∧ ps_store st !! cacheKey (uri photo) w = None.
Proof.
  intros Hloop. revert n u px.
  assert (Hbatch : ∀ m (st : @PassState Measure _ _) sched n u px,
    (n, EvRender u px) ∈ ps_trace st ++
      ((λ ie : nat * Event, (m + ie.1, ie.2)) <$>
         trace (run d (slice photos m (m + PROCESSING_BATCH_SIZE_LIMIT)) w
                  sched (spawn (ps_store st)
                     (slice photos m (m + PROCESSING_BATCH_SIZE_LIMIT))))) →
    (n, EvRender u px) ∈ ps_trace st
    ∨ ∃ photo, photos !! n = Some photo ∧ u = uri photo
               ∧ px = getPixelSizeForLayoutSize d w
               ∧ ps_store st !! cacheKey (uri photo) w = None).
  { intros m' st0 sched n u px [Hin|Hin]%elem_of_app; [by left|]. right.
    apply list_elem_of_fmap in Hin as ([i ev] & [= -> <-] & Hin).
    simpl. apply batch_renders in Hin as (photo & Hp & -> & -> & Hs0).
    exists photo. split_and!; [|done..]. by eapply slice_lookup. }
  refine (loop_cases d photos w
    (λ m st out st', ∀ n u px,
       (n, EvRender u px) ∈ ps_trace st' →
       (n, EvRender u px) ∈ ps_trace st
       ∨ ∃ photo, photos !! n = Some photo ∧ u = uri photo
                  ∧ px = getPixelSizeForLayoutSize d w
                  ∧ ps_store st !! cacheKey (uri photo) w = None)
    _ _ _ fuel scheds m st out st' Hloop).
  - intros m' st0 Hm n u px Hin. by left.
  - intros m' st0 sched vs out' st'' Hm batch σ Hall IH n u px Hin.
    destruct (IH n u px Hin) as [Hin'|(photo & Hp & -> & -> & Hs0)].
    + simpl in Hin'. by apply Hbatch in Hin'.
    + right. exists photo. split_and!; [done..|]. simpl in Hs0.
      pose proof (batch_consistent (ps_store st0) d batch w sched) as Hc.
      fold σ in Hc.
      destruct (ps_store st0 !! cacheKey (uri photo) w) as [h|] eqn:Hk;
        [|done].
      apply (cons_kept _ _ _ _ _ Hc) in Hk. congruence.
  - intros m' st0 sched out' Hm batch σ _ n u px Hin. simpl in Hin.
    by apply Hbatch in Hin.
Qed.

Lemma expected_keys (s0 : Store) d w photos es :
  mapM (expectedEntry s0 d w) photos = Some es →
  entryKey <$> es = (λ photo, cacheKey (uri photo) w) <$> photos.
Proof.
  rewrite mapM_Some. induction 1 as [|photo e photos es He _ IH]; [done|].
  rewrite !fmap_cons, IH. f_equal.
  unfold expectedEntry in He.
  destruct (settledHandle s0 d _); simplify_eq/=. done.
Qed.

End PassMore.

Section PassFacts.
Context {Measure : Type} `{Countable Measure}.

Local Abbreviation CacheKey := (string * Measure)%type.
Local Abbreviation Store := (gmap (string * Measure) string).

Implicit Types (d : @Device Measure) (batch photos : list MediaLibraryPhoto)
  (w : Measure) (photo : MediaLibraryPhoto) (i j m n : nat)
  (scheds : list (list nat)).

Local Ltac pass_simpl :=
  cbn [ps_state ps_store ps_updates ps_trace] in *.

(** *** Counting the updates of a pass *)

Lemma loop_count d photos w fuel scheds m (st st' : @PassState Measure _ _)
    out :
  calculateCachedPhotos_loop fuel d photos w scheds m st = Some (out, st') →
  ∃ j,
    ps_updates st' = ps_updates st + j
    ∧ length (cachedPhotos (ps_state st'))
      = length (cachedPhotos (ps_state st))
        + (PROCESSING_BATCH_SIZE_LIMIT * j) `min` (length photos - m)
    ∧ (j = 0 ∨ m + PROCESSING_BATCH_SIZE_LIMIT * (j - 1) < length photos)
    ∧ (out = PassReturned →
       length photos ≤ m + PROCESSING_BATCH_SIZE_LIMIT * j)
    ∧ (out ≠ PassReturned →
       m + PROCESSING_BATCH_SIZE_LIMIT * j < length photos).
Proof.
  intros Hloop.
  refine (loop_cases d photos w
    (λ m st out st',
       ∃ j,
         ps_updates st' = ps_updates st + j
         ∧ length (cachedPhotos (ps_state st'))
           = length (cachedPhotos (ps_state st))
             + (PROCESSING_BATCH_SIZE_LIMIT * j) `min` (length photos - m)
         ∧ (j = 0 ∨ m + PROCESSING_BATCH_SIZE_LIMIT * (j - 1) < length photos)
         ∧ (out = PassReturned →
            length photos ≤ m + PROCESSING_BATCH_SIZE_LIMIT * j)
         ∧ (out ≠ PassReturned →
            m + PROCESSING_BATCH_SIZE_LIMIT * j < length photos))
    _ _ _ fuel scheds m st out st' Hloop).
  - intros m' st0 Hm. exists 0.
    unfold PROCESSING_BATCH_SIZE_LIMIT. split_and!; [lia|lia|by left|lia|done].
  - intros m' st0 sched vs out' st'' Hm batch σ Hall
      (j & Hu & Hl & Hj & Hret & Hnret).
    pass_simpl.
    destruct (fulfilled_batch _ _ _ _ _ _ Hall) as (_ & _ & Hlen).
    assert (Hb : length batch
                 = PROCESSING_BATCH_SIZE_LIMIT `min` (length photos - m'))
      by apply slice_length.
    simpl in Hl. rewrite length_app, Hlen in Hl.
    exists (S j). unfold PROCESSING_BATCH_SIZE_LIMIT in *.
    split_and!; [lia|lia|right; lia|intros Ho; specialize (Hret Ho); lia|
                 intros Ho; specialize (Hnret Ho); lia].
  - intros m' st0 sched out' Hm batch σ Hout. exists 0. pass_simpl.
    unfold PROCESSING_BATCH_SIZE_LIMIT.
    split_and!; [lia|lia|by left| |lia].
    by destruct Hout as [[_ ->]|[_ ->]].
Qed.

(** *** What a pass does to the store *)

Lemma loop_store d photos w fuel scheds m (st st' : @PassState Measure _ _)
    out :
  calculateCachedPhotos_loop fuel d photos w scheds m st = Some (out, st') →
  (∀ k h, ps_store st !! k = Some h → ps_store st' !! k = Some h)
  ∧ (∀ k h, ps_store st' !! k = Some h →
            settledHandle (ps_store st) d k = Some h)
  ∧ (∀ k, (∀ photo, photo ∈ photos → k ≠ cacheKey (uri photo) w) →
          ps_store st' !! k = ps_store st !! k).
Proof.
  intros Hloop.
  refine (loop_cases d photos w
    (λ m st out st',
       (∀ k h, ps_store st !! k = Some h → ps_store st' !! k = Some h)
       ∧ (∀ k h, ps_store st' !! k = Some h →
                 settledHandle (ps_store st) d k = Some h)
       ∧ (∀ k, (∀ photo, photo ∈ photos → k ≠ cacheKey (uri photo) w) →
               ps_store st' !! k = ps_store st !! k))
    _ _ _ fuel scheds m st out st' Hloop).
  - intros m' st0 Hm. split_and!; [done| |done].
    intros k h Hk. unfold settledHandle. by rewrite Hk.
  - intros m' st0 sched vs out' st'' Hm batch σ Hall (Hkept & Hvals & Hframe).
    pass_simpl.
    pose proof (batch_consistent (ps_store st0) d batch w sched) as Hc.
    fold σ in Hc.
    destruct (fulfilled_batch _ _ _ _ _ _ Hall) as (_ & Hstore & _).
    fold σ in Hstore.
    split_and!.
    + intros k h Hk. by apply Hkept, (cons_kept _ _ _ _ _ Hc).
    + intros k h Hk. apply Hvals in Hk.
      by rewrite Hstore, settledHandle_settle in Hk.
    + intros k Hk. rewrite (Hframe k Hk).
      apply (cons_frame _ _ _ _ _ Hc). intros photo Hin. apply Hk.
      unfold batch, slice in Hin.
      by apply subseteq_take, subseteq_drop in Hin.
  - intros m' st0 sched out' Hm batch σ _. pass_simpl.
    pose proof (batch_consistent (ps_store st0) d batch w sched) as Hc.
    fold σ in Hc.
    split_and!.
    + apply (cons_kept _ _ _ _ _ Hc).
    + apply (cons_values _ _ _ _ _ Hc).
    + intros k Hk. apply (cons_frame _ _ _ _ _ Hc). intros photo Hin.
      apply Hk. unfold batch, slice in Hin.
      by apply subseteq_take, subseteq_drop in Hin.
Qed.

(** *** When a pass throws *)

Lemma promiseAll_RejectedP (phs : list (@Phase Measure)) :
  promiseAll phs = RejectedP → ∃ i, phs !! i = Some Rejected.
Proof.
  unfold promiseAll. destruct (existsb isRejected phs) eqn:Hex.
  - intros _. apply existsb_exists in Hex as (ph & Hin & Hr).
    apply list_elem_of_In, list_elem_of_lookup_1 in Hin as [i Hi].
    exists i. by destruct ph.
  - by destruct (mapM resolvedValue phs).
Qed.

Lemma loop_thrown d photos w fuel scheds m (st st' : @PassState Measure _ _) :
  calculateCachedPhotos_loop fuel d photos w scheds m st
  = Some (PassThrew, st') →
  ∃ photo, photo ∈ photos ∧ expectedEntry (ps_store st) d w photo = None.
Proof.
  intros Hloop.
  refine (loop_cases d photos w
    (λ m st out st', out = PassThrew →
       ∃ photo, photo ∈ photos
                ∧ expectedEntry (ps_store st) d w photo = None)
    _ _ _ fuel scheds m st PassThrew st' Hloop eq_refl).
  - done.
  - intros m' st0 sched vs out' st'' Hm batch σ Hall IH Hout.
    destruct (IH Hout) as (photo & Hin & He). pass_simpl.
    destruct (fulfilled_batch _ _ _ _ _ _ Hall) as (_ & Hstore & _).
    fold σ in Hstore. rewrite Hstore, expectedEntry_settle in He. eauto.
  - intros m' st0 sched out' Hm batch σ [[Hrej _]|[_ ->]] Hout; [|done].
    pose proof (batch_consistent (ps_store st0) d batch w sched) as Hc.
    fold σ in Hc.
    apply promiseAll_RejectedP in Hrej as [i Hi].
    destruct (lookup_lt_is_Some_2 batch i) as [photo Hp].
    { rewrite <- (cons_length _ _ _ _ _ Hc). by eapply lookup_lt_Some. }
    exists photo. split.
    + apply list_elem_of_lookup_2 in Hp. unfold batch, slice in Hp.
      by apply subseteq_take, subseteq_drop in Hp.
    + by eapply rejected_expected.
Qed.

(** *** The history of one item over a pass *)

Lemma eventsOf_shift m n (tr : list (nat * @Event Measure)) :
  eventsOf n ((λ ie : nat * Event, (m + ie.1, ie.2)) <$> tr)
  = if decide (m ≤ n) then eventsOf (n - m) tr else [].
Proof.
  unfold eventsOf. induction tr as [|[i ev] tr IH].
  - by case_decide.
  - rewrite fmap_cons, !filter_cons. simpl.
    destruct (decide (m + i = n)) as [Heq|Hne].
    + rewrite decide_True by lia. rewrite (decide_True (P := i = n - m)) by lia.
      rewrite fmap_cons, IH, decide_True by lia. done.
    + rewrite IH. case_decide; [|done].
      by rewrite (decide_False (P := i = n - m)) by lia.
Qed.

Lemma eventsOf_none i (tr : list (nat * @Event Measure)) :
  (∀ ev, (i, ev) ∉ tr) → eventsOf i tr = [].
Proof.
  intros Hno. destruct (eventsOf i tr) as [|ev evs] eqn:He; [done|].
  exfalso. apply (Hno ev), trace_eventsOf. rewrite He. left.
Qed.

Lemma callOk_prefix (s0 s : Store) d w photo ph evs :
  callOk s0 d w s photo ph evs →
  evs `prefix_of` [EvLookup (cacheKey (uri photo) w) true]
  ∨ (s0 !! cacheKey (uri photo) w = None
     ∧ evs `prefix_of` missHistory d w photo).
Proof.
  unfold missHistory, missPrefix.
  destruct ph as [| | |r|e|]; simpl.
  - intros ->. left. apply prefix_nil.
  - intros [-> Hs0]. right. split; [done|]. by eexists.
  - intros [-> Hs0]. right. split; [done|]. by eexists.
  - intros (-> & Hs0 & ->). right. split; [done|]. by eexists.
  - intros (Hs & He & [->|(-> & Hs0 & ->)]); [by left|].
    right. split; [done|]. by exists [].
  - intros (-> & Hs0 & ->). right. split; [done|]. by exists [].
Qed.

Lemma loop_items d photos w fuel scheds m (st st' : @PassState Measure _ _)
    out :
  calculateCachedPhotos_loop fuel d photos w scheds m st = Some (out, st') →
  (∀ n, n < m → eventsOf n (ps_trace st') = eventsOf n (ps_trace st))
  ∧ (∀ n, length photos ≤ n →
          eventsOf n (ps_trace st') = eventsOf n (ps_trace st))
  ∧ (∀ n photo, m ≤ n → photos !! n = Some photo →
       eventsOf n (ps_trace st) = [] →
       eventsOf n (ps_trace st')
         `prefix_of` [EvLookup (cacheKey (uri photo) w) true]
       ∨ (ps_store st !! cacheKey (uri photo) w = None
          ∧ eventsOf n (ps_trace st') `prefix_of` missHistory d w photo)).
Proof.
  intros Hloop.
  assert (Hstep : ∀ m (st : @PassState Measure _ _) sched n,
    let batch := slice photos m (m + PROCESSING_BATCH_SIZE_LIMIT) in
    let σ := run d batch w sched (spawn (ps_store st) batch) in
    eventsOf n (ps_trace st ++
                ((λ ie : nat * Event, (m + ie.1, ie.2)) <$> trace σ))
    = eventsOf n (ps_trace st)
      ++ (if decide (m ≤ n ∧ n < m + length batch)
          then eventsOf (n - m) (trace σ) else [])).
  { intros m' st0 sched n batch σ.
    rewrite eventsOf_app, eventsOf_shift. f_equal.
    pose proof (batch_consistent (ps_store st0) d batch w sched) as Hc.
    fold σ in Hc.
    destruct (decide (m' ≤ n)) as [Hle|Hgt].
    - destruct (decide (n < m' + length batch)) as [Hlt|Hge].
      + by rewrite decide_True.
      + rewrite decide_False by lia. apply eventsOf_none.
        intros ev Hin. apply (cons_trace _ _ _ _ _ Hc) in Hin. lia.
    - by rewrite decide_False by lia. }
  assert (Hhist : ∀ m (st : @PassState Measure _ _) sched n photo,
    let batch := slice photos m (m + PROCESSING_BATCH_SIZE_LIMIT) in
    let σ := run d batch w sched (spawn (ps_store st) batch) in
    m ≤ n → n < m + length batch → photos !! n = Some photo →
    eventsOf (n - m) (trace σ)
      `prefix_of` [EvLookup (cacheKey (uri photo) w) true]
    ∨ (ps_store st !! cacheKey (uri photo) w = None
       ∧ eventsOf (n - m) (trace σ) `prefix_of` missHistory d w photo)).
  { intros m' st0 sched n photo batch σ Hle Hlt Hp.
    pose proof (batch_consistent (ps_store st0) d batch w sched) as Hc.
    fold σ in Hc.
    assert (Hb : batch !! (n - m') = Some photo).
    { unfold batch, slice. unfold batch in Hlt. rewrite slice_length in Hlt.
      rewrite lookup_take_lt, lookup_drop by lia.
      by replace (m' + (n - m')) with n by lia. }
    destruct (call_history _ _ _ _ _ _ _ Hc Hb) as (ph & _ & Hok).
    by eapply callOk_prefix. }
  cbv zeta in Hstep, Hhist.
  refine (loop_cases d photos w
    (λ m st out st',
       (∀ n, n < m → eventsOf n (ps_trace st') = eventsOf n (ps_trace st))
       ∧ (∀ n, length photos ≤ n →
               eventsOf n (ps_trace st') = eventsOf n (ps_trace st))
       ∧ (∀ n photo, m ≤ n → photos !! n = Some photo →
            eventsOf n (ps_trace st) = [] →
            eventsOf n (ps_trace st')
              `prefix_of` [EvLookup (cacheKey (uri photo) w) true]
            ∨ (ps_store st !! cacheKey (uri photo) w = None
               ∧ eventsOf n (ps_trace st')
                   `prefix_of` missHistory d w photo)))
    _ _ _ fuel scheds m st out st' Hloop).
  - intros m' st0 Hm. split_and!; [done|done|].
    intros n photo _ _ ->. left. apply prefix_nil.
  - intros m' st0 sched vs out' st'' Hm batch σ Hall (Hold & Hbeyond & Hnew).
    pass_simpl.
    assert (Hb : length batch
                 = PROCESSING_BATCH_SIZE_LIMIT `min` (length photos - m'))
      by apply slice_length.
    pose proof (batch_consistent (ps_store st0) d batch w sched) as Hc.
    fold σ in Hc.
    specialize (Hstep m' st0 sched). specialize (Hhist m' st0 sched).
    fold batch in Hstep, Hhist. fold σ in Hstep, Hhist.
    split_and!.
    + intros n Hn. rewrite Hold by lia. rewrite Hstep.
      rewrite decide_False by lia. by rewrite app_nil_r.
    + intros n Hn. rewrite Hbeyond by done. rewrite Hstep.
      rewrite decide_False by lia. by rewrite app_nil_r.
    + intros n photo Hle Hp Hnil.
      destruct (decide (n < m' + length batch)) as [Hlt|Hge].
      * rewrite Hold by done. rewrite Hstep, Hnil, decide_True by done.
        simpl. by apply Hhist.
      * destruct (Hnew n photo) as [Hhit|[Hnone Hmiss]]; [lia|done| | |].
        { rewrite Hstep, Hnil, decide_False by lia. done. }
        { by left. }
        right. split; [|done].
        destruct (ps_store st0 !! cacheKey (uri photo) w) as [h|] eqn:Hk;
          [|done].
        apply (cons_kept _ _ _ _ _ Hc) in Hk. congruence.
  - intros m' st0 sched out' Hm batch σ _. pass_simpl.
    assert (Hb : length batch
                 = PROCESSING_BATCH_SIZE_LIMIT `min` (length photos - m'))
      by apply slice_length.
    specialize (Hstep m' st0 sched). specialize (Hhist m' st0 sched).
    fold batch in Hstep, Hhist. fold σ in Hstep, Hhist.
    split_and!.
    + intros n Hn. rewrite Hstep.
      rewrite decide_False by lia. by rewrite app_nil_r.
    + intros n Hn. rewrite Hstep.
      rewrite decide_False by lia. by rewrite app_nil_r.
    + intros n photo Hle Hp Hnil. rewrite Hstep, Hnil. simpl.
      case_decide as Hin; [|left; apply prefix_nil].
      apply Hhist; [lia|lia|done].
Qed.

Lemma prefix_elem {A} (l1 l2 : list A) (x : A) :
  l1 `prefix_of` l2 → x ∈ l1 → x ∈ l2.
Proof. intros [k ->] Hin. apply elem_of_app. by left. Qed.

Lemma prefix_take {A} (l1 l2 : list A) :
  l1 `prefix_of` l2 → l1 = take (length l1) l2.
Proof. intros [k ->]. by rewrite take_app_length. Qed.

Lemma prefix_filter_length {A} (f : A → bool) (l1 l2 : list A) :
  l1 `prefix_of` l2 →
  length (List.filter f l1) ≤ length (List.filter f l2).
Proof. intros [k ->]. rewrite List.filter_app, length_app. lia. Qed.

End PassFacts.

Section PassHalts.
Context {Measure : Type} `{Countable Measure}.

Local Abbreviation CacheKey := (string * Measure)%type.
Local Abbreviation Store := (gmap (string * Measure) string).

Implicit Types (d : @Device Measure) (photos : list MediaLibraryPhoto)
  (w : Measure) (scheds : list (list nat)).

Local Ltac pass_simpl :=
  cbn [ps_state ps_store ps_updates ps_trace] in *.

(** *** Where a pass with a failing item stops *)

(** The events a batch adds are events of its own items. *)
Lemma eventsOf_beyond_batch (s : Store) d batch w sched m i
    (tr : list (nat * @Event Measure)) :
  m + length batch ≤ i →
  eventsOf i (tr ++ ((λ ie : nat * Event, (m + ie.1, ie.2)) <$>
                       trace (run d batch w sched (spawn s batch))))
  = eventsOf i tr.
Proof.
  intros Hi. rewrite eventsOf_app, eventsOf_shift.
  rewrite decide_True by lia.
  rewrite (eventsOf_none (i - m)); [by rewrite app_nil_r|].
  intros ev Hin.
  apply (cons_trace _ _ _ _ _ (batch_consistent s d batch w sched)) in Hin.
  lia.
Qed.

Lemma slice_elem_take {A} (l : list A) (m k stop : nat) (x : A) :
  m + k ≤ stop → x ∈ slice l m (m + k) → x ∈ take stop l.
Proof.
  intros Hstop [i Hi]%list_elem_of_lookup_1.
  assert (i < k).
  { apply lookup_lt_Some in Hi. rewrite slice_length in Hi. lia. }
  apply slice_lookup in Hi.
  apply (list_elem_of_lookup_2 _ (m + i)). by rewrite lookup_take_lt by lia.
Qed.

(** With an item [n] that cannot resolve, the loop never goes past the
    batch of [n]: items of later batches have no event, and keys of later
    batches are as they were. *)
Lemma loop_halts d photos w fuel scheds m (st st' : @PassState Measure _ _)
    out n photo :
  calculateCachedPhotos_loop fuel d photos w scheds m st = Some (out, st') →
  m ≤ n → photos !! n = Some photo →
  expectedEntry (ps_store st) d w photo = None →
  let stop := m + PROCESSING_BATCH_SIZE_LIMIT
                  * ((n - m) / PROCESSING_BATCH_SIZE_LIMIT + 1) in
  (∀ i, stop ≤ i → eventsOf i (ps_trace st') = eventsOf i (ps_trace st))
  ∧ (∀ k, (∀ photo', photo' ∈ take stop photos →
                     k ≠ cacheKey (uri photo') w) →
          ps_store st' !! k = ps_store st !! k).
Proof.
  intros Hloop. revert n photo.
  refine (loop_cases d photos w
    (λ m st out st', ∀ n photo,
       m ≤ n → photos !! n = Some photo →
       expectedEntry (ps_store st) d w photo = None →
       let stop := m + PROCESSING_BATCH_SIZE_LIMIT
                       * ((n - m) / PROCESSING_BATCH_SIZE_LIMIT + 1) in
       (∀ i, stop ≤ i → eventsOf i (ps_trace st') = eventsOf i (ps_trace st))
       ∧ (∀ k, (∀ photo', photo' ∈ take stop photos →
                          k ≠ cacheKey (uri photo') w) →
               ps_store st' !! k = ps_store st !! k))
    _ _ _ fuel scheds m st out st' Hloop).
  - clear. intros m st Hm n photo Hmn Hn _ stop. done.
  - clear. intros m st sched vs out st' Hm batch σ Hall IH n photo Hmn Hn He
      stop.
    destruct (fulfilled_batch _ _ _ _ _ _ Hall) as (Hvs & Hstore & Hlen).
    fold σ in Hstore.
    pose proof (batch_consistent (ps_store st) d batch w sched) as Hc.
    fold σ in Hc.
    assert (Hn' : m + length batch ≤ n).
    { destruct (decide (m + length batch ≤ n)) as [|Hlt]; [done|].
      exfalso. apply (failing_item_not_fulfilled (ps_store st) d batch w σ
                        (n - m) photo vs); [done| |done..].
      unfold batch, slice. rewrite lookup_take_lt, lookup_drop.
      - by replace (m + (n - m)) with n by lia.
      - unfold batch in Hlt. rewrite slice_length in Hlt. lia. }
    assert (Hfull : length batch = PROCESSING_BATCH_SIZE_LIMIT).
    { unfold batch. rewrite slice_length.
      apply lookup_lt_Some in Hn. unfold batch in Hn'.
      rewrite slice_length in Hn'. lia. }
    destruct (IH n photo Hn' Hn) as [Hev Hst].
    { simpl. by rewrite Hstore, expectedEntry_settle. }
    pass_simpl.
    assert (Hstop : m + length batch
                    + PROCESSING_BATCH_SIZE_LIMIT
                      * ((n - (m + length batch))
                         / PROCESSING_BATCH_SIZE_LIMIT + 1)
                    = stop).
    { unfold stop. rewrite Hfull in *.
      unfold PROCESSING_BATCH_SIZE_LIMIT in *.
      replace (n - m) with ((n - (m + 25)) + 1 * 25) by lia.
      rewrite Nat.div_add by done. lia. }
    rewrite Hstop in Hev, Hst.
    assert (Hle : m + length batch ≤ stop) by lia.
    split.
    + intros i Hi. rewrite Hev by done.
      apply eventsOf_beyond_batch. lia.
    + intros k Hk. rewrite Hst by done.
      apply (cons_frame _ _ _ _ _ Hc). intros photo' Hin. apply Hk.
      eapply slice_elem_take; [|exact Hin]. rewrite Hfull in Hle. done.
  - clear. intros m st sched out Hm batch σ _ n photo Hmn Hn He stop.
    pass_simpl.
    pose proof (batch_consistent (ps_store st) d batch w sched) as Hc.
    fold σ in Hc.
    assert (Hb : length batch ≤ PROCESSING_BATCH_SIZE_LIMIT).
    { unfold batch. rewrite slice_length. lia. }
    assert (Hle : m + PROCESSING_BATCH_SIZE_LIMIT ≤ stop).
    { unfold stop, PROCESSING_BATCH_SIZE_LIMIT. lia. }
    split.
    + intros i Hi. apply eventsOf_beyond_batch. lia.
    + intros k Hk. apply (cons_frame _ _ _ _ _ Hc). intros photo' Hin.
      apply Hk. eapply slice_elem_take; [exact Hle|exact Hin].
Qed.

(** Some schedules make the failure come to the surface: each batch is run
    until all its calls have settled, and the pass throws at the first
    batch that holds a failing item. *)
Lemma loop_can_throw d photos w fuel m (st : @PassState Measure _ _) n photo :
  length photos - m < fuel →
  m ≤ n → photos !! n = Some photo →
  expectedEntry (ps_store st) d w photo = None →
  ∃ scheds st',
    calculateCachedPhotos_loop fuel d photos w scheds m st
    = Some (PassThrew, st').
Proof.
  revert m st. induction fuel as [|fuel IH]; intros m st Hf Hmn Hn He; [lia|].
  assert (Hm : m < length photos).
  { apply lookup_lt_Some in Hn. lia. }
  set (batch := slice photos m (m + PROCESSING_BATCH_SIZE_LIMIT)).
  destruct (settles (ps_store st) d batch w (spawn (ps_store st) batch))
    as [sched Hsched]; [apply spawn_consistent|].
  pose proof (batch_consistent (ps_store st) d batch w sched) as Hc.
  destruct (promiseAll_settled _ Hsched) as [Hrej|[vs Hvs]].
  - eexists [sched], _. simpl.
    rewrite bool_decide_eq_true_2 by done. fold batch.
    by rewrite Hrej.
  - destruct (fulfilled_batch _ _ _ _ _ _ Hvs) as (_ & Hstore & _).
    assert (Hn' : m + length batch ≤ n).
    { destruct (decide (m + length batch ≤ n)) as [|Hlt]; [done|].
      exfalso. apply (failing_item_not_fulfilled (ps_store st) d batch w _
                        (n - m) photo vs Hc); [|done..].
      unfold batch, slice. rewrite lookup_take_lt, lookup_drop.
      - by replace (m + (n - m)) with n by lia.
      - unfold batch in Hlt. rewrite slice_length in Hlt. lia. }
    destruct (IH (m + length batch)
                {| ps_store := store (run d batch w sched
                                        (spawn (ps_store st) batch));
                   ps_state := publish photos vs (ps_state st);
                   ps_updates := S (ps_updates st);
                   ps_trace := ps_trace st ++
                     ((λ ie : nat * Event, (m + ie.1, ie.2)) <$>
                        trace (run d batch w sched
                                 (spawn (ps_store st) batch))) |})
      as (scheds & st' & Hloop).
    + unfold batch. rewrite slice_length.
      unfold PROCESSING_BATCH_SIZE_LIMIT. lia.
    + done.
    + done.
    + simpl. by rewrite Hstore, expectedEntry_settle.
    + exists (sched :: scheds), st'. simpl.
      rewrite bool_decide_eq_true_2 by done. fold batch.
      by rewrite Hvs.
Qed.

End PassHalts.

Section BatchClaims.
Context {Measure : Type} `{Countable Measure}.

Local Abbreviation CacheKey := (string * Measure)%type.
Local Abbreviation Store := (gmap (string * Measure) string).

Implicit Types (d : @Device Measure) (batch : list MediaLibraryPhoto)
  (w : Measure) (photo : MediaLibraryPhoto) (i j : nat).


(** C8.  The key a resolution looks up and writes is [cacheKey] of the
    source uri and the logical width, a function that does not receive the
    device: two runs for the same item on devices of any two pixel
    densities, from any stores and under any schedules, use the same key.
    The density conversion reaches the render call only, as its width. *)
Theorem cache_key_density_independent (s1 s2 : Store) d1 d2 batch w
    sched1 sched2 i :
  let σ1 := run d1 batch w sched1 (spawn s1 batch) in
  let σ2 := run d2 batch w sched2 (spawn s2 batch) in
  (∀ ev1 ev2 k1 k2,
     (i, ev1) ∈ trace σ1 → (i, ev2) ∈ trace σ2 →
     eventKey ev1 = Some k1 → eventKey ev2 = Some k2 → k1 = k2)
  ∧ (∀ ev k photo,
       (i, ev) ∈ trace σ1 → eventKey ev = Some k → batch !! i = Some photo →
       k = cacheKey (uri photo) w)
  ∧ (∀ u px, (i, EvRender u px) ∈ trace σ1 →
       px = getPixelSizeForLayoutSize d1 w).
Proof.
  intros σ1 σ2.
  pose proof (batch_consistent s1 d1 batch w sched1) as Hc1. fold σ1 in Hc1.
  pose proof (batch_consistent s2 d2 batch w sched2) as Hc2. fold σ2 in Hc2.
  assert (Hev : ∀ (s0 : Store) d (σ : @World Measure _ _) ev photo,
            Consistent s0 d batch w σ → (i, ev) ∈ trace σ →
            batch !! i = Some photo →
            (∀ k, eventKey ev = Some k → k = cacheKey (uri photo) w)
            ∧ (∀ u px, ev = EvRender u px →
                 u = uri photo ∧ px = getPixelSizeForLayoutSize d w)).
  { intros s0 d σ ev photo Hc Hin Hp.
    destruct (call_history _ _ _ _ _ _ _ Hc Hp) as (ph & Hi & Hok).
    apply trace_eventsOf in Hin.
    by eapply callOk_events. }
  assert (Hphoto : ∀ (s0 : Store) d (σ : @World Measure _ _) ev,
            Consistent s0 d batch w σ → (i, ev) ∈ trace σ →
            ∃ photo, batch !! i = Some photo).
  { intros s0 d σ ev Hc Hin. apply lookup_lt_is_Some.
    by eapply (cons_trace _ _ _ _ _ Hc). }
  split_and!.
  - intros ev1 ev2 k1 k2 Hin1 Hin2 Hk1 Hk2.
    destruct (Hphoto _ _ _ _ Hc1 Hin1) as [photo Hp].
    destruct (Hev _ _ _ _ _ Hc1 Hin1 Hp) as [Hkey1 _].
    destruct (Hev _ _ _ _ _ Hc2 Hin2 Hp) as [Hkey2 _].
    rewrite (Hkey1 _ Hk1), (Hkey2 _ Hk2). done.
  - intros ev k photo Hin Hk Hp.
    destruct (Hev _ _ _ _ _ Hc1 Hin Hp) as [Hkey1 _]. by apply Hkey1.
  - intros u px Hin.
    destruct (Hphoto _ _ _ _ Hc1 Hin) as [photo Hp].
    destruct (Hev _ _ _ _ _ Hc1 Hin Hp) as [_ Hr].
    by destruct (Hr u px eq_refl).
Qed.

(** C9.  The limiter's maximum is 30, and in every world the program can
    reach (calls started at any time, in batches of any size, by any number
    of passes) the number of render invocations in flight is at most that
    maximum.  In particular this holds at every point of every schedule of
    a batch; there, a call waiting for a slot is not resumed while the
    limiter is full, the call at the front of the queue is started as soon
    as a slot is free, and as long as some call is unsettled some call can
    be resumed. *)
Theorem in_flight_renders_bounded (s0 : Store) d batch w sched :
  CACHE_CALCULATION_PARALLELISM_LIMIT = 30
  ∧ (∀ σ' : @World Measure _ _,
       Reachable d σ' →
       inFlight σ' ≤ CACHE_CALCULATION_PARALLELISM_LIMIT)
  ∧ let σ := run d batch w sched (spawn s0 batch) in
    Reachable d σ
    ∧ inFlight σ ≤ CACHE_CALCULATION_PARALLELISM_LIMIT
    ∧ concurrency (limiter σ) = 30
    ∧ (∀ i, phases σ !! i = Some AwaitSlot →
            inFlight σ = CACHE_CALCULATION_PARALLELISM_LIMIT →
            step d batch w i σ = None)
    ∧ (∀ i, phases σ !! i = Some AwaitSlot →
            inFlight σ < CACHE_CALCULATION_PARALLELISM_LIMIT →
            ∃ j σ', head (queue (limiter σ)) = Some j
                    ∧ step d batch w j σ = Some σ'
                    ∧ phases σ' !! j = Some Rendering)
    ∧ (allSettled σ = false → ∃ i σ', step d batch w i σ = Some σ').
Proof.
  split; [done|]. split.
  { intros σ' Hr. by apply reachable_limiter in Hr as (_ & _ & ?). }
  intros σ.
  pose proof (batch_consistent s0 d batch w sched) as Hc. fold σ in Hc.
  split_and!.
  - apply batch_reachable.
  - by eapply consistent_inFlight.
  - apply (cons_concurrency _ _ _ _ _ Hc).
  - intros i Hi Hfull. by eapply full_limiter_blocks.
  - intros i Hi Hfree.
    apply (cons_queue _ _ _ _ _ Hc) in Hi.
    destruct (queue (limiter σ)) as [|q0 q] eqn:Hq;
      [by apply elem_of_nil in Hi|].
    assert (Hq0 : phases σ !! q0 = Some AwaitSlot).
    { apply (cons_queue _ _ _ _ _ Hc). rewrite Hq. left. }
    destruct (lookup_lt_is_Some_2 batch q0) as [photo Hp].
    { rewrite <- (cons_length _ _ _ _ _ Hc). by eapply lookup_lt_Some. }
    exists q0. eexists. split; [done|]. split.
    + eapply resumption_step; eauto. constructor.
      unfold canStart. rewrite Hq. simpl.
      rewrite (cons_active _ _ _ _ _ Hc), (cons_concurrency _ _ _ _ _ Hc).
      rewrite !bool_decide_eq_true_2; done.
    + simpl. apply list_lookup_insert_eq. by eapply lookup_lt_Some.
  - by eapply progress.
Qed.

End BatchClaims.

Section PassClaims.
Context {Measure : Type} `{Countable Measure}.

Local Abbreviation CacheKey := (string * Measure)%type.
Local Abbreviation Store := (gmap (string * Measure) string).

Implicit Types (d : @Device Measure) (batch photos : list MediaLibraryPhoto)
  (w : Measure) (photo : MediaLibraryPhoto) (i j m n : nat)
  (scheds : list (list nat)) (st : @State Measure).

Local Ltac pass_simpl :=
  cbn [ps_state ps_store ps_updates ps_trace] in *.

(** C10.  A calculation pass that starts from an empty accumulated list
    publishes, whatever the schedules and however far it gets, the entries
    of a prefix of the source list in source order; when it returns, the
    entries of the whole list in source order.  The list, the state and the
    store it ends with are the same for every schedule. *)
Theorem published_in_source_order d photos w scheds (s0 : Store) st0 out
    (st' : @PassState Measure _ _) :
  cachedPhotos st0 = [] →
  calculateCachedPhotos d photos w scheds s0 st0 = Some (out, st') →
  (∃ n, mapM (expectedEntry s0 d w) (take n photos)
        = Some (cachedPhotos (ps_state st'))
        ∧ entryKey <$> cachedPhotos (ps_state st')
          = (λ photo, cacheKey (uri photo) w) <$> take n photos)
  ∧ (out = PassReturned →
     mapM (expectedEntry s0 d w) photos = Some (cachedPhotos (ps_state st'))
     ∧ entryKey <$> cachedPhotos (ps_state st')
       = (λ photo, cacheKey (uri photo) w) <$> photos
     ∧ ∀ scheds' (st'' : @PassState Measure _ _),
         calculateCachedPhotos d photos w scheds' s0 st0
         = Some (PassReturned, st'') →
         ps_state st'' = ps_state st' ∧ ps_store st'' = ps_store st').
Proof.
  unfold calculateCachedPhotos. intros Hempty Hloop. split.
  - destruct (loop_published _ _ _ _ _ _ _ _ _ Hloop)
      as (j & es & _ & Hcp & Hes & _).
    pass_simpl. rewrite Hempty in Hcp. simpl in Hcp. rewrite drop_0 in Hes.
    exists (length es). rewrite Hcp. split; [done|].
    by eapply expected_keys.
  - intros ->.
    destruct (loop_returned _ _ _ _ _ _ _ _ Hloop)
      as (es & Hes & Hcp & Hst & Hls).
    pass_simpl. rewrite Hempty in Hcp, Hls. simpl in Hcp, Hls.
    rewrite drop_0 in Hes, Hst. rewrite Hcp. split_and!; [done| |].
    + by eapply expected_keys.
    + intros scheds' st'' Hloop'.
      destruct (loop_returned _ _ _ _ _ _ _ _ Hloop')
        as (es' & Hes' & Hcp' & Hst' & Hls').
      pass_simpl. rewrite Hempty in Hcp', Hls'. simpl in Hcp', Hls'.
      rewrite drop_0 in Hes', Hst'.
      assert (es' = es) as -> by congruence.
      split; [|by rewrite Hst, Hst'].
      destruct (ps_state st') as [cp ls], (ps_state st'') as [cp' ls'].
      simpl in Hcp, Hls, Hcp', Hls'. congruence.
Qed.

(** C4, as the code has it.  An item whose render fails gets no entry in
    the store, and it does not stop the other calls of its batch: they can
    all still be run to their end, and once they are, every other item's
    entry is in the store.  But the batch as a whole rejects, so the pass
    never returns, and under some schedules it throws: it publishes the
    batches before the failing one and nothing more, not even the rest of
    the failing batch.  The pass ends there: no later batch is started, so
    no item of a later batch is ever looked up, rendered or written, and
    the store is as it was at every key that belongs to no item up to the
    end of the failing batch. *)
Theorem failed_render_aborts_pass d photos w scheds (s0 : Store) st0 n photo :
  photos !! n = Some photo →
  s0 !! cacheKey (uri photo) w = None →
  render d (uri photo) (getPixelSizeForLayoutSize d w) = None →
  (∃ out (st' : @PassState Measure _ _),
     calculateCachedPhotos d photos w scheds s0 st0 = Some (out, st')
     ∧ out ≠ PassReturned
     ∧ ps_store st' !! cacheKey (uri photo) w = None
     ∧ ps_updates st' ≤ n / PROCESSING_BATCH_SIZE_LIMIT
     ∧ length (cachedPhotos (ps_state st'))
       = length (cachedPhotos st0)
         + PROCESSING_BATCH_SIZE_LIMIT * ps_updates st'
     ∧ (n < PROCESSING_BATCH_SIZE_LIMIT → ps_state st' = st0)
     ∧ (cachedPhotos st0 = [] → cachedPhotosLoadingState st0 ≠ COMPLETED →
        cachedPhotosLoadingState (ps_state st') ≠ COMPLETED)
     ∧ (∀ i, PROCESSING_BATCH_SIZE_LIMIT
             * (n / PROCESSING_BATCH_SIZE_LIMIT + 1) ≤ i →
             eventsOf i (ps_trace st') = [])
     ∧ (∀ k, (∀ photo',
                photo' ∈ take (PROCESSING_BATCH_SIZE_LIMIT
                               * (n / PROCESSING_BATCH_SIZE_LIMIT + 1))
                              photos →
                k ≠ cacheKey (uri photo') w) →
             ps_store st' !! k = s0 !! k))
  ∧ (∃ scheds' (st' : @PassState Measure _ _),
       calculateCachedPhotos d photos w scheds' s0 st0
       = Some (PassThrew, st'))
  ∧ (∀ batch sched i, batch !! i = Some photo →
       let σ := run d batch w sched (spawn s0 batch) in
       store σ !! cacheKey (uri photo) w = None
       ∧ (∀ vs, promiseAll (phases σ) ≠ Fulfilled vs)
       ∧ (phases σ !! i = Some Rejected → promiseAll (phases σ) = RejectedP)
       ∧ (∃ sched', allSettled (run d batch w sched' σ) = true)
       ∧ (allSettled σ = true →
            phases σ !! i = Some Rejected
            ∧ ∀ photo', photo' ∈ batch →
                store σ !! cacheKey (uri photo') w
                = settledHandle s0 d (cacheKey (uri photo') w))).
Proof.
  intros Hn Hs0 Hr.
  assert (He : expectedEntry s0 d w photo = None).
  { unfold expectedEntry. rewrite settledHandle_key by done. by rewrite Hr. }
  split; [|split].
  - destruct (calculateCachedPhotos_total d photos w scheds s0 st0)
      as [[out st'] Hloop].
    exists out, st'. split; [done|].
    unfold calculateCachedPhotos in Hloop.
    destruct (loop_failing _ _ _ _ _ _ _ _ _ n photo Hloop)
      as (Hout & Hst & j & Hu & Hj & Hl & Hj0 & Hjp); [lia|done|done|].
    destruct (loop_halts _ _ _ _ _ _ _ _ _ n photo Hloop)
      as [Hev Hframe]; [lia|done|done|].
    rewrite Nat.sub_0_r in Hev, Hframe.
    pass_simpl. simpl in Hu. subst. split_and!; [done|done| |done| | | |].
    + apply Nat.div_le_lower_bound; [done|]. lia.
    + intros Hlt. apply Hj0. unfold PROCESSING_BATCH_SIZE_LIMIT in *. lia.
    + intros Hempty Hnc. destruct (decide (ps_updates st' = 0)) as [Hz|Hnz].
      * by rewrite Hj0.
      * rewrite Hjp by lia. rewrite Hl, Hempty. simpl.
        apply lookup_lt_Some in Hn.
        rewrite decide_False; [done|].
        unfold PROCESSING_BATCH_SIZE_LIMIT in *. lia.
    + intros i Hi. by rewrite Hev.
    + intros k Hk. by apply Hframe.
  - unfold calculateCachedPhotos.
    apply (loop_can_throw d photos w _ 0 _ n photo); [lia|lia|done|done].
  - intros batch sched i Hi σ.
    pose proof (batch_consistent s0 d batch w sched) as Hc. fold σ in Hc.
    assert (Hnf : ∀ vs, promiseAll (phases σ) ≠ Fulfilled vs).
    { intros vs. by eapply failing_item_not_fulfilled. }
    split_and!.
    + by eapply failed_key_absent.
    + done.
    + apply promiseAll_rejected.
    + by eapply settles.
    + intros Hall. split.
      * destruct (call_history _ _ _ _ _ _ _ Hc Hi) as (ph & Hph & _).
        pose proof (allSettled_true _ _ _ Hall Hph) as Hs.
        destruct ph as [| | |r|e|]; try done.
        destruct (resolved_expected _ _ _ _ _ _ _ _ Hc Hi Hph) as [He' _].
        congruence.
      * intros photo' Hin.
        rewrite (settled_store _ _ _ _ _ Hc Hall), settle_lookup.
        rewrite decide_True; [done|]. apply list_elem_of_fmap. eauto.
Qed.

End PassClaims.

Section HookClaims.
Context {Measure : Type} `{Countable Measure}.

Local Abbreviation CacheKey := (string * Measure)%type.
Local Abbreviation Store := (gmap (string * Measure) string).

Implicit Types (d : @Device Measure) (photos : list MediaLibraryPhoto)
  (w : Measure) (scheds : list (list nat)) (st : @State Measure)
  (up : @Upstream Measure) (hk : @Hook Measure _ _).

(** What the calculation effect does to the hook. *)
Lemma calculationEffect_runs d scheds up hk :
  cachedPhotosLoadingState (hk_state hk) = RESTORED_FROM_CACHE →
  ∃ out (st' : @PassState Measure _ _),
    calculateCachedPhotos d (mediaLibraryPhotos up) (singleImageSize up)
      scheds (hk_store hk) (hk_state hk) = Some (out, st')
    ∧ performAll d scheds up hk (calculationEffect (hk_state hk))
      = {| hk_store := ps_store st'; hk_state := ps_state st';
           hk_warnings := hk_warnings hk;
           hk_passes := hk_passes hk ++ [Some (out, st')] |}.
Proof.
  intros Hst.
  destruct (calculateCachedPhotos_total d (mediaLibraryPhotos up)
              (singleImageSize up) scheds (hk_store hk) (hk_state hk))
    as [[out st'] Hpass].
  exists out, st'. split; [done|].
  unfold calculationEffect. rewrite Hst. simpl. by rewrite Hpass.
Qed.

Lemma calculationEffect_skips d scheds up hk :
  cachedPhotosLoadingState (hk_state hk) ≠ RESTORED_FROM_CACHE →
  performAll d scheds up hk (calculationEffect (hk_state hk)) = hk.
Proof.
  intros Hst. unfold calculationEffect.
  by rewrite bool_decide_eq_true_2.
Qed.

(** C2, as the code has it.  With an empty source collection the
    restoration effect finds nothing and sets [RESTORED_FROM_CACHE]; the
    calculation pass that follows returns without entering its loop, so it
    never calls [setState]: the hook comes to rest in
    [RESTORED_FROM_CACHE] with zero entries, not in [COMPLETED]. *)
Theorem empty_collection_stays_restored d scheds (s : Store) w :
  let up := {| singleImageSize := w;
               galleryUISettingsStateRestorationStatus := SETTLED;
               mediaLibraryPhotos := [];
               mediaLibraryLoadingState := ML_COMPLETED;
               mediaLibraryStateRestorationStatus := SETTLED |} in
  let rest := {| cachedPhotos := [];
                 cachedPhotosLoadingState := RESTORED_FROM_CACHE |} in
  restoreThenCalculate d scheds up s
  = {| hk_store := s;
       hk_state := rest;
       hk_warnings := [];
       hk_passes :=
         [Some (PassReturned,
                {| ps_store := s; ps_state := rest;
                   ps_updates := 0; ps_trace := [] |})] |}
  ∧ cachedPhotosLoadingState (hk_state (restoreThenCalculate d scheds up s))
    ≠ COMPLETED.
Proof. intros up rest. split; [reflexivity|discriminate]. Qed.

(** C3, as the code has it.  When its guards pass, the restoration effect
    sets [RESTORING_FROM_CACHE] and then, with the entries it found: the
    state [RESTORED_FROM_CACHE] when it found none or fewer or more than
    the collection has, and [COMPLETED] when it found some and as many as
    the collection has.  The calculation effect starts a pass exactly in
    state [RESTORED_FROM_CACHE]: from there a pass always runs, and in
    any other state, [COMPLETED] included, none does. *)
Theorem restoration_outcome d scheds up (s : Store) st hk :
  galleryUISettingsStateRestorationStatus up ≠ RESTORING →
  mediaLibraryStateRestorationStatus up ≠ RESTORING →
  mediaLibraryLoadingState up = ML_COMPLETED →
  cachedPhotosLoadingState st = IDLE →
  let cached :=
    loadAllPhotosFromCache s (mediaLibraryPhotos up) (singleImageSize up) in
  restorationEffect up s st
  = [SetState {| cachedPhotos := [];
                 cachedPhotosLoadingState := RESTORING_FROM_CACHE |};
     SetState {| cachedPhotos := cached;
                 cachedPhotosLoadingState :=
                   if bool_decide (cached ≠ []
                                   ∧ length cached
                                     = length (mediaLibraryPhotos up))
                   then COMPLETED else RESTORED_FROM_CACHE |}]
  ∧ (cachedPhotosLoadingState (hk_state hk) = RESTORED_FROM_CACHE →
     ∃ pass, hk_passes (performAll d scheds up hk
                          (calculationEffect (hk_state hk)))
             = hk_passes hk ++ [Some pass])
  ∧ (cachedPhotosLoadingState (hk_state hk) ≠ RESTORED_FROM_CACHE →
     performAll d scheds up hk (calculationEffect (hk_state hk)) = hk).
Proof.
  intros Hg Hm Hl Hidle cached. split_and!.
  - unfold restorationEffect.
    rewrite (bool_decide_eq_false_2 _ Hg), (bool_decide_eq_false_2 _ Hm).
    rewrite (bool_decide_eq_false_2 (_ ≠ ML_COMPLETED)) by (by intros []).
    rewrite (bool_decide_eq_false_2 (_ ≠ IDLE)) by (by intros []).
    simpl. fold cached. destruct cached as [|e cached'] eqn:Hc.
    + done.
    + rewrite (bool_decide_eq_false_2 (length (e :: cached') = 0)) by done.
      do 3 f_equal. repeat case_bool_decide; naive_solver.
  - intros Hst.
    destruct (calculationEffect_runs d scheds up hk Hst)
      as (out & st' & _ & ->). by exists (out, st').
  - apply calculationEffect_skips.
Qed.

(** C5.  A recalculation request made in state [CALCULATING] or
    [RESTORING_FROM_CACHE] only logs a warning: store, hook state and
    passes stay as they are.  In the other three states it is accepted. *)
Theorem recalculate_guard d scheds up hk :
  let msg :=
    "❌ Recalculate cached photos is already in progress, skipping"%string in
  match cachedPhotosLoadingState (hk_state hk) with
  | CALCULATING | RESTORING_FROM_CACHE =>
      recalculateCachedPhotos (hk_state hk) = [Warn msg]
      ∧ performAll d scheds up hk (recalculateCachedPhotos (hk_state hk))
        = {| hk_store := hk_store hk; hk_state := hk_state hk;
             hk_warnings := hk_warnings hk ++ [msg];
             hk_passes := hk_passes hk |}
  | IDLE | RESTORED_FROM_CACHE | COMPLETED =>
      recalculateCachedPhotos (hk_state hk)
      = [ClearCache;
         SetState {| cachedPhotos := [];
                     cachedPhotosLoadingState := CALCULATING |};
         Calculate]
  end.
Proof.
  intros msg. unfold recalculateCachedPhotos.
  destruct (cachedPhotosLoadingState (hk_state hk)); done.
Qed.

(** C6.  An accepted recalculation request clears the store, then resets
    the hook state to no entries and [CALCULATING], then calculates: the
    pass starts from a store with no entry under any key, whatever the
    width, and from the empty list. *)
Theorem recalculate_clears_store_and_state d scheds up hk :
  cachedPhotosLoadingState (hk_state hk) ≠ CALCULATING →
  cachedPhotosLoadingState (hk_state hk) ≠ RESTORING_FROM_CACHE →
  let reset := {| cachedPhotos := [];
                  cachedPhotosLoadingState := CALCULATING |} in
  let cleared := performAll d scheds up hk [ClearCache; SetState reset] in
  recalculateCachedPhotos (hk_state hk)
  = [ClearCache; SetState reset; Calculate]
  ∧ performAll d scheds up hk (recalculateCachedPhotos (hk_state hk))
    = perform d scheds up cleared Calculate
  ∧ hk_store cleared = ∅
  ∧ (∀ k : CacheKey, getPhotoFromCache (hk_store cleared) k = None)
  ∧ (∀ photos w, loadAllPhotosFromCache (hk_store cleared) photos w = [])
  ∧ hk_state cleared = reset
  ∧ hk_passes (performAll d scheds up hk
                 (recalculateCachedPhotos (hk_state hk)))
    = hk_passes hk
      ++ [calculateCachedPhotos d (mediaLibraryPhotos up)
            (singleImageSize up) scheds ∅ reset].
Proof.
  intros Hc Hr reset cleared.
  assert (Heffs : recalculateCachedPhotos (hk_state hk)
                  = [ClearCache; SetState reset; Calculate]).
  { unfold recalculateCachedPhotos.
    by rewrite (bool_decide_eq_false_2 _ Hc), (bool_decide_eq_false_2 _ Hr). }
  rewrite Heffs. split_and!; try done.
  intros photos w. induction photos as [|photo photos IH]; [done|].
  done.
Qed.

End HookClaims.

(** C1, as the code has it.  Store pre-populated for A and B at width 100,
    source list [A, B, C].  Restoration yields the two entries and
    [RESTORED_FROM_CACHE].  The calculation pass that follows renders C only,
    but it appends the entries of all three items to the two restored ones:
    when it returns, the accumulated list holds five entries (A, B, A, B, C)
    and the state is [CALCULATING]; on no device and under no schedule does
    the hook reach [COMPLETED]. *)
Theorem partial_restore_then_calculate (d : @Device Z) (scheds : list (list nat)) :
  let up := settledUpstream [photoA; photoB; photoC] 100 in
  let restored :=
    performAll d scheds up (mount storeAB)
      (restorationEffect up storeAB initialState) in
  let hk := restoreThenCalculate d scheds up storeAB in
  hk_state restored
  = {| cachedPhotos := [entryOf ("A"%string, 100%Z) "a.jpg"%string;
                        entryOf ("B"%string, 100%Z) "b.jpg"%string];
       cachedPhotosLoadingState := RESTORED_FROM_CACHE |}
  ∧ cachedPhotosLoadingState (hk_state hk) ≠ COMPLETED
  ∧ (∃ out st',
       hk_passes hk = [Some (out, st')]
       ∧ (∀ n u px, (n, EvRender u px) ∈ ps_trace st' →
            n = 2 ∧ u = "C"%string)
       ∧ (out = PassReturned →
          entryKey <$> cachedPhotos (hk_state hk)
          = [("A"%string, 100%Z); ("B"%string, 100%Z); ("A"%string, 100%Z);
             ("B"%string, 100%Z); ("C"%string, 100%Z)]
          ∧ cachedPhotosLoadingState (hk_state hk) = CALCULATING))
  ∧ hk_state (restoreThenCalculate sampleDevice
                (sequentialSchedules [photoA; photoB; photoC]) up storeAB)
    = {| cachedPhotos := [entryOf ("A"%string, 100%Z) "a.jpg"%string;
                          entryOf ("B"%string, 100%Z) "b.jpg"%string;
                          entryOf ("A"%string, 100%Z) "a.jpg"%string;
                          entryOf ("B"%string, 100%Z) "b.jpg"%string;
                          entryOf ("C"%string, 100%Z) "file:///cache/C"%string];
         cachedPhotosLoadingState := CALCULATING |}.
Proof.
  intros up restored hk.
  assert (Hrest : restored
    = {| hk_store := storeAB;
         hk_state :=
           {| cachedPhotos := [entryOf ("A"%string, 100%Z) "a.jpg"%string;
                               entryOf ("B"%string, 100%Z) "b.jpg"%string];
              cachedPhotosLoadingState := RESTORED_FROM_CACHE |};
         hk_warnings := []; hk_passes := [] |}).
  { vm_compute. reflexivity. }
  assert (Hphotos : mediaLibraryPhotos up = [photoA; photoB; photoC]) by done.
  destruct (calculationEffect_runs d scheds up restored)
    as (out & st' & Hpass & Hhk); [by rewrite Hrest|].
  change (performAll d scheds up restored
            (calculationEffect (hk_state restored))) with hk in Hhk.
  rewrite Hrest in Hpass. cbn [hk_store hk_state] in Hpass.
  rewrite Hphotos in Hpass. unfold calculateCachedPhotos in Hpass.
  destruct (loop_published _ _ _ _ _ _ _ _ _ Hpass)
    as (j & es & _ & Hcp & Hes & Hlen & Hj0 & Hjp).
  cbn [ps_state ps_store cachedPhotos cachedPhotosLoadingState] in Hcp, Hj0, Hjp.
  assert (Hnc : cachedPhotosLoadingState (ps_state st') ≠ COMPLETED).
  { destruct (decide (j = 0)) as [Hz|Hnz].
    - by rewrite Hj0.
    - rewrite Hjp, Hcp, length_app, Hlen by lia.
      rewrite decide_False; [done|].
      unfold PROCESSING_BATCH_SIZE_LIMIT. simpl. lia. }
  split_and!.
  - by rewrite Hrest.
  - by rewrite Hhk.
  - exists out, st'. rewrite Hhk, Hrest. split_and!; [done| |].
    + intros n u px Hin.
      destruct (loop_renders _ _ _ _ _ _ _ _ _ _ _ _ Hpass Hin)
        as [Hnil|(photo & Hp & -> & _ & Hs0)].
      { by apply elem_of_nil in Hnil. }
      cbn [ps_store] in Hs0.
      destruct n as [|[|[|n]]]; simplify_eq/=; try done.
    + intros ->.
      destruct (loop_returned _ _ _ _ _ _ _ _ Hpass)
        as (es' & Hes' & Hcp' & _ & Hls').
      cbn [ps_state ps_store cachedPhotos cachedPhotosLoadingState hk_state]
        in Hcp', Hls' |- *.
      rewrite drop_0 in Hes'. rewrite Hcp', fmap_app.
      rewrite (expected_keys _ _ _ _ _ Hes'). split; [done|].
      rewrite Hls'. apply length_mapM in Hes'.
      rewrite decide_True by (simpl; lia).
      rewrite decide_False; [done|]. rewrite length_app, <- Hes'. simpl. lia.
  - vm_compute. reflexivity.
Qed.

(** ** Sample runs *)

(** The limiter does fill up: of thirty-one calls that all missed, thirty
    render and the last one waits and cannot be resumed. *)
Lemma crowd_saturates_limiter :
  let σ := run sampleDevice crowd 100%Z crowdSchedule (spawn ∅ crowd) in
  inFlight σ = 30
  ∧ phases σ !! 30 = Some AwaitSlot
  ∧ step sampleDevice crowd 100%Z 30 σ = None.
Proof. vm_compute. done. Qed.

(** The same uri and width on a device of ratio 3 and on one of ratio 2:
    the keys looked up and written are the same, the render widths are 300
    and 200. *)
Lemma cache_key_two_densities :
  let σ1 := run sampleDevice [photoC] 100%Z (sequentialSchedule 1)
              (spawn ∅ [photoC]) in
  let σ2 := run denseDevice [photoC] 100%Z (sequentialSchedule 1)
              (spawn ∅ [photoC]) in
  omap eventKey (eventsOf 0 (trace σ1))
  = [("C"%string, 100%Z); ("C"%string, 100%Z)]
  ∧ omap eventKey (eventsOf 0 (trace σ2))
    = [("C"%string, 100%Z); ("C"%string, 100%Z)]
  ∧ List.filter isRender (eventsOf 0 (trace σ1)) = [EvRender "C" 300]
  ∧ List.filter isRender (eventsOf 0 (trace σ2)) = [EvRender "C" 200].
Proof. vm_compute. done. Qed.

(** Partial coverage: A and B stored, source list [A, B, C]. *)
Lemma restoration_outcome_witness :
  restorationEffect (settledUpstream [photoA; photoB; photoC] 100) storeAB
    initialState
  = [SetState {| cachedPhotos := [];
                 cachedPhotosLoadingState := RESTORING_FROM_CACHE |};
     SetState {| cachedPhotos := [entryOf ("A"%string, 100%Z) "a.jpg"%string;
                                  entryOf ("B"%string, 100%Z) "b.jpg"%string];
                 cachedPhotosLoadingState := RESTORED_FROM_CACHE |}].
Proof.
  pose proof (restoration_outcome sampleDevice []
                (settledUpstream [photoA; photoB; photoC] 100) storeAB
                initialState (mount storeAB)) as Hw.
  destruct Hw as [Hw _]; [discriminate|discriminate|reflexivity|reflexivity|].
  rewrite Hw. vm_compute. reflexivity.
Defined.

(** C3 as stated fails: with A and B both in the store and source list
    [A, B], restoration ends in [COMPLETED], never in
    [RESTORED_FROM_CACHE], and no calculation pass runs after it. *)
Lemma full_coverage_restores_to_completed :
  let up := settledUpstream [photoA; photoB] 100 in
  restorationEffect up storeAB initialState
  = [SetState {| cachedPhotos := [];
                 cachedPhotosLoadingState := RESTORING_FROM_CACHE |};
     SetState {| cachedPhotos := [entryOf ("A"%string, 100%Z) "a.jpg"%string;
                                  entryOf ("B"%string, 100%Z) "b.jpg"%string];
                 cachedPhotosLoadingState := COMPLETED |}]
  ∧ ∀ d scheds,
      cachedPhotosLoadingState
        (hk_state (restoreThenCalculate d scheds up storeAB)) = COMPLETED
      ∧ hk_passes (restoreThenCalculate d scheds up storeAB) = [].
Proof. split; [vm_compute; reflexivity|]. intros d scheds. done. Qed.

(** The broken photo first among twenty-six, every batch run call after
    call. *)
Lemma failed_render_aborts_pass_witness :
  ∃ out st',
    calculateCachedPhotos sampleDevice brokenFirst 100%Z
      (sequentialSchedules brokenFirst) ∅
      {| cachedPhotos := []; cachedPhotosLoadingState := RESTORED_FROM_CACHE |}
    = Some (out, st')
    ∧ out ≠ PassReturned
    ∧ ps_updates st' ≤ 0
    ∧ cachedPhotosLoadingState (ps_state st') ≠ COMPLETED
    ∧ eventsOf 25 (ps_trace st') = [].
Proof.
  destruct (failed_render_aborts_pass sampleDevice brokenFirst 100%Z
              (sequentialSchedules brokenFirst) ∅
              {| cachedPhotos := [];
                 cachedPhotosLoadingState := RESTORED_FROM_CACHE |}
              0 photoBroken)
    as [(out & st' & Hpass & Hout & _ & Hu & _ & _ & Hnc & Hev & _) _];
    [reflexivity|reflexivity|reflexivity|].
  exists out, st'. split_and!; [done|done|done| |].
  - apply Hnc; [reflexivity|discriminate].
  - apply Hev. done.
Defined.

(** C4 as stated fails: of twenty-six photos the first one's render fails.
    Run call after call, the pass throws; nothing is published, although
    the twenty-four other items of the first batch were rendered and stored;
    and the second batch is never started: its item is never looked up and
    never stored.  Under no schedule does the pass return or publish. *)
Lemma failed_render_halts_the_pass :
  let st0 := {| cachedPhotos := [];
                cachedPhotosLoadingState := RESTORED_FROM_CACHE |} in
  (∃ st',
     calculateCachedPhotos sampleDevice brokenFirst 100%Z
       (sequentialSchedules brokenFirst) ∅ st0 = Some (PassThrew, st')
     ∧ ps_state st' = st0
     ∧ ps_updates st' = 0
     ∧ ps_store st' !! ("a"%string, 100%Z) = Some "file:///cache/a"%string
     ∧ ps_store st' !! ("x"%string, 100%Z) = Some "file:///cache/x"%string
     ∧ brokenFirst !! 25 = Some {| uri := "y" |}
     ∧ ps_store st' !! ("y"%string, 100%Z) = None
     ∧ eventsOf 25 (ps_trace st') = [])
  ∧ ∀ scheds, ∃ out st',
      calculateCachedPhotos sampleDevice brokenFirst 100%Z scheds ∅ st0
      = Some (out, st')
      ∧ out ≠ PassReturned
      ∧ ps_state st' = st0.
Proof.
  intros st0. split.
  - eexists. split; [vm_compute; reflexivity|]. vm_compute. done.
  - intros scheds.
    destruct (calculateCachedPhotos_total sampleDevice brokenFirst 100%Z
                scheds ∅ st0) as [[out st'] Hpass].
    exists out, st'. split; [done|].
    unfold calculateCachedPhotos in Hpass.
    destruct (loop_failing _ _ _ _ _ _ _ _ _ 0 photoBroken Hpass)
      as (Hout & _ & j & _ & Hj & _ & Hj0 & _); [lia|done|done|].
    split; [done|]. apply Hj0.
    unfold PROCESSING_BATCH_SIZE_LIMIT in Hj. lia.
Qed.

(** A recalculation at width 200 from [COMPLETED], with entries of widths
    100 and 200 in the store: both are gone. *)
Lemma recalculate_clears_store_and_state_witness :
  let hk := hookIn storeTwoWidths
              [entryOf ("A"%string, 200%Z) "a200.jpg"%string] COMPLETED in
  let after :=
    performAll sampleDevice [] (settledUpstream [] 200%Z) hk
      [ClearCache;
       SetState {| cachedPhotos := []; cachedPhotosLoadingState := CALCULATING |}] in
  hk_store hk !! ("A"%string, 100%Z) = Some "a100.jpg"%string
  ∧ getPhotoFromCache (hk_store after) ("A"%string, 100%Z) = None
  ∧ getPhotoFromCache (hk_store after) ("A"%string, 200%Z) = None
  ∧ hk_state after
    = {| cachedPhotos := []; cachedPhotosLoadingState := CALCULATING |}.
Proof.
  intros hk after.
  destruct (recalculate_clears_store_and_state sampleDevice []
              (settledUpstream [] 200%Z) hk)
    as (_ & _ & _ & Hget & _ & Hst & _); [discriminate|discriminate|].
  split_and!; [reflexivity|apply Hget|apply Hget|exact Hst].
Defined.



(** An empty store and source list [A, B, C]: the pass returns with the
    entries of A, B, C in that order. *)
Lemma published_in_source_order_witness :
  ∃ st',
    calculateCachedPhotos sampleDevice [photoA; photoB; photoC] 100%Z
      (sequentialSchedules [photoA; photoB; photoC]) ∅
      {| cachedPhotos := []; cachedPhotosLoadingState := RESTORED_FROM_CACHE |}
    = Some (PassReturned, st')
    ∧ entryKey <$> cachedPhotos (ps_state st')
      = [("A"%string, 100%Z); ("B"%string, 100%Z); ("C"%string, 100%Z)].
Proof.
  eexists. split; [vm_compute; reflexivity|].
  eapply (published_in_source_order sampleDevice [photoA; photoB; photoC]
            100%Z (sequentialSchedules [photoA; photoB; photoC]) ∅
            {| cachedPhotos := [];
               cachedPhotosLoadingState := RESTORED_FROM_CACHE |});
    [reflexivity|vm_compute; reflexivity|reflexivity].
Defined.

Section PassShape.
Context {Measure : Type} `{Countable Measure}.

Local Abbreviation CacheKey := (string * Measure)%type.
Local Abbreviation Store := (gmap (string * Measure) string).

Implicit Types (d : @Device Measure) (batch photos : list MediaLibraryPhoto)
  (w : Measure) (photo : MediaLibraryPhoto) (i j m n : nat)
  (scheds : list (list nat)) (st : @State Measure).

Local Ltac pass_simpl :=
  cbn [ps_state ps_store ps_updates ps_trace] in *.

(** X1.  A calculation pass that returns has called [setState] once per
    batch, that is ceil(N / 25) times for N photos, the number the function
    announces as [expectedBatchesCount]; a pass that throws or stalls has
    made fewer calls. *)
Theorem pass_update_count d photos w scheds (s0 : Store) st0 out
    (st' : @PassState Measure _ _) :
  calculateCachedPhotos d photos w scheds s0 st0 = Some (out, st') →
  let expectedBatchesCount :=
    (length photos + (PROCESSING_BATCH_SIZE_LIMIT - 1))
    / PROCESSING_BATCH_SIZE_LIMIT in
  (out = PassReturned → ps_updates st' = expectedBatchesCount)
  ∧ (out ≠ PassReturned → ps_updates st' < expectedBatchesCount).
Proof.
  unfold calculateCachedPhotos. intros Hloop.
  destruct (loop_count _ _ _ _ _ _ _ _ _ Hloop)
    as (j & Hu & _ & Hj & Hret & Hnret).
  pass_simpl. simpl in Hu. subst. unfold PROCESSING_BATCH_SIZE_LIMIT in *.
  cbv zeta. change (25 - 1) with 24. split.
  - intros Ho. specialize (Hret Ho).
    apply (Nat.div_unique _ 25 _ (length photos + 24 - 25 * ps_updates st'));
      lia.
  - intros Ho. specialize (Hnret Ho).
    apply Nat.div_le_lower_bound; lia.
Qed.

(** X2.  A calculation pass only appends, and in whole batches: whatever
    its schedules and however it ends, the list it leaves is the list it
    found followed by the entries of the first min(25 u, N) photos, in
    source order, where u is the number of its [setState] calls; and if it
    did not return, that is fewer than N. *)
Theorem pass_appends_whole_batches d photos w scheds (s0 : Store) st0 out
    (st' : @PassState Measure _ _) :
  calculateCachedPhotos d photos w scheds s0 st0 = Some (out, st') →
  ∃ es,
    cachedPhotos (ps_state st') = cachedPhotos st0 ++ es
    ∧ length es
      = (PROCESSING_BATCH_SIZE_LIMIT * ps_updates st') `min` length photos
    ∧ mapM (expectedEntry s0 d w) (take (length es) photos) = Some es
    ∧ (out ≠ PassReturned → length es < length photos).
Proof.
  unfold calculateCachedPhotos. intros Hloop.
  destruct (loop_published _ _ _ _ _ _ _ _ _ Hloop)
    as (j & es & Hu & Hcp & Hes & Hlen & _).
  destruct (loop_count _ _ _ _ _ _ _ _ _ Hloop)
    as (j' & Hu' & _ & _ & _ & Hnret).
  pass_simpl. simpl in Hu, Hu'. rewrite drop_0 in Hes.
  rewrite Nat.sub_0_r in Hlen. subst.
  exists es. split_and!; [done|done|done|].
  intros Ho. specialize (Hnret Ho). rewrite Hlen.
  unfold PROCESSING_BATCH_SIZE_LIMIT in *. lia.
Qed.

(** X3.  A calculation pass never removes or replaces a stored entry, and
    it never touches a key that is not the key of one of its photos at its
    own width: entries of other widths and of other photos stay as they
    are.  What it adds under a key is what the render primitive gave for
    it.  This holds under every schedule and for every way the pass
    ends. *)
Theorem pass_only_adds_own_keys d photos w scheds (s0 : Store) st0 out
    (st' : @PassState Measure _ _) :
  calculateCachedPhotos d photos w scheds s0 st0 = Some (out, st') →
  (∀ k h, s0 !! k = Some h → ps_store st' !! k = Some h)
  ∧ (∀ u w', w' ≠ w → ps_store st' !! (u, w') = s0 !! (u, w'))
  ∧ (∀ k, (∀ photo, photo ∈ photos → k ≠ cacheKey (uri photo) w) →
          ps_store st' !! k = s0 !! k)
  ∧ (∀ k h, s0 !! k = None → ps_store st' !! k = Some h →
            render d k.1 (getPixelSizeForLayoutSize d k.2) = Some h).
Proof.
  unfold calculateCachedPhotos. intros Hloop.
  destruct (loop_store _ _ _ _ _ _ _ _ _ Hloop) as (Hkept & Hvals & Hframe).
  pass_simpl. split_and!; [done| |done|].
  - intros u w' Hw. apply Hframe. intros photo _. unfold cacheKey.
    congruence.
  - intros k h Hs0 Hk. apply Hvals in Hk. unfold settledHandle in Hk.
    by rewrite Hs0 in Hk.
Qed.

(** X4.  A calculation pass over a collection whose every key is already
    stored is a run of cache hits: under every schedule, and however far
    it gets, its only events are lookups that hit, it renders nothing and
    writes nothing, it leaves the store as it found it, and it does not
    throw. *)
Theorem fully_cached_pass_is_noop d photos w scheds (s0 : Store) st0 out
    (st' : @PassState Measure _ _) :
  (∀ photo, photo ∈ photos → is_Some (s0 !! cacheKey (uri photo) w)) →
  calculateCachedPhotos d photos w scheds s0 st0 = Some (out, st') →
  ps_store st' = s0
  ∧ out ≠ PassThrew
  ∧ (∀ n ev, (n, ev) ∈ ps_trace st' →
       ∃ photo, photos !! n = Some photo
                ∧ ev = EvLookup (cacheKey (uri photo) w) true).
Proof.
  unfold calculateCachedPhotos. intros Hall Hloop.
  destruct (loop_store _ _ _ _ _ _ _ _ _ Hloop) as (Hkept & Hvals & Hframe).
  destruct (loop_items _ _ _ _ _ _ _ _ _ Hloop) as (_ & Hbeyond & Hnew).
  pass_simpl. split_and!.
  - apply map_eq. intros k.
    destruct (s0 !! k) as [h|] eqn:Hk; [by apply Hkept|].
    rewrite <- Hk. apply Hframe. intros photo Hin ->.
    destruct (Hall photo Hin) as [h Hh]. congruence.
  - intros ->. destruct (loop_thrown _ _ _ _ _ _ _ _ Hloop)
      as (photo & Hin & He). pass_simpl.
    destruct (Hall photo Hin) as [h Hh].
    unfold expectedEntry, settledHandle in He. by rewrite Hh in He.
  - intros n ev Hin. apply trace_eventsOf in Hin.
    destruct (decide (n < length photos)) as [Hlt|Hge].
    + destruct (lookup_lt_is_Some_2 photos n Hlt) as [photo Hp].
      exists photo. split; [done|].
      destruct (Hnew n photo) as [Hpre|[Hnone _]]; [lia|done|done| |].
      * apply (prefix_elem _ _ _ Hpre) in Hin.
        by apply list_elem_of_singleton in Hin.
      * destruct (Hall photo) as [h Hh]; [|congruence].
        by eapply list_elem_of_lookup_2.
    + rewrite Hbeyond in Hin by lia. by set_unfold.
Qed.

(** X5.  Within one calculation pass every photo is looked up at most
    once, rendered at most once and written at most once, under every
    schedule and however the pass ends: the events of a photo are an
    initial part either of a single lookup that hit, or, for a key that was
    not stored when the pass started, of the sequence lookup miss, slot,
    render, release, write of the render's result. *)
Theorem item_history_in_pass d photos w scheds (s0 : Store) st0 out
    (st' : @PassState Measure _ _) n photo :
  calculateCachedPhotos d photos w scheds s0 st0 = Some (out, st') →
  photos !! n = Some photo →
  let k := cacheKey (uri photo) w in
  let evs := eventsOf n (ps_trace st') in
  (evs `prefix_of` [EvLookup k true]
   ∨ (s0 !! k = None ∧ evs `prefix_of` missHistory d w photo))
  ∧ length (List.filter isRender evs) ≤ 1
  ∧ length (List.filter isWrite evs) ≤ 1
  ∧ length (List.filter isAcquire evs) ≤ 1
  ∧ (∀ k' h, EvWrite k' h ∈ evs →
       k' = k
       ∧ render d (uri photo) (getPixelSizeForLayoutSize d w) = Some h
       ∧ EvRender (uri photo) (getPixelSizeForLayoutSize d w) ∈ evs).
Proof.
  intros Hloop Hp k evs. unfold calculateCachedPhotos in Hloop.
  destruct (loop_items _ _ _ _ _ _ _ _ _ Hloop) as (_ & _ & Hnew).
  pass_simpl.
  specialize (Hnew n photo (Nat.le_0_l n) Hp eq_refl). fold k evs in Hnew.
  split; [done|].
  assert (Hcount : ∀ f : Event → bool,
            length (List.filter f [EvLookup k true]) ≤ 1 →
            length (List.filter f (missHistory d w photo)) ≤ 1 →
            length (List.filter f evs) ≤ 1).
  { intros f Hhit Hmiss. destruct Hnew as [Hpre|[_ Hpre]];
      apply (prefix_filter_length f) in Hpre; lia. }
  unfold missHistory, missPrefix in *.
  split_and!.
  - apply Hcount; [simpl; lia|]. destruct (render d _ _); simpl; lia.
  - apply Hcount; [simpl; lia|]. destruct (render d _ _); simpl; lia.
  - apply Hcount; [simpl; lia|]. destruct (render d _ _); simpl; lia.
  - intros k' h Hin. destruct Hnew as [Hpre|[_ Hpre]].
    + apply (prefix_elem _ _ _ Hpre) in Hin.
      by apply list_elem_of_singleton in Hin.
    + pose proof (prefix_elem _ _ _ Hpre Hin) as HinH.
      apply prefix_take in Hpre.
      destruct (render d (uri photo) (getPixelSizeForLayoutSize d w))
        as [r|] eqn:Hr; simpl in HinH, Hpre;
        repeat rewrite elem_of_cons in HinH; rewrite elem_of_nil in HinH;
        [|naive_solver].
      assert (k' = k ∧ h = r) as [-> ->] by naive_solver.
      split_and!; [done|done|].
      rewrite Hpre in Hin |- *.
      destruct (length evs) as [|[|[|[|[|c]]]]]; simpl in Hin |- *;
        repeat rewrite elem_of_cons in Hin; try rewrite elem_of_nil in Hin;
        repeat rewrite elem_of_cons; naive_solver.
Qed.

(** X6.  As long as the lookups and the writes of the cache service
    succeed, as they do in this development, nothing but a failed render
    makes a calculation pass throw: when every photo either has its entry
    stored or renders successfully, no order of resumption, no wait for
    the limiter and no batch join makes the pass throw, and some schedule
    makes it return.  (A lookup or a write that failed would reject its
    call as a failed render does: neither is caught.) *)
Theorem renders_succeed_pass_does_not_throw d photos w (s0 : Store) st0 :
  (∀ photo, photo ∈ photos → is_Some (expectedEntry s0 d w photo)) →
  (∀ scheds (st' : @PassState Measure _ _),
     calculateCachedPhotos d photos w scheds s0 st0 ≠ Some (PassThrew, st'))
  ∧ ∃ scheds (st' : @PassState Measure _ _),
      calculateCachedPhotos d photos w scheds s0 st0
      = Some (PassReturned, st').
Proof.
  intros Hall. split.
  - intros scheds st' Hloop. unfold calculateCachedPhotos in Hloop.
    destruct (loop_thrown _ _ _ _ _ _ _ _ Hloop) as (photo & Hin & He).
    pass_simpl. destruct (Hall photo Hin) as [e He']. congruence.
  - unfold calculateCachedPhotos. apply loop_can_return; [lia|done].
Qed.

(** X7.  The calls of a batch can be resumed in any order without changing
    the result: any two schedules that bring every call of the batch to
    its end leave the same store and the same outcome for every call, and
    the limiter idle with no slot held, also when renders failed. *)
Theorem settled_batch_schedule_independent (s0 : Store) d batch w
    sched1 sched2 :
  let σ1 := run d batch w sched1 (spawn s0 batch) in
  let σ2 := run d batch w sched2 (spawn s0 batch) in
  allSettled σ1 = true → allSettled σ2 = true →
  store σ1 = store σ2
  ∧ phases σ1 = phases σ2
  ∧ promiseAll (phases σ1) = promiseAll (phases σ2)
  ∧ limiter σ1 = cacheCalculationLimiter
  ∧ limiter σ2 = cacheCalculationLimiter.
Proof.
  intros σ1 σ2 Hall1 Hall2.
  pose proof (batch_consistent s0 d batch w sched1) as Hc1. fold σ1 in Hc1.
  pose proof (batch_consistent s0 d batch w sched2) as Hc2. fold σ2 in Hc2.
  assert (Hph : phases σ1 = phases σ2).
  { apply list_eq. intros i.
    destruct (batch !! i) as [photo|] eqn:Hp.
    - destruct (call_history _ _ _ _ _ _ _ Hc1 Hp) as (ph1 & Hi1 & _).
      destruct (call_history _ _ _ _ _ _ _ Hc2 Hp) as (ph2 & Hi2 & _).
      pose proof (allSettled_true _ _ _ Hall1 Hi1) as Hs1.
      pose proof (allSettled_true _ _ _ Hall2 Hi2) as Hs2.
      rewrite Hi1, Hi2. f_equal.
      destruct ph1 as [| | |?|e1|], ph2 as [| | |?|e2|]; try done.
      + destruct (resolved_expected _ _ _ _ _ _ _ _ Hc1 Hp Hi1) as [He1 _].
        destruct (resolved_expected _ _ _ _ _ _ _ _ Hc2 Hp Hi2) as [He2 _].
        congruence.
      + destruct (resolved_expected _ _ _ _ _ _ _ _ Hc1 Hp Hi1) as [He1 _].
        pose proof (rejected_expected _ _ _ _ _ _ _ Hc2 Hp Hi2). congruence.
      + destruct (resolved_expected _ _ _ _ _ _ _ _ Hc2 Hp Hi2) as [He2 _].
        pose proof (rejected_expected _ _ _ _ _ _ _ Hc1 Hp Hi1). congruence.
    - apply lookup_ge_None in Hp.
      rewrite !(proj2 (lookup_ge_None _ _)); [done|..].
      + by rewrite (cons_length _ _ _ _ _ Hc2).
      + by rewrite (cons_length _ _ _ _ _ Hc1). }
  split_and!.
  - by rewrite (settled_store _ _ _ _ _ Hc1 Hall1),
      (settled_store _ _ _ _ _ Hc2 Hall2).
  - done.
  - by rewrite Hph.
  - by eapply fulfilled_limiter_idle.
  - by eapply fulfilled_limiter_idle.
Qed.

End PassShape.

Section HookFacts.
Context {Measure : Type} `{Countable Measure}.

Local Abbreviation CacheKey := (string * Measure)%type.
Local Abbreviation Store := (gmap (string * Measure) string).

Implicit Types (d : @Device Measure) (photos : list MediaLibraryPhoto)
  (w : Measure) (scheds : list (list nat)) (st : @State Measure)
  (up : @Upstream Measure) (hk : @Hook Measure _ _)
  (ev : @HookEvent Measure).

Local Ltac pass_simpl :=
  cbn [ps_state ps_store ps_updates ps_trace] in *.

Lemma perform_Calculate d scheds up hk :
  ∃ out (st' : @PassState Measure _ _),
    calculateCachedPhotos d (mediaLibraryPhotos up) (singleImageSize up)
      scheds (hk_store hk) (hk_state hk) = Some (out, st')
    ∧ perform d scheds up hk Calculate
      = {| hk_store := ps_store st'; hk_state := ps_state st';
           hk_warnings := hk_warnings hk;
           hk_passes := hk_passes hk ++ [Some (out, st')] |}.
Proof.
  destruct (calculateCachedPhotos_total d (mediaLibraryPhotos up)
              (singleImageSize up) scheds (hk_store hk) (hk_state hk))
    as [[out st'] Hpass].
  exists out, st'. split; [done|]. simpl. by rewrite Hpass.
Qed.

(** The state a pass leaves: the one it found, or one set by its updater. *)
Lemma pass_state d photos w scheds (s0 : Store) st0 out
    (st' : @PassState Measure _ _) :
  calculateCachedPhotos d photos w scheds s0 st0 = Some (out, st') →
  ps_state st' = st0
  ∨ cachedPhotosLoadingState (ps_state st')
    = if decide (length (cachedPhotos (ps_state st')) = length photos)
      then COMPLETED else CALCULATING.
Proof.
  unfold calculateCachedPhotos. intros Hloop.
  destruct (loop_published _ _ _ _ _ _ _ _ _ Hloop)
    as (j & es & _ & _ & _ & _ & Hj0 & Hjp).
  pass_simpl. destruct (decide (j = 0)) as [Hz|Hnz]; [left; auto|].
  right. apply Hjp. lia.
Qed.

Lemma restorationEffect_not_idle up (s : Store) st :
  cachedPhotosLoadingState st ≠ IDLE → restorationEffect up s st = [].
Proof.
  intros Hst. unfold restorationEffect.
  rewrite (bool_decide_eq_true_2 _ Hst). by destruct (_ || _ || _).
Qed.

Lemma loadAll_nil_iff (s : Store) photos w :
  loadAllPhotosFromCache s photos w = [] ↔
  ∀ photo, photo ∈ photos → s !! cacheKey (uri photo) w = None.
Proof.
  unfold loadAllPhotosFromCache. induction photos as [|photo photos IH].
  - split; [|done]. intros _ photo Hin. by apply elem_of_nil in Hin.
  - simpl. unfold getPhotoFromCache at 1.
    destruct (s !! cacheKey (uri photo) w) as [h|] eqn:Hk; simpl.
    + split; [done|]. intros Hall.
      specialize (Hall photo (list_elem_of_here _ _)). congruence.
    + rewrite IH. split.
      * intros Hall photo' [->|Hin]%elem_of_cons; auto.
      * intros Hall photo' Hin. apply Hall. by right.
Qed.

Lemma loadAll_settled (s0 : Store) d w photos es :
  mapM (expectedEntry s0 d w) photos = Some es →
  loadAllPhotosFromCache (settle s0 d w photos) photos w = es.
Proof.
  intros Hes. unfold loadAllPhotosFromCache.
  assert (Hsub : ∀ l es', l ⊆ photos →
            mapM (expectedEntry s0 d w) l = Some es' →
            omap (λ photo, getPhotoFromCache (settle s0 d w photos)
                             (cacheKey (uri photo) w)) l = es').
  { intros l. induction l as [|photo l IH]; intros es' Hl Hm.
    - apply mapM_Some, Forall2_nil_inv_l in Hm. by subst.
    - apply mapM_Some, Forall2_cons_inv_l in Hm as (e & es'' & He & Hm & ->).
      apply mapM_Some in Hm. simpl.
      assert (Hget : getPhotoFromCache (settle s0 d w photos)
                       (cacheKey (uri photo) w) = Some e).
      { unfold getPhotoFromCache. rewrite settle_lookup.
        rewrite decide_True; [done|].
        apply list_elem_of_fmap. exists photo. split; [done|].
        apply Hl. left. }
      rewrite Hget. f_equal. apply IH; [|done].
      intros x Hx. apply Hl. by right. }
  by apply Hsub.
Qed.

End HookFacts.

Section HookRuns.
Context {Measure : Type} `{Countable Measure}.

Local Abbreviation CacheKey := (string * Measure)%type.
Local Abbreviation Store := (gmap (string * Measure) string).

Implicit Types (d : @Device Measure) (photos : list MediaLibraryPhoto)
  (w : Measure) (scheds : list (list nat)) (st : @State Measure)
  (up : @Upstream Measure) (hk : @Hook Measure _ _)
  (ev : @HookEvent Measure).

Local Ltac pass_simpl :=
  cbn [ps_state ps_store ps_updates ps_trace] in *.

Lemma restorationEffect_idle up (s : Store) st :
  galleryUISettingsStateRestorationStatus up ≠ RESTORING →
  mediaLibraryStateRestorationStatus up ≠ RESTORING →
  mediaLibraryLoadingState up = ML_COMPLETED →
  cachedPhotosLoadingState st = IDLE →
  let cached :=
    loadAllPhotosFromCache s (mediaLibraryPhotos up) (singleImageSize up) in
  restorationEffect up s st
  = [SetState {| cachedPhotos := [];
                 cachedPhotosLoadingState := RESTORING_FROM_CACHE |};
     SetState {| cachedPhotos := cached;
                 cachedPhotosLoadingState :=
                   if bool_decide (cached ≠ []
                                   ∧ length cached
                                     = length (mediaLibraryPhotos up))
                   then COMPLETED else RESTORED_FROM_CACHE |}].
Proof.
  intros Hg Hm Hl Hidle cached. unfold restorationEffect.
  rewrite (bool_decide_eq_false_2 _ Hg), (bool_decide_eq_false_2 _ Hm).
  rewrite (bool_decide_eq_false_2 (_ ≠ ML_COMPLETED)) by (by intros []).
  rewrite (bool_decide_eq_false_2 (_ ≠ IDLE)) by (by intros []).
  simpl. fold cached. destruct cached as [|e cached'] eqn:Hc; [done|].
  rewrite (bool_decide_eq_false_2 (length (e :: cached') = 0)) by done.
  do 3 f_equal. repeat case_bool_decide; naive_solver.
Qed.

(** X8.  First mount on a collection none of whose photos is cached: when
    the calculation pass returns, the hook is in [COMPLETED] with exactly
    one entry per photo, in source order, each holding what the render
    primitive gave for that photo at the device width, and each is stored
    under the photo's key. *)
Theorem mount_without_cache_completes d scheds up (s : Store)
    (st' : @PassState Measure _ _) :
  galleryUISettingsStateRestorationStatus up ≠ RESTORING →
  mediaLibraryStateRestorationStatus up ≠ RESTORING →
  mediaLibraryLoadingState up = ML_COMPLETED →
  mediaLibraryPhotos up ≠ [] →
  (∀ photo, photo ∈ mediaLibraryPhotos up →
     s !! cacheKey (uri photo) (singleImageSize up) = None) →
  calculateCachedPhotos d (mediaLibraryPhotos up) (singleImageSize up) scheds
    s {| cachedPhotos := []; cachedPhotosLoadingState := RESTORED_FROM_CACHE |}
  = Some (PassReturned, st') →
  let hk := restoreThenCalculate d scheds up s in
  cachedPhotosLoadingState (hk_state hk) = COMPLETED
  ∧ length (cachedPhotos (hk_state hk)) = length (mediaLibraryPhotos up)
  ∧ Forall2 (λ photo e,
               ∃ resultUri,
                 render d (uri photo)
                   (getPixelSizeForLayoutSize d (singleImageSize up))
                 = Some resultUri
                 ∧ e = entryOf (cacheKey (uri photo) (singleImageSize up))
                         resultUri
                 ∧ hk_store hk !! cacheKey (uri photo) (singleImageSize up)
                   = Some resultUri)
            (mediaLibraryPhotos up) (cachedPhotos (hk_state hk)).
Proof.
  intros Hg Hm Hl Hne Hnone Hpass hk.
  assert (Hload : loadAllPhotosFromCache s (mediaLibraryPhotos up)
                    (singleImageSize up) = []) by by apply loadAll_nil_iff.
  assert (Hhk : hk = {| hk_store := ps_store st'; hk_state := ps_state st';
                        hk_warnings := [];
                        hk_passes := [Some (PassReturned, st')] |}).
  { unfold hk, restoreThenCalculate.
    rewrite restorationEffect_idle by done. rewrite Hload. simpl.
    by rewrite Hpass. }
  rewrite Hhk. cbn [hk_state hk_store].
  unfold calculateCachedPhotos in Hpass.
  destruct (loop_returned _ _ _ _ _ _ _ _ Hpass)
    as (es & Hes & Hcp & Hst & Hls).
  pass_simpl. simpl in Hcp, Hls. rewrite drop_0 in Hes, Hst.
  pose proof (length_mapM _ _ _ Hes) as Hlen.
  assert (0 < length (mediaLibraryPhotos up)).
  { destruct (mediaLibraryPhotos up); [done|simpl; lia]. }
  split_and!.
  - rewrite Hls, decide_True by done. by rewrite decide_True.
  - by rewrite Hcp.
  - rewrite Hcp. apply mapM_Some in Hes.
    apply Forall2_same_length_lookup. split; [by eapply Forall2_length|].
    intros i photo e Hp He.
    pose proof (Forall2_lookup_lr _ _ _ _ _ _ Hes Hp He) as Hexp.
    assert (Hin : photo ∈ mediaLibraryPhotos up)
      by by eapply list_elem_of_lookup_2.
    cbv beta in Hexp.
    + unfold expectedEntry in Hexp.
      rewrite settledHandle_key in Hexp by auto.
      destruct (render d _ _) as [r|] eqn:Hr; [|done]. simplify_eq/=.
      exists r. split_and!; [done..|].
      rewrite Hst, settle_lookup, decide_True.
      * rewrite settledHandle_key by auto. done.
      * apply list_elem_of_fmap. eauto.
Qed.

(** X9.  A recalculation requested while the hook shows [COMPLETED] and
    nothing is in flight, and handled to the end of its pass before
    anything else is requested: when the pass returns, on a non-empty
    collection, the hook is in [COMPLETED] again with one freshly rendered
    entry per photo, in source order; the store then holds the entries of
    the current collection at the current width and nothing else. *)
Theorem recalculation_completes d scheds up hk
    (st' : @PassState Measure _ _) :
  cachedPhotosLoadingState (hk_state hk) = COMPLETED →
  atRest hk = true →
  mediaLibraryPhotos up ≠ [] →
  calculateCachedPhotos d (mediaLibraryPhotos up) (singleImageSize up) scheds
    ∅ {| cachedPhotos := []; cachedPhotosLoadingState := CALCULATING |}
  = Some (PassReturned, st') →
  let hk' := handle d hk (RecalculateCalled up scheds) in
  cachedPhotosLoadingState (hk_state hk') = COMPLETED
  ∧ Forall2 (λ photo e,
               ∃ resultUri,
                 render d (uri photo)
                   (getPixelSizeForLayoutSize d (singleImageSize up))
                 = Some resultUri
                 ∧ e = entryOf (cacheKey (uri photo) (singleImageSize up))
                         resultUri)
            (mediaLibraryPhotos up) (cachedPhotos (hk_state hk'))
  ∧ (∀ k, is_Some (hk_store hk' !! k) ↔
          ∃ photo, photo ∈ mediaLibraryPhotos up
                   ∧ k = cacheKey (uri photo) (singleImageSize up)).
Proof.
  intros Hdone _ Hne Hpass hk'.
  assert (Hc : cachedPhotosLoadingState (hk_state hk) ≠ CALCULATING)
    by (rewrite Hdone; discriminate).
  assert (Hr : cachedPhotosLoadingState (hk_state hk) ≠ RESTORING_FROM_CACHE)
    by (rewrite Hdone; discriminate).
  assert (Hhk : hk' = {| hk_store := ps_store st'; hk_state := ps_state st';
                         hk_warnings := hk_warnings hk;
                         hk_passes := hk_passes hk
                                      ++ [Some (PassReturned, st')] |}).
  { unfold hk', handle, recalculateCachedPhotos.
    rewrite (bool_decide_eq_false_2 _ Hc), (bool_decide_eq_false_2 _ Hr).
    simpl. unfold clearCache. by rewrite Hpass. }
  rewrite Hhk. cbn [hk_state hk_store].
  unfold calculateCachedPhotos in Hpass.
  destruct (loop_returned _ _ _ _ _ _ _ _ Hpass)
    as (es & Hes & Hcp & Hst & Hls).
  pass_simpl. simpl in Hcp, Hls. rewrite drop_0 in Hes, Hst.
  pose proof (length_mapM _ _ _ Hes) as Hlen.
  assert (0 < length (mediaLibraryPhotos up)).
  { destruct (mediaLibraryPhotos up); [done|simpl; lia]. }
  assert (Hexp : ∀ photo e,
            expectedEntry ∅ d (singleImageSize up) photo = Some e →
            ∃ r, render d (uri photo)
                   (getPixelSizeForLayoutSize d (singleImageSize up)) = Some r
                 ∧ e = entryOf (cacheKey (uri photo) (singleImageSize up)) r).
  { intros photo e He. unfold expectedEntry in He.
    rewrite settledHandle_key in He by apply lookup_empty.
    destruct (render d _ _) as [r|]; [|done]. simplify_eq/=. eauto. }
  split_and!.
  - rewrite Hls, decide_True by done. by rewrite decide_True.
  - rewrite Hcp. apply mapM_Some in Hes.
    eapply list.Forall2_impl; [exact Hes|]. intros photo e He. by apply Hexp.
  - clear Hls. intros k. rewrite Hst, settle_lookup. case_decide as Hin.
    + apply list_elem_of_fmap in Hin as (photo & -> & Hin). split; [eauto|].
      intros _. apply mapM_Some in Hes.
      apply list_elem_of_lookup_1 in Hin as [i Hp].
      destruct (Forall2_lookup_l _ _ _ _ _ Hes Hp) as (e & _ & He).
      unfold expectedEntry in He.
      by destruct (settledHandle ∅ d _).
    + rewrite lookup_empty. split; [by intros [? ?]|].
      intros (photo & Hp & ->). exfalso. apply Hin.
      apply list_elem_of_fmap. eauto.
Qed.

(** X10.  After a calculation pass that returned on a non-empty
    collection, a fresh mount over the store it left restores exactly the
    entries that pass appended, goes straight to [COMPLETED] and starts no
    pass: nothing is rendered again, whatever the device of the new
    mount. *)
Theorem remount_after_returned_pass d d' scheds scheds' up (s0 : Store) st0
    (st' : @PassState Measure _ _) :
  galleryUISettingsStateRestorationStatus up ≠ RESTORING →
  mediaLibraryStateRestorationStatus up ≠ RESTORING →
  mediaLibraryLoadingState up = ML_COMPLETED →
  mediaLibraryPhotos up ≠ [] →
  calculateCachedPhotos d (mediaLibraryPhotos up) (singleImageSize up) scheds
    s0 st0 = Some (PassReturned, st') →
  ∃ es,
    cachedPhotos (ps_state st') = cachedPhotos st0 ++ es
    ∧ restoreThenCalculate d' scheds' up (ps_store st')
      = {| hk_store := ps_store st';
           hk_state := {| cachedPhotos := es;
                          cachedPhotosLoadingState := COMPLETED |};
           hk_warnings := [];
           hk_passes := [] |}.
Proof.
  intros Hg Hm Hl Hne Hpass.
  unfold calculateCachedPhotos in Hpass.
  destruct (loop_returned _ _ _ _ _ _ _ _ Hpass)
    as (es & Hes & Hcp & Hst & _).
  pass_simpl. rewrite drop_0 in Hes, Hst.
  pose proof (length_mapM _ _ _ Hes) as Hlen.
  exists es. split; [done|].
  unfold restoreThenCalculate.
  rewrite restorationEffect_idle by done.
  rewrite Hst, (loadAll_settled _ _ _ _ _ Hes).
  rewrite bool_decide_eq_true_2; [done|]. split; [|done].
  intros ->. destruct (mediaLibraryPhotos up); done.
Qed.

(** In [CALCULATING] nothing but a warning happens. *)
Lemma handle_calculating d hk ev :
  cachedPhotosLoadingState (hk_state hk) = CALCULATING →
  hk_store (handle d hk ev) = hk_store hk
  ∧ hk_state (handle d hk ev) = hk_state hk
  ∧ hk_passes (handle d hk ev) = hk_passes hk.
Proof.
  intros Hst. destruct ev as [up|up scheds|up scheds]; simpl.
  - rewrite restorationEffect_not_idle by (by rewrite Hst). done.
  - unfold calculationEffect. rewrite Hst. done.
  - unfold recalculateCachedPhotos. rewrite Hst. done.
Qed.

(** X11.  A recalculation requested while the hook shows [COMPLETED] and
    nothing is in flight, whose pass throws, or that is asked for an empty
    collection, leaves the hook in [CALCULATING]; and from then on nothing
    moves it: the effects do nothing and every further recalculation
    request is refused, so the state stays as it is and no pass is ever
    started again. *)
Theorem failed_recalculation_locks_hook d up scheds hk out
    (st' : @PassState Measure _ _) :
  cachedPhotosLoadingState (hk_state hk) = COMPLETED →
  atRest hk = true →
  calculateCachedPhotos d (mediaLibraryPhotos up) (singleImageSize up) scheds
    ∅ {| cachedPhotos := []; cachedPhotosLoadingState := CALCULATING |}
  = Some (out, st') →
  out = PassThrew ∨ mediaLibraryPhotos up = [] →
  let hk' := handle d hk (RecalculateCalled up scheds) in
  cachedPhotosLoadingState (hk_state hk') = CALCULATING
  ∧ ∀ evs,
      hk_state (handleAll d hk' evs) = hk_state hk'
      ∧ hk_passes (handleAll d hk' evs) = hk_passes hk'.
Proof.
  intros Hdone _ Hpass Hwhy hk'.
  assert (Hc : cachedPhotosLoadingState (hk_state hk) ≠ CALCULATING)
    by (rewrite Hdone; discriminate).
  assert (Hr : cachedPhotosLoadingState (hk_state hk) ≠ RESTORING_FROM_CACHE)
    by (rewrite Hdone; discriminate).
  assert (Hhk : hk' = {| hk_store := ps_store st'; hk_state := ps_state st';
                         hk_warnings := hk_warnings hk;
                         hk_passes := hk_passes hk ++ [Some (out, st')] |}).
  { unfold hk', handle, recalculateCachedPhotos.
    rewrite (bool_decide_eq_false_2 _ Hc), (bool_decide_eq_false_2 _ Hr).
    simpl. unfold clearCache. by rewrite Hpass. }
  assert (Hst : cachedPhotosLoadingState (hk_state hk') = CALCULATING).
  { rewrite Hhk. cbn [hk_state].
    unfold calculateCachedPhotos in Hpass.
    destruct (loop_published _ _ _ _ _ _ _ _ _ Hpass)
      as (j & es & Hu & Hcp & _ & Hlen & Hj0 & Hjp).
    destruct (loop_count _ _ _ _ _ _ _ _ _ Hpass)
      as (j' & Hu' & _ & Hj' & _ & Hnret).
    pass_simpl. simpl in Hu, Hu', Hcp, Hj0, Hjp.
    assert (j' = j) as -> by lia.
    destruct (decide (j = 0)) as [Hz|Hnz]; [by rewrite Hj0|].
    rewrite Hjp, Hcp by lia. rewrite decide_False; [done|].
    rewrite Hlen. unfold PROCESSING_BATCH_SIZE_LIMIT in *.
    destruct Hwhy as [Ho|Hnil].
    - assert (Ho' : out ≠ PassReturned) by (rewrite Ho; discriminate).
      specialize (Hnret Ho'). lia.
    - rewrite Hnil in Hj'. simpl in Hj'. lia. }
  split; [done|].
  intros evs. revert Hst. generalize hk' as h. clear.
  induction evs as [|ev evs IH]; intros h Hst; [done|].
  simpl. destruct (handle_calculating d h ev Hst) as (Hs1 & Hs2 & Hs3).
  destruct (IH (handle d h ev)) as (H2 & H3); [by rewrite Hs2|].
  unfold handleAll in *. rewrite H2, H3. done.
Qed.

Lemma handle_not_idle d hk ev :
  cachedPhotosLoadingState (hk_state hk) ≠ IDLE →
  cachedPhotosLoadingState (hk_state (handle d hk ev)) ≠ IDLE.
Proof.
  intros Hst. destruct ev as [up|up scheds|up scheds]; simpl.
  - by rewrite restorationEffect_not_idle.
  - unfold calculationEffect. case_bool_decide; [done|].
    destruct (perform_Calculate d scheds up hk) as (out & st' & Hpass & Heq).
    change (performAll d scheds up hk [Calculate])
      with (perform d scheds up hk Calculate).
    rewrite Heq. cbn [hk_state].
    destruct (pass_state _ _ _ _ _ _ _ _ Hpass) as [-> | ->]; [done|].
    by case_decide.
  - unfold recalculateCachedPhotos. destruct (_ || _); [done|].
    set (hk1 := performAll d scheds up hk
                  [ClearCache;
                   SetState {| cachedPhotos := [];
                               cachedPhotosLoadingState := CALCULATING |}]).
    destruct (perform_Calculate d scheds up hk1) as (out & st' & Hpass & Heq).
    change (cachedPhotosLoadingState
              (hk_state (perform d scheds up hk1 Calculate)) ≠ IDLE).
    rewrite Heq. cbn [hk_state].
    destruct (pass_state _ _ _ _ _ _ _ _ Hpass) as [-> | ->]; [done|].
    by case_decide.
Qed.

(** X12.  The hook leaves [IDLE] once and for all: no effect and no
    recalculation ever sets it back.  Hence the restoration effect runs at
    most once per mount; when it runs again later, even with another
    width or another collection, it does nothing. *)
Theorem hook_leaves_idle_for_good d hk evs up :
  cachedPhotosLoadingState (hk_state hk) ≠ IDLE →
  cachedPhotosLoadingState (hk_state (handleAll d hk evs)) ≠ IDLE
  ∧ handle d (handleAll d hk evs) (RestorationRuns up) = handleAll d hk evs.
Proof.
  intros Hst.
  assert (Hni : cachedPhotosLoadingState (hk_state (handleAll d hk evs))
                ≠ IDLE).
  { revert hk Hst. induction evs as [|ev evs IH]; intros hk Hst; [done|].
    simpl. apply IH. by apply handle_not_idle. }
  split; [done|]. simpl. by rewrite restorationEffect_not_idle.
Qed.

Lemma pass_state_cases d photos w scheds (s0 : Store) st0 out
    (st' : @PassState Measure _ _) :
  calculateCachedPhotos d photos w scheds s0 st0 = Some (out, st') →
  ps_state st' = st0
  ∨ (0 < length photos
     ∧ cachedPhotosLoadingState (ps_state st')
       = if decide (length (cachedPhotos (ps_state st')) = length photos)
         then COMPLETED else CALCULATING).
Proof.
  unfold calculateCachedPhotos. intros Hloop.
  destruct (loop_published _ _ _ _ _ _ _ _ _ Hloop)
    as (j & es & Hu & _ & _ & _ & Hj0 & Hjp).
  destruct (loop_count _ _ _ _ _ _ _ _ _ Hloop)
    as (j' & Hu' & _ & Hj' & _).
  pass_simpl. simpl in Hu, Hu'. assert (j' = j) as -> by lia.
  destruct (decide (j = 0)) as [Hz|Hnz]; [left; auto|].
  right. split; [lia|]. apply Hjp. lia.
Qed.

Lemma handle_completed d hk ev :
  (cachedPhotosLoadingState (hk_state hk) = COMPLETED →
   length (cachedPhotos (hk_state hk))
   = length (mediaLibraryPhotos (eventUpstream ev))
   ∧ 0 < length (mediaLibraryPhotos (eventUpstream ev))) →
  cachedPhotosLoadingState (hk_state (handle d hk ev)) = COMPLETED →
  length (cachedPhotos (hk_state (handle d hk ev)))
  = length (mediaLibraryPhotos (eventUpstream ev))
  ∧ 0 < length (mediaLibraryPhotos (eventUpstream ev)).
Proof.
  intros Hinv. destruct ev as [up|up scheds|up scheds]; simpl.
  - unfold restorationEffect. destruct (_ || _ || _); [done|].
    case_bool_decide; [done|]. case_bool_decide as Hz; simpl; [done|].
    case_bool_decide as Hfull; [|done]. intros _. split; [done|].
    rewrite <- Hfull. lia.
  - unfold calculationEffect. case_bool_decide; [done|].
    destruct (perform_Calculate d scheds up hk) as (out & st' & Hpass & Heq).
    change (performAll d scheds up hk [Calculate])
      with (perform d scheds up hk Calculate).
    rewrite Heq. cbn [hk_state].
    destruct (pass_state_cases _ _ _ _ _ _ _ _ Hpass) as [-> | [Hpos ->]];
      [done|].
    by case_decide.
  - unfold recalculateCachedPhotos. destruct (_ || _); [done|].
    set (hk1 := performAll d scheds up hk
                  [ClearCache;
                   SetState {| cachedPhotos := [];
                               cachedPhotosLoadingState := CALCULATING |}]).
    destruct (perform_Calculate d scheds up hk1) as (out & st' & Hpass & Heq).
    change (cachedPhotosLoadingState
              (hk_state (perform d scheds up hk1 Calculate)) = COMPLETED →
            length (cachedPhotos
                      (hk_state (perform d scheds up hk1 Calculate)))
            = length (mediaLibraryPhotos up)
            ∧ 0 < length (mediaLibraryPhotos up)).
    rewrite Heq. cbn [hk_state].
    destruct (pass_state_cases _ _ _ _ _ _ _ _ Hpass) as [-> | [Hpos ->]];
      [done|].
    by case_decide.
Qed.

(** X13.  Whenever the hook shows [COMPLETED], the collection is not empty
    and the list has exactly one entry per photo: this holds after every
    sequence of effect runs and recalculation requests since the mount, as
    long as the size of the collection stays the same.  In particular an
    empty collection never reaches [COMPLETED]. *)
Theorem completed_means_full_count d (s : Store) evs n :
  Forall (λ ev, length (mediaLibraryPhotos (eventUpstream ev)) = n) evs →
  cachedPhotosLoadingState (hk_state (handleAll d (mount s) evs)) = COMPLETED →
  length (cachedPhotos (hk_state (handleAll d (mount s) evs))) = n ∧ 0 < n.
Proof.
  intros Hall.
  assert (Hgen : ∀ hk,
            (cachedPhotosLoadingState (hk_state hk) = COMPLETED →
             length (cachedPhotos (hk_state hk)) = n ∧ 0 < n) →
            cachedPhotosLoadingState (hk_state (handleAll d hk evs))
            = COMPLETED →
            length (cachedPhotos (hk_state (handleAll d hk evs))) = n
            ∧ 0 < n).
  { induction Hall as [|ev evs Hev _ IH]; intros hk Hinv; [done|].
    simpl. apply IH. rewrite <- Hev. apply handle_completed.
    by rewrite Hev. }
  apply Hgen. done.
Qed.

End HookRuns.

Section BatchProgress.
Context {Measure : Type} `{Countable Measure}.

Local Abbreviation CacheKey := (string * Measure)%type.
Local Abbreviation Store := (gmap (string * Measure) string).

Implicit Types (d : @Device Measure) (photos : list MediaLibraryPhoto)
  (w : Measure) (scheds : list (list nat)) (st : @State Measure)
  (up : @Upstream Measure) (hk : @Hook Measure _ _)
  (ev : @HookEvent Measure).

Lemma run_app d batch w sched1 sched2 (σ : @World Measure _ _) :
  run d batch w (sched1 ++ sched2) σ
  = run d batch w sched2 (run d batch w sched1 σ).
Proof.
  revert σ. induction sched1 as [|i sched1 IH]; intros σ; [done|].
  simpl. apply IH.
Qed.

(** A consistent batch settles within as many resumptions as it has work
    left. *)
Lemma settles_within (s0 : Store) d batch w (σ : @World Measure _ _) :
  Consistent s0 d batch w σ →
  ∃ sched, length sched ≤ workLeft σ
           ∧ allSettled (run d batch w sched σ) = true.
Proof.
  remember (workLeft σ) as n eqn:Hn. revert σ Hn.
  induction (lt_wf n) as [n _ IH]. intros σ -> Hc.
  destruct (allSettled σ) eqn:Hall; [exists []; split; [simpl; lia|done]|].
  destruct (progress _ _ _ _ _ Hc Hall) as (i & σ' & Hstep).
  pose proof (step_workLeft _ _ _ _ _ _ Hstep) as Hlt.
  destruct (IH (workLeft σ') Hlt σ' eq_refl) as (sched & Hlen & Hsched);
    [by eapply step_consistent|].
  exists (i :: sched). split; [simpl; lia|]. simpl. by rewrite Hstep.
Qed.

(** X14.  A batch never gets stuck.  Whatever has been resumed so far, in
    whatever order, the calls of the batch can all be brought to
    settlement by at most four more resumptions per call (lookup, slot,
    render, store), and [Promise.all] over them is then fulfilled or
    rejected: the limiter never starves a waiting call and no call waits
    on another. *)
Theorem batch_can_always_finish (s0 : Store) d batch w (sched : list nat) :
  ∃ rest,
    length rest ≤ 4 * length batch
    ∧ allSettled (run d batch w (sched ++ rest) (spawn s0 batch)) = true
    ∧ promiseAll (phases (run d batch w (sched ++ rest) (spawn s0 batch)))
      ≠ PendingP.
Proof.
  pose proof (batch_consistent s0 d batch w sched) as Hc.
  destruct (settles_within _ _ _ _ _ Hc) as (rest & Hlen & Hall).
  exists rest. rewrite run_app. split_and!; [|done|].
  - pose proof (workLeft_bound (run d batch w sched (spawn s0 batch))).
    rewrite (cons_length _ _ _ _ _ Hc) in *. lia.
  - destruct (promiseAll_settled _ Hall) as [->|[vs ->]]; done.
Qed.

End BatchProgress.

Section RestorationReads.
Context {Measure : Type} `{Countable Measure}.

Local Abbreviation Store := (gmap (string * Measure) string).

Implicit Types (d : @Device Measure) (photos : list MediaLibraryPhoto)
  (w : Measure) (up : @Upstream Measure) (hk : @Hook Measure _ _).

Lemma loadAll_sublist (s : Store) photos w :
  sublist (originalPhotoUri <$> loadAllPhotosFromCache s photos w)
          (uri <$> photos).
Proof.
  unfold loadAllPhotosFromCache. induction photos as [|photo photos IH];
    [done|].
  simpl. unfold getPhotoFromCache at 1.
  destruct (s !! cacheKey (uri photo) w) as [h|]; simpl.
  - by apply sublist_skip.
  - by apply sublist_cons.
Qed.

Lemma loadAll_entries (s : Store) photos w e :
  e ∈ loadAllPhotosFromCache s photos w →
  mipmapWidth e = w
  ∧ ∃ photo, photo ∈ photos ∧ originalPhotoUri e = uri photo
             ∧ s !! cacheKey (uri photo) w = Some (cachedPhotoUri e).
Proof.
  unfold loadAllPhotosFromCache. intros Hin.
  apply list_elem_of_omap in Hin as (photo & Hp & Hget).
  apply getPhotoFromCache_Some in Hget as [Hk He].
  split; [by rewrite He|]. exists photo. split_and!; [done| |done].
  by rewrite He.
Qed.

(** X15.  The restoration effect only reads.  It never writes or clears
    the store, never starts a calculation pass and never warns; the state
    it leaves is the one it found or a list read from the store, whose
    entries all carry the current width and the handle stored under their
    photo's key, in the order of the collection. *)
Theorem restoration_only_reads d hk up :
  let hk' := handle d hk (RestorationRuns up) in
  hk_store hk' = hk_store hk
  ∧ hk_passes hk' = hk_passes hk
  ∧ hk_warnings hk' = hk_warnings hk
  ∧ (hk_state hk' = hk_state hk
     ∨ (sublist (originalPhotoUri <$> cachedPhotos (hk_state hk'))
                (uri <$> mediaLibraryPhotos up)
        ∧ ∀ e, e ∈ cachedPhotos (hk_state hk') →
               mipmapWidth e = singleImageSize up
               ∧ ∃ photo, photo ∈ mediaLibraryPhotos up
                          ∧ originalPhotoUri e = uri photo
                          ∧ hk_store hk !! cacheKey (uri photo)
                                             (singleImageSize up)
                            = Some (cachedPhotoUri e))).
Proof.
  simpl. unfold restorationEffect.
  destruct (_ || _ || _); [by auto|].
  case_bool_decide; [by auto|].
  case_bool_decide as Hz; simpl; split_and!; try done; right.
  - split; [apply sublist_nil_l|]. by intros e ?%elem_of_nil.
  - split; [apply loadAll_sublist|]. intros e. apply loadAll_entries.
Qed.

End RestorationReads.

Section Duplicates.
Context {Measure : Type} `{Countable Measure}.

Local Abbreviation Store := (gmap (string * Measure) string).

Implicit Types (d : @Device Measure) (w : Measure).

(** X16.  Nothing joins two calls for the same key.  When a batch holds
    the same photo twice and its key is not stored, resuming the two calls
    in turn makes both lookups miss, and both calls are then rendering the
    same photo at the same width at the same time: the lookup and the
    write of a call are separate steps, and a call in flight is not
    visible to the lookup of another. *)
Theorem duplicate_photo_renders_twice d w (s0 : Store) photo photo' :
  uri photo' = uri photo →
  s0 !! cacheKey (uri photo) w = None →
  let batch := [photo; photo'] in
  let σ := run d batch w [0; 1; 0; 1] (spawn s0 batch) in
  phases σ = [Rendering; Rendering]
  ∧ inFlight σ = 2
  ∧ List.filter isRender (snd <$> trace σ)
    = [EvRender (uri photo) (getPixelSizeForLayoutSize d w);
       EvRender (uri photo) (getPixelSizeForLayoutSize d w)]
  ∧ List.filter isWrite (snd <$> trace σ) = [].
Proof.
  intros Huri Hnone batch σ.
  apply getPhotoFromCache_None in Hnone.
  assert (Hσ : σ = {| store := s0;
                      limiter := {| concurrency :=
                                      CACHE_CALCULATION_PARALLELISM_LIMIT;
                                    activeCount := 2; queue := [] |};
                      phases := [Rendering; Rendering];
                      trace :=
                        [(0, EvLookup (cacheKey (uri photo) w) false);
                         (1, EvLookup (cacheKey (uri photo) w) false);
                         (0, EvAcquire);
                         (0, EvRender (uri photo)
                               (getPixelSizeForLayoutSize d w));
                         (1, EvAcquire);
                         (1, EvRender (uri photo)
                               (getPixelSizeForLayoutSize d w))] |}).
  { unfold σ, batch, run, spawn, step. simpl. rewrite Huri, Hnone. simpl.
    rewrite Hnone. simpl. done. }
  rewrite Hσ. done.
Qed.

End Duplicates.

(** ** Sample passes and hook runs *)

(** An empty store and source list [A, B, C]: one batch, one [setState]. *)
Lemma pass_update_count_witness :
  ∃ st',
    calculateCachedPhotos sampleDevice [photoA; photoB; photoC] 100%Z
      (sequentialSchedules [photoA; photoB; photoC]) ∅
      {| cachedPhotos := []; cachedPhotosLoadingState := RESTORED_FROM_CACHE |}
    = Some (PassReturned, st')
    ∧ ps_updates st' = 1.
Proof.
  eexists. split; [vm_compute; reflexivity|].
  refine (proj1 (pass_update_count sampleDevice [photoA; photoB; photoC] 100%Z
                   (sequentialSchedules [photoA; photoB; photoC]) ∅
                   {| cachedPhotos := [];
                      cachedPhotosLoadingState := RESTORED_FROM_CACHE |}
                   PassReturned _ _) eq_refl).
  vm_compute. reflexivity.
Defined.

(** The same pass appends the three entries to the empty list it found. *)
Lemma pass_appends_whole_batches_witness :
  ∃ st',
    calculateCachedPhotos sampleDevice [photoA; photoB; photoC] 100%Z
      (sequentialSchedules [photoA; photoB; photoC]) ∅
      {| cachedPhotos := []; cachedPhotosLoadingState := RESTORED_FROM_CACHE |}
    = Some (PassReturned, st')
    ∧ ∃ es,
        cachedPhotos (ps_state st') = [] ++ es
        ∧ length es = (PROCESSING_BATCH_SIZE_LIMIT * ps_updates st') `min` 3
        ∧ mapM (expectedEntry ∅ sampleDevice 100%Z)
               (take (length es) [photoA; photoB; photoC]) = Some es
        ∧ (PassReturned ≠ PassReturned → length es < 3).
Proof.
  eexists. split; [vm_compute; reflexivity|].
  apply (pass_appends_whole_batches sampleDevice [photoA; photoB; photoC]
           100%Z (sequentialSchedules [photoA; photoB; photoC]) ∅
           {| cachedPhotos := [];
              cachedPhotosLoadingState := RESTORED_FROM_CACHE |}
           PassReturned).
  vm_compute. reflexivity.
Defined.

(** A pass at width 200 over [A, B], with A stored at widths 100 and 200:
    the entry of width 100 is still there, and C has none. *)
Lemma pass_only_adds_own_keys_witness :
  ∃ st',
    calculateCachedPhotos sampleDevice [photoA; photoB] 200%Z
      (sequentialSchedules [photoA; photoB]) storeTwoWidths
      {| cachedPhotos := []; cachedPhotosLoadingState := RESTORED_FROM_CACHE |}
    = Some (PassReturned, st')
    ∧ ps_store st' !! ("A"%string, 100%Z) = Some "a100.jpg"%string
    ∧ ps_store st' !! ("C"%string, 200%Z) = None.
Proof.
  eexists. split; [vm_compute; reflexivity|].
  destruct (pass_only_adds_own_keys sampleDevice [photoA; photoB] 200%Z
              (sequentialSchedules [photoA; photoB]) storeTwoWidths
              {| cachedPhotos := [];
                 cachedPhotosLoadingState := RESTORED_FROM_CACHE |}
              PassReturned _ eq_refl) as (Hkept & _ & Hother & _).
  split; [apply Hkept; reflexivity|].
  rewrite Hother; [reflexivity|].
  intros photo Hin.
  repeat (apply elem_of_cons in Hin as [->|Hin]); [discriminate..|].
  by apply elem_of_nil in Hin.
Defined.

(** A and B both stored: the pass over [A, B] changes nothing. *)
Lemma fully_cached_pass_is_noop_witness :
  ∃ st',
    calculateCachedPhotos sampleDevice [photoA; photoB] 100%Z
      (sequentialSchedules [photoA; photoB]) storeAB
      {| cachedPhotos := []; cachedPhotosLoadingState := RESTORED_FROM_CACHE |}
    = Some (PassReturned, st')
    ∧ ps_store st' = storeAB.
Proof.
  eexists. split; [vm_compute; reflexivity|].
  assert (Hall : ∀ photo, photo ∈ [photoA; photoB] →
            is_Some (storeAB !! cacheKey (uri photo) 100%Z)).
  { intros photo Hin.
    repeat (apply elem_of_cons in Hin as [->|Hin]); [by eexists..|].
    by apply elem_of_nil in Hin. }
  exact (proj1 (fully_cached_pass_is_noop sampleDevice [photoA; photoB] 100%Z
                  (sequentialSchedules [photoA; photoB]) storeAB
                  {| cachedPhotos := [];
                     cachedPhotosLoadingState := RESTORED_FROM_CACHE |}
                  PassReturned _ Hall eq_refl)).
Defined.

(** A and B stored, C not: in the pass over [A, B, C] the photo C is
    rendered at most once. *)
Lemma item_history_in_pass_witness :
  ∃ st',
    calculateCachedPhotos sampleDevice [photoA; photoB; photoC] 100%Z
      (sequentialSchedules [photoA; photoB; photoC]) storeAB
      {| cachedPhotos := []; cachedPhotosLoadingState := RESTORED_FROM_CACHE |}
    = Some (PassReturned, st')
    ∧ length (List.filter isRender (eventsOf 2 (ps_trace st'))) ≤ 1
    ∧ length (List.filter isWrite (eventsOf 2 (ps_trace st'))) ≤ 1.
Proof.
  eexists. split; [vm_compute; reflexivity|].
  destruct (item_history_in_pass sampleDevice [photoA; photoB; photoC] 100%Z
              (sequentialSchedules [photoA; photoB; photoC]) storeAB
              {| cachedPhotos := [];
                 cachedPhotosLoadingState := RESTORED_FROM_CACHE |}
              PassReturned _ 2 photoC eq_refl eq_refl)
    as (_ & Hrender & Hwrite & _).
  split; [exact Hrender|exact Hwrite].
Defined.

(** None of A, B, C is broken: no schedule makes the pass over them throw. *)
Lemma renders_succeed_pass_does_not_throw_witness :
  (∀ scheds st',
     calculateCachedPhotos sampleDevice [photoA; photoB; photoC] 100%Z scheds
       storeAB
       {| cachedPhotos := []; cachedPhotosLoadingState := RESTORED_FROM_CACHE |}
     ≠ Some (PassThrew, st'))
  ∧ ∃ scheds st',
      calculateCachedPhotos sampleDevice [photoA; photoB; photoC] 100%Z scheds
        storeAB
        {| cachedPhotos := []; cachedPhotosLoadingState := RESTORED_FROM_CACHE |}
      = Some (PassReturned, st').
Proof.
  apply (renders_succeed_pass_does_not_throw sampleDevice
           [photoA; photoB; photoC] 100%Z storeAB).
  intros photo Hin.
  repeat (apply elem_of_cons in Hin as [->|Hin]); [by eexists..|].
  by apply elem_of_nil in Hin.
Defined.

(** The batch [A, B, broken] run call after call, and run round robin. *)
Lemma settled_batch_schedule_independent_witness :
  let batch := [photoA; photoB; photoBroken] in
  let σ1 := run sampleDevice batch 100%Z (sequentialSchedule 3)
              (spawn ∅ batch) in
  let σ2 := run sampleDevice batch 100%Z [0; 1; 2; 0; 1; 2; 0; 1; 2; 0; 1; 2]
              (spawn ∅ batch) in
  store σ1 = store σ2
  ∧ phases σ1 = phases σ2
  ∧ promiseAll (phases σ1) = promiseAll (phases σ2)
  ∧ limiter σ1 = cacheCalculationLimiter
  ∧ limiter σ2 = cacheCalculationLimiter.
Proof.
  apply (settled_batch_schedule_independent ∅ sampleDevice
           [photoA; photoB; photoBroken] 100%Z (sequentialSchedule 3)
           [0; 1; 2; 0; 1; 2; 0; 1; 2; 0; 1; 2]);
    vm_compute; reflexivity.
Defined.

(** A mount at width 300 over [A, B, C] with only other widths stored. *)
Lemma mount_without_cache_completes_witness :
  let up := settledUpstream [photoA; photoB; photoC] 300%Z in
  let hk := restoreThenCalculate sampleDevice
              (sequentialSchedules [photoA; photoB; photoC]) up
              storeTwoWidths in
  cachedPhotosLoadingState (hk_state hk) = COMPLETED
  ∧ length (cachedPhotos (hk_state hk)) = 3.
Proof.
  intros up hk.
  destruct (mount_without_cache_completes sampleDevice
              (sequentialSchedules [photoA; photoB; photoC]) up storeTwoWidths
              (default (PassPending,
                        {| ps_store := ∅;
                           ps_state := initialState;
                           ps_updates := 0; ps_trace := [] |})
                 (calculateCachedPhotos sampleDevice [photoA; photoB; photoC]
                    300%Z (sequentialSchedules [photoA; photoB; photoC])
                    storeTwoWidths
                    {| cachedPhotos := [];
                       cachedPhotosLoadingState := RESTORED_FROM_CACHE |})).2)
    as (Hst & Hlen & _);
    [discriminate|discriminate|reflexivity|discriminate| |
     vm_compute; reflexivity|split; [exact Hst|exact Hlen]].
  intros photo Hin.
  repeat (apply elem_of_cons in Hin as [->|Hin]); [reflexivity..|].
  by apply elem_of_nil in Hin.
Defined.

(** A mount at width 300 over [A, B] on a store that holds other widths
    only; its pass returns and leaves [COMPLETED].  A recalculation is then
    requested: it ends in [COMPLETED], and the entry of width 100 is gone. *)
Lemma recalculation_completes_witness :
  let up := settledUpstream [photoA; photoB] 300%Z in
  let scheds := sequentialSchedules [photoA; photoB] in
  let hk := restoreThenCalculate sampleDevice scheds up storeTwoWidths in
  let hk' := handle sampleDevice hk (RecalculateCalled up scheds) in
  cachedPhotosLoadingState (hk_state hk) = COMPLETED
  ∧ length (hk_passes hk) = 1
  ∧ hk_store hk !! ("A"%string, 100%Z) = Some "a100.jpg"%string
  ∧ cachedPhotosLoadingState (hk_state hk') = COMPLETED
  ∧ ¬ is_Some (hk_store hk' !! ("A"%string, 100%Z)).
Proof.
  intros up scheds hk hk'.
  destruct (recalculation_completes sampleDevice scheds up hk
              (default (PassPending,
                        {| ps_store := ∅;
                           ps_state := initialState;
                           ps_updates := 0; ps_trace := [] |})
                 (calculateCachedPhotos sampleDevice [photoA; photoB]
                    300%Z scheds ∅
                    {| cachedPhotos := [];
                       cachedPhotosLoadingState := CALCULATING |})).2)
    as (Hst & _ & Hkeys);
    [vm_compute; reflexivity|vm_compute; reflexivity|discriminate|
     vm_compute; reflexivity|].
  split_and!; [vm_compute; reflexivity..|exact Hst|].
  intros (photo & Hin & Hk)%Hkeys.
  repeat (apply elem_of_cons in Hin as [->|Hin]); [discriminate..|].
  by apply elem_of_nil in Hin.
Defined.

(** The store left by a pass on one device, mounted again on a denser one:
    the three entries come back and no pass is started. *)
Lemma remount_after_returned_pass_witness :
  ∃ st' es,
    calculateCachedPhotos sampleDevice [photoA; photoB; photoC] 100%Z
      (sequentialSchedules [photoA; photoB; photoC]) ∅
      {| cachedPhotos := []; cachedPhotosLoadingState := RESTORED_FROM_CACHE |}
    = Some (PassReturned, st')
    ∧ cachedPhotos (ps_state st') = [] ++ es
    ∧ restoreThenCalculate denseDevice []
        (settledUpstream [photoA; photoB; photoC] 100%Z) (ps_store st')
      = {| hk_store := ps_store st';
           hk_state := {| cachedPhotos := es;
                          cachedPhotosLoadingState := COMPLETED |};
           hk_warnings := [];
           hk_passes := [] |}.
Proof.
  eexists.
  destruct (remount_after_returned_pass sampleDevice denseDevice
              (sequentialSchedules [photoA; photoB; photoC]) []
              (settledUpstream [photoA; photoB; photoC] 100%Z) ∅
              {| cachedPhotos := [];
                 cachedPhotosLoadingState := RESTORED_FROM_CACHE |}
              _ ltac:(discriminate) ltac:(discriminate) eq_refl
              ltac:(discriminate) ltac:(vm_compute; reflexivity))
    as (es & Hes & Hhk).
  exists es. split; [vm_compute; reflexivity|]. split; [exact Hes|exact Hhk].
Defined.

(** A mount over [A, broken] with both stored goes to [COMPLETED] without
    a pass.  A recalculation then clears the store, the render of the broken
    photo fails and the pass throws; another request and both effects later,
    the hook is still in [CALCULATING] and has started no other pass. *)
Lemma failed_recalculation_locks_hook_witness :
  let s : gmap (string * Z) string :=
    {[ ("A"%string, 100%Z) := "a.jpg"%string;
       ("broken"%string, 100%Z) := "x.jpg"%string ]} in
  let up := settledUpstream [photoA; photoBroken] 100%Z in
  let hk := restoreThenCalculate sampleDevice [] up s in
  let hk' := handle sampleDevice hk
               (RecalculateCalled up
                  (sequentialSchedules [photoA; photoBroken])) in
  let later := [RecalculateCalled up []; RestorationRuns up;
                CalculationRuns up []] in
  cachedPhotosLoadingState (hk_state hk) = COMPLETED
  ∧ hk_passes hk = []
  ∧ cachedPhotosLoadingState (hk_state hk') = CALCULATING
  ∧ hk_state (handleAll sampleDevice hk' later) = hk_state hk'
  ∧ hk_passes (handleAll sampleDevice hk' later) = hk_passes hk'.
Proof.
  intros s up hk hk' later.
  destruct (failed_recalculation_locks_hook sampleDevice up
              (sequentialSchedules [photoA; photoBroken]) hk PassThrew
              (default (PassPending,
                        {| ps_store := ∅;
                           ps_state := initialState;
                           ps_updates := 0; ps_trace := [] |})
                 (calculateCachedPhotos sampleDevice [photoA; photoBroken]
                    100%Z (sequentialSchedules [photoA; photoBroken]) ∅
                    {| cachedPhotos := [];
                       cachedPhotosLoadingState := CALCULATING |})).2)
    as (Hst & Hlock);
    [vm_compute; reflexivity|vm_compute; reflexivity|vm_compute; reflexivity|
     left; reflexivity|].
  destruct (Hlock later) as (Hstate & Hpasses).
  split_and!; [vm_compute; reflexivity|vm_compute; reflexivity|exact Hst|
               exact Hstate|exact Hpasses].
Defined.

(** From [RESTORED_FROM_CACHE], after the calculation effect, a restoration
    run for another collection at another width changes nothing. *)
Lemma hook_leaves_idle_for_good_witness :
  let up := settledUpstream [photoA; photoB; photoC] 100%Z in
  let evs := [CalculationRuns up (sequentialSchedules [photoA; photoB; photoC])] in
  let hk := handleAll sampleDevice (hookIn storeAB [] RESTORED_FROM_CACHE) evs in
  cachedPhotosLoadingState (hk_state hk) ≠ IDLE
  ∧ handle sampleDevice hk (RestorationRuns (settledUpstream [photoC] 200%Z))
    = hk.
Proof.
  intros up evs hk.
  apply (hook_leaves_idle_for_good sampleDevice
           (hookIn storeAB [] RESTORED_FROM_CACHE) evs
           (settledUpstream [photoC] 200%Z)).
  discriminate.
Defined.

(** A mount over [A, B] with both stored: [COMPLETED] with two entries. *)
Lemma completed_means_full_count_witness :
  let evs := [RestorationRuns (settledUpstream [photoA; photoB] 100%Z);
              CalculationRuns (settledUpstream [photoA; photoB] 100%Z) []] in
  length (cachedPhotos (hk_state (handleAll sampleDevice (mount storeAB) evs)))
  = 2
  ∧ 0 < 2.
Proof.
  intros evs.
  apply (completed_means_full_count sampleDevice storeAB evs 2).
  - repeat constructor.
  - vm_compute. reflexivity.
Defined.

(** The photo C twice in a batch, with only A and B stored. *)
Lemma duplicate_photo_renders_twice_witness :
  let σ := run sampleDevice [photoC; photoC] 100%Z [0; 1; 0; 1]
             (spawn storeAB [photoC; photoC]) in
  phases σ = [Rendering; Rendering]
  ∧ inFlight σ = 2
  ∧ List.filter isRender (snd <$> trace σ)
    = [EvRender "C" 300; EvRender "C" 300]
  ∧ List.filter isWrite (snd <$> trace σ) = [].
Proof.
  apply (duplicate_photo_renders_twice sampleDevice 100%Z storeAB
           photoC photoC); reflexivity.
Defined.
